(** * Bulk-export sinks of imposm3 (avro, gcs and bigquery packages)

    A shallow embedding of the Go code of the avro, gcs and bigquery
    database packages: field types and the row encoders, the per-table
    import workers with their row queue, the transaction routers, the
    generalized-table manager and the dataset rotation.

    Go maps are iterated in an unspecified order; every [range] over a map
    is modelled as a traversal of a list of its keys in some order, and the
    statements quantify over that order where it matters. *)

From Stdlib Require Import String Ascii List Bool Arith Lia ZArith Permutation DecimalString.
Import ListNotations.
Open Scope string_scope.
Open Scope list_scope.

(** String concatenation ([+] on Go strings). *)
Infix "+++" := String.append (at level 60, right associativity).

(* ------------------------------------------------------------------ *)
(** ** Go values *)

(** The Go kinds of the integer and float cells ([reflect.Kind]). *)
Inductive IntKind := KInt | KInt8 | KInt16 | KInt32 | KInt64.
Inductive FloatKind := KFloat32 | KFloat64.

(** An [interface{}] cell value as it reaches the encoders, with its
    dynamic Go type.  An integer carries its value; a float carries the
    IEEE bit pattern of its value as a float64 (widening a float32 is
    exact); the encoders never look inside floats. *)
Inductive Value :=
| VNil
| VBool (b : bool)
| VInt (k : IntKind) (z : Z)
| VFloat (k : FloatKind) (bits : Z)
| VString (s : string)
| VBytes (bs : list ascii).

(** Avro type names, [AvroType] of the three packages. *)
Inductive AvroType :=
| AvroTypeNull | AvroTypeBool | AvroTypeInt | AvroTypeLong | AvroTypeFloat
| AvroTypeDouble | AvroTypeBytes | AvroTypeString | AvroTypeRecord
| AvroTypeEnum | AvroTypeArray | AvroTypeMap | AvroTypeFixed.

Definition avro_type_string (t : AvroType) : string :=
  match t with
  | AvroTypeNull => "null" | AvroTypeBool => "boolean" | AvroTypeInt => "int"
  | AvroTypeLong => "long" | AvroTypeFloat => "float" | AvroTypeDouble => "double"
  | AvroTypeBytes => "bytes" | AvroTypeString => "string" | AvroTypeRecord => "record"
  | AvroTypeEnum => "enum" | AvroTypeArray => "array" | AvroTypeMap => "map"
  | AvroTypeFixed => "fixed"
  end.

Definition AvroType_eqb (a b : AvroType) : bool :=
  String.eqb (avro_type_string a) (avro_type_string b).

(** The wire value handed to goavro for one cell: either a one-entry map
    [{typeName: value}] or, for tags, the array of key/value records. *)
Inductive Wire :=
| WTagged (key : string) (v : Value)
| WTags (kvs : list (string * string)).

(** The null-tagged wire value [{"null": nil}]. *)
Definition wire_null : Wire := WTagged (avro_type_string AvroTypeNull) VNil.

(** [AvroType.ValueAsType] (avro/spec.go): a reflect conversion.  [None]
    is a reflect panic.  [reflect.Value.String] on a non-string yields the
    text ["<T Value>"] instead of panicking; [Int] accepts every signed
    integer kind and returns an int64, [Float] accepts both float kinds and
    returns a float64. *)
Definition int_kind_name (k : IntKind) : string :=
  match k with
  | KInt => "int" | KInt8 => "int8" | KInt16 => "int16" | KInt32 => "int32" | KInt64 => "int64"
  end.

Definition float_kind_name (k : FloatKind) : string :=
  match k with KFloat32 => "float32" | KFloat64 => "float64" end.

(** [v.Type().String()], and ["invalid"] for the zero [reflect.Value] of a
    nil interface. *)
Definition value_kind (v : Value) : string :=
  match v with
  | VNil => "invalid" | VBool _ => "bool" | VInt k _ => int_kind_name k
  | VFloat k _ => float_kind_name k | VString _ => "string" | VBytes _ => "[]uint8"
  end.

Definition ValueAsType (t : AvroType) (v : Value) : option Value :=
  match t with
  | AvroTypeString | AvroTypeEnum =>
      match v with
      | VString s => Some (VString s)
      | _ => Some (VString ("<" +++ value_kind v +++ " Value>"))
      end
  | AvroTypeBool => match v with VBool b => Some (VBool b) | _ => None end
  | AvroTypeBytes => match v with VBytes b => Some (VBytes b) | _ => None end
  | AvroTypeDouble | AvroTypeFixed | AvroTypeFloat =>
      match v with VFloat _ f => Some (VFloat KFloat64 f) | _ => None end
  | AvroTypeInt | AvroTypeLong =>
      match v with VInt _ z => Some (VInt KInt64 z) | _ => None end
  | _ => Some v
  end.

(* ------------------------------------------------------------------ *)
(** ** Field types of the avro and gcs packages *)

(** [FieldType] of package avro (part_003) and of package gcs (part_000):
    the same four implementations, [SimpleFieldType], [GeometryType],
    [ValidatedGeometryType] (embedding [GeometryType]) and [TagsType]. *)
Inductive FieldType :=
| SimpleFieldType (fieldType : AvroType)
| GeometryType (fieldType : AvroType)
| ValidatedGeometryType (fieldType : AvroType)
| TagsType.

Definition FieldType_AvroType (t : FieldType) : AvroType :=
  match t with
  | SimpleFieldType ft => ft
  | GeometryType _ => AvroTypeString
  | ValidatedGeometryType _ => AvroTypeString   (* promoted from GeometryType *)
  | TagsType => AvroTypeRecord
  end.

Record FieldSpec := { field_Name : string; field_Type : FieldType }.

(** [PrimaryType] over the [Type] list [[null; t]] built by
    [AsAvroFieldSchema] for a field: the first non-null entry.  For a tags
    field the gcs schema's list is [[null; array]] and the avro schema's
    [Type] is a nested record, so its primary type is [null]. *)
Definition primary_type_list (ts : list AvroType) : AvroType :=
  match find (fun t => negb (AvroType_eqb t AvroTypeNull)) ts with
  | Some t => t
  | None => AvroTypeNull
  end.

Definition gcs_schema_types (f : FieldSpec) : list AvroType :=
  if AvroType_eqb (FieldType_AvroType (field_Type f)) AvroTypeRecord
  then [AvroTypeNull; AvroTypeArray]
  else [AvroTypeNull; FieldType_AvroType (field_Type f)].

Definition avro_primary_type (f : FieldSpec) : AvroType :=
  match field_Type f with
  | TagsType => AvroTypeNull
  | t => primary_type_list [AvroTypeNull; FieldType_AvroType t]
  end.

Section Encoders.

(** [hstore.Hstore.Scan] of lib/pq followed by the read-out of [hst.Map]
    ([v.String] of each value) in the order one [range] visits it: an
    external parser.  Go's map order is unspecified and varies from call to
    call, so the statements below hold for every such function, and none of
    them compares the output of two calls. *)
Variable hstore_scan : string -> option (list (string * string)).

(** The gcs package's [AvroType.ValueAsType]: its definition is not part
    of the sources (only the avro package's is), so the conversion is a
    parameter of the gcs encoder; [None] is a panic. *)
Variable gcs_ValueAsType : AvroType -> Value -> option Value.

Definition encode_tags (value : Value) : option Wire :=
  match value with
  | VString s =>                        (* value.(string) *)
      match hstore_scan s with
      | Some kvs => Some (WTags kvs)
      | None => Some (WTags [])
      end
  | _ => None                           (* failed type assertion: panic *)
  end.

(** [encodeFieldAvro] of database/gcs/tx.go; [None] is a Go panic. *)
Definition encodeFieldAvro (field : FieldSpec) (value : Value) : option Wire :=
  let avroType := primary_type_list (gcs_schema_types field) in
  match field_Type field with
  | TagsType => encode_tags value
  | _ =>
      match value with
      | VNil => Some (WTagged (avro_type_string AvroTypeNull) VNil)
      | _ => option_map (WTagged (avro_type_string avroType)) (gcs_ValueAsType avroType value)
      end
  end.

(** [encodeFieldAvroDB] of database/avro (part_005). *)
Definition encodeFieldAvroDB (field : FieldSpec) (value : Value) : option Wire :=
  let avroType := avro_primary_type field in
  match field_Type field with
  | TagsType => encode_tags value
  | _ =>
      match value with
      | VNil => Some (WTagged (avro_type_string AvroTypeNull) VNil)
      | _ => option_map (WTagged (avro_type_string avroType)) (ValueAsType avroType value)
      end
  end.

End Encoders.

(* ------------------------------------------------------------------ *)
(** ** Field types of the bigquery package *)

(** [bigquery.FieldType] values used by the package. *)
Inductive BQFieldType :=
| StringFieldType | BytesFieldType | IntegerFieldType | FloatFieldType
| BooleanFieldType | TimestampFieldType | RecordFieldType | DateFieldType
| TimeFieldType | DateTimeFieldType | NumericFieldType | GeographyFieldType
| BigNumericFieldType.

(** [FieldType] of package bigquery (part_009). *)
Inductive BQType :=
| simpleFieldType (fieldType : BQFieldType) (repeated : bool)
| geometryType (fieldType : BQFieldType)
| validatedGeometryType (fieldType : BQFieldType).

Definition simple_AvroType (t : BQFieldType) : AvroType :=
  match t with
  | IntegerFieldType => AvroTypeLong
  | BigNumericFieldType => AvroTypeLong
  | FloatFieldType => AvroTypeFloat
  | NumericFieldType => AvroTypeDouble
  | BytesFieldType => AvroTypeBytes
  | BooleanFieldType => AvroTypeBool
  | StringFieldType => AvroTypeString
  | GeographyFieldType => AvroTypeString
  | RecordFieldType => AvroTypeRecord
  | _ => AvroTypeNull
  end.

Definition BQType_AvroType (t : BQType) : AvroType :=
  match t with
  | simpleFieldType ft _ => simple_AvroType ft
  | geometryType _ | validatedGeometryType _ => AvroTypeString
  end.

Record BQFieldSpec := { bqfield_Name : string; bqfield_Type : BQType }.

(** The cell encoding inside [tableImport.loop] (bigquery/tx.go). *)
Definition bq_encode_cell (field : BQFieldSpec) (val : Value) : Wire :=
  let key := match val with
             | VNil => AvroTypeNull
             | _ => BQType_AvroType (bqfield_Type field)
             end in
  WTagged (avro_type_string key) val.

(** The [bqTypes] table: the tags column ("hstore_string") is a repeated
    record. *)
Definition bq_tags_type : BQType := simpleFieldType RecordFieldType true.

(** [FieldSpec.AvroName] / [BigQueryName]: every character outside
    [[a-zA-Z0-9_]] replaced by ["_"]. *)
Definition name_char_ok (c : ascii) : bool :=
  let n := nat_of_ascii c in
  (  ((65 <=? n) && (n <=? 90)) || ((97 <=? n) && (n <=? 122))
  || ((48 <=? n) && (n <=? 57)) || (Nat.eqb n 95))%nat.

Fixpoint AvroName (s : string) : string :=
  match s with
  | EmptyString => EmptyString
  | String c s' => String (if name_char_ok c then c else "_"%char) (AvroName s')
  end.

(* ------------------------------------------------------------------ *)
(** ** The table import worker of package avro ([AvroTable], part_005) *)

Definition Row := list Value.
Definition AvroRecord := list (string * Wire).

(** What the worker does to its [AvroWriter], in order. *)
Inductive WriterEvent :=
| EvAppend (rec : AvroRecord)     (* tt.AvroDBWriter.Append([rec]) *)
| EvWriterClose.                  (* tt.Writer.Close() *)

Section AvroTable.

Variable hstore_scan : string -> option (list (string * string)).
(** [tt.Spec.Fields] *)
Variable fields : list FieldSpec.

(** [encodedValue[k] = v] on the Go map [encodedValue]: the value of an
    existing key is replaced, a new key is added.  The entry order of the
    list carries no meaning (goavro reads a map). *)
Fixpoint record_set (k : string) (v : Wire) (m : AvroRecord) : AvroRecord :=
  match m with
  | [] => [(k, v)]
  | (k', v') :: m' => if String.eqb k k' then (k', v) :: m' else (k', v') :: record_set k v m'
  end.

(** The body of the [range row] loop in [AvroTable.loop], from the map
    [m] built so far: [fields[i]] panics ([None]) when the row is longer
    than the spec; each cell is stored under the Avro name of its field. *)
Fixpoint encode_row_into (m : AvroRecord) (fs : list FieldSpec) (row : Row) : option AvroRecord :=
  match row, fs with
  | [], _ => Some m
  | cell :: row', f :: fs' =>
      match encodeFieldAvroDB hstore_scan f cell with
      | Some w => encode_row_into (record_set (AvroName (field_Name f)) w m) fs' row'
      | None => None
      end
  | _ :: _, [] => None
  end.

(** [encodedValue := make(map[string]interface{})] and the loop over the
    row's cells. *)
Definition encode_row (fs : list FieldSpec) (row : Row) : option AvroRecord :=
  encode_row_into [] fs row.

(** Capacity of [tt.rows]: [make(chan []interface{}, 64)]. *)
Definition rows_capacity := 64.

(** The worker: the channel buffer, whether [close(tt.rows)] ran, whether
    the consumer goroutine left its loop ([wg.Done]), whether the process
    died (panic or [log.Fatalf]), the rows ever sent (a ghost record of the
    caller's [Insert] calls) and the events on the writer. *)
Record AvroTableState := {
  st_rows : list Row;
  st_chan_closed : bool;
  st_loop_done : bool;
  st_crashed : bool;
  st_inserted : list Row;
  st_log : list WriterEvent
}.

Definition writer_closed (s : AvroTableState) : bool :=
  existsb (fun e => match e with EvWriterClose => true | _ => false end) (st_log s).

(** [NewTx] followed by [Begin]: empty channel, loop started. *)
Definition avro_table_init : AvroTableState :=
  {| st_rows := []; st_chan_closed := false; st_loop_done := false;
     st_crashed := false; st_inserted := []; st_log := [] |}.

(** One step of the caller or of the consumer goroutine.  [Insert] sends on
    the channel (blocking while it is full, panicking once it is closed);
    the loop receives in FIFO order, encodes and appends, and a failed
    append is [log.Fatalf]; [End] closes the channel, waits for the loop
    and closes the writer. *)
Inductive avro_step : AvroTableState -> AvroTableState -> Prop :=
| step_insert s r :
    st_crashed s = false -> st_chan_closed s = false ->
    length (st_rows s) < rows_capacity ->
    avro_step s {| st_rows := st_rows s ++ [r]; st_chan_closed := false;
                   st_loop_done := st_loop_done s; st_crashed := false;
                   st_inserted := st_inserted s ++ [r]; st_log := st_log s |}
| step_insert_closed s (r : Row) :
    st_crashed s = false -> st_chan_closed s = true ->
    avro_step s {| st_rows := st_rows s; st_chan_closed := true;
                   st_loop_done := st_loop_done s; st_crashed := true;
                   st_inserted := st_inserted s; st_log := st_log s |}
| step_loop_append s r rows' rec :
    st_crashed s = false -> st_rows s = r :: rows' ->
    encode_row fields r = Some rec ->
    avro_step s {| st_rows := rows'; st_chan_closed := st_chan_closed s;
                   st_loop_done := st_loop_done s; st_crashed := false;
                   st_inserted := st_inserted s; st_log := st_log s ++ [EvAppend rec] |}
| step_loop_encode_panic s r rows' :
    st_crashed s = false -> st_rows s = r :: rows' ->
    encode_row fields r = None ->
    avro_step s {| st_rows := st_rows s; st_chan_closed := st_chan_closed s;
                   st_loop_done := st_loop_done s; st_crashed := true;
                   st_inserted := st_inserted s; st_log := st_log s |}
| step_loop_append_fatal s r rows' :
    st_crashed s = false -> st_rows s = r :: rows' ->
    avro_step s {| st_rows := st_rows s; st_chan_closed := st_chan_closed s;
                   st_loop_done := st_loop_done s; st_crashed := true;
                   st_inserted := st_inserted s; st_log := st_log s |}
| step_loop_exit s :
    st_crashed s = false -> st_rows s = [] -> st_chan_closed s = true ->
    st_loop_done s = false ->
    avro_step s {| st_rows := []; st_chan_closed := true;
                   st_loop_done := true; st_crashed := false;
                   st_inserted := st_inserted s; st_log := st_log s |}
| step_end_close s :
    st_crashed s = false -> st_chan_closed s = false ->
    avro_step s {| st_rows := st_rows s; st_chan_closed := true;
                   st_loop_done := st_loop_done s; st_crashed := false;
                   st_inserted := st_inserted s; st_log := st_log s |}
| step_end_writer_close s :
    st_crashed s = false -> st_chan_closed s = true -> st_loop_done s = true ->
    writer_closed s = false ->
    avro_step s {| st_rows := st_rows s; st_chan_closed := true;
                   st_loop_done := true; st_crashed := false;
                   st_inserted := st_inserted s; st_log := st_log s ++ [EvWriterClose] |}.

Inductive avro_reachable : AvroTableState -> Prop :=
| reach_init : avro_reachable avro_table_init
| reach_step s s' : avro_reachable s -> avro_step s s' -> avro_reachable s'.

End AvroTable.

(* ------------------------------------------------------------------ *)
(** ** Go call outcomes *)

Definition Err := string.

(** The outcome of a Go call that returns an [error] and may panic. *)
Inductive GoResult :=
| ROk
| RErr (e : Err)
| RPanic (msg : string).

(* ------------------------------------------------------------------ *)
(** ** Transaction routers: [End] fan-out *)

Section RouterEnd.

Context {W : Type}.
(** The error returned by a worker's [End()], [None] for [nil]. *)
Variable tt_End : W -> option Err.

(** [TxRouter.End] of packages avro (part_004) and gcs (gcs.go): every
    worker ended, the last non-nil error kept.  Returns the workers whose
    [End] ran, in order, and the returned error. *)
Definition avro_TxRouter_End (tables : list W) : list W * option Err :=
  fold_left (fun acc imp =>
               let '(called, outErr) := acc in
               (called ++ [imp],
                match tt_End imp with Some err => Some err | None => outErr end))
            tables ([], None).

(** [TxRouter.End] of package bigquery (router.go): [tt.End()] is called
    for its effect only and [nil] is returned. *)
Definition bq_TxRouter_End (tables : list W) : list W * option Err :=
  (fold_left (fun called imp => let _ := tt_End imp in called ++ [imp]) tables [],
   None).

End RouterEnd.

(** The last [Some] of a list of errors. *)
Fixpoint last_error (es : list (option Err)) : option Err :=
  match es with
  | [] => None
  | e :: es' => match last_error es' with Some x => Some x | None => e end
  end.

(* ------------------------------------------------------------------ *)
(** ** The bigquery sink: table specs, import workers and router *)

Record TableSpec := {
  ts_Name : string;
  ts_Dataset : string;
  ts_Fields : list BQFieldSpec;
  ts_GeometryType : string
}.

(** The parts of [BigQuery] the workers read. *)
Record BQConfig := {
  bq_TempGCSBucket : string;
  bq_TempGCSPrefix : string
}.

(** Outcomes of the remote calls a worker makes, per table name: they are
    decided by the cloud services, so they are parameters of the model. *)
Record Remote := {
  begin_ok : string -> bool;            (* goavro.NewOCFWriter in Begin *)
  object_close_ok : string -> bool;     (* tempObjectWriter.Close *)
  load_run_ok : string -> bool;         (* loader.Run *)
  load_wait_ok : string -> bool;        (* job.Wait *)
  load_status_ok : string -> bool;      (* status.Err() == nil *)
  update_ok : string -> bool;           (* tempTable.Update *)
  delete_ok : string -> bool;           (* deleteTable, "Not found" tolerated *)
  query_run_ok : string -> bool;        (* query.Run *)
  query_wait_ok : string -> bool;       (* job.Wait *)
  query_status_ok : string -> bool      (* status.Err() == nil *)
}.

(** Effects of a worker on the outside world, in order. *)
Inductive BQEffect :=
| EDrainRows (table : string)                     (* close(tt.rows); wg.Wait() *)
| ECloseObject (uri : string)                     (* tempObjectWriter.Close() *)
| ELoadJob (dataset tmp uri : string)             (* load into the temp table *)
| EUpdateTmp (dataset tmp : string)               (* expiration of the temp table *)
| EDeleteTable (dataset table : string)           (* deleteTable *)
| ERunQuery (sql : string).                       (* query.Run + job.Wait *)

Definition gcs_uri (cfg : BQConfig) (spec : TableSpec) : string :=
  "gs://" +++ bq_TempGCSBucket cfg +++ "/" +++ bq_TempGCSPrefix cfg +++ ts_Name spec +++ ".avro".

Definition copy_query (ds tbl tmpds tmp : string) : string :=
  "CREATE OR REPLACE TABLE `" +++ ds +++ "." +++ tbl
  ++ "` AS ( SELECT * EXCEPT(geometry), ST_GEOGFROMWKB(geometry) AS geometry FROM `"
  +++ tmpds +++ "." +++ tmp +++ "` );".

Section TableImportEnd.

Variable cfg : BQConfig.
Variable rm : Remote.

(** [tableImport.End] (bigquery/tx.go): effects and returned error.  A
    failed load-job status returns [errors.Wrap(err, ...)] with [err] nil,
    that is [nil]; a failed query status returns a non-nil
    [BigQueryError]. *)
Definition tableImport_End (spec : TableSpec) : list BQEffect * option Err :=
  let n := ts_Name spec in
  let ds := ts_Dataset spec in
  let tmp := n +++ "_tmp" in
  let uri := gcs_uri cfg spec in
  let drained := [EDrainRows n] in
  if negb (object_close_ok rm n) then
    (drained, Some ("closing GCS object writer: " +++ uri)) else
  let closed := drained ++ [ECloseObject uri] in
  if negb (load_run_ok rm n) then
    (closed, Some ("starting BigQuery import from " +++ uri)) else
  let loaded := closed ++ [ELoadJob ds tmp uri] in
  if negb (load_wait_ok rm n) then
    (loaded, Some ("waiting for BigQuery import from " +++ uri +++ " to finish")) else
  if negb (load_status_ok rm n) then (loaded, None) else
  let updated := loaded ++ [EUpdateTmp ds tmp] in
  if negb (update_ok rm n) then
    (updated, Some ("creating temporary BigQuery table " +++ tmp)) else
  let deleted := updated ++ [EDeleteTable ds n] in
  if negb (delete_ok rm n) then
    (deleted, Some ("deleting BigQuery table " +++ n)) else
  let q := copy_query ds n ds tmp in
  let queried := deleted ++ [ERunQuery q] in
  if negb (query_run_ok rm n) then
    (queried, Some ("copying data from " +++ tmp +++ " to target BigQuery table " +++ n)) else
  if negb (query_wait_ok rm n) then (queried, Some ("BigQuery Error: in query " +++ q)) else
  if negb (query_status_ok rm n) then (queried, Some ("BigQuery Error: in query " +++ q)) else
  let cleaned := queried ++ [EDeleteTable ds tmp] in
  if negb (delete_ok rm tmp) then
    (cleaned, Some ("deleting BigQuery table " +++ tmp))
  else (cleaned, None).

(** [TxRouter] of package bigquery: the workers by table name, listed in
    the map's iteration order. *)
Record TxRouter := { txr_Tables : list (string * TableSpec) }.

(** [newTxRouter(bq, bulkImport)]: a worker per table of [bq.Tables]
    (listed in iteration order), each [Begin]-ed; the first failing
    [Begin] aborts.  [bulkImport] is not read. *)
Fixpoint newTxRouter_tables (tables : list (string * TableSpec)) (bulkImport : bool)
  : option (list (string * TableSpec)) :=
  match tables with
  | [] => Some []
  | (name, spec) :: rest =>
      if begin_ok rm (ts_Name spec) then
        option_map (fun r => (name, spec) :: r) (newTxRouter_tables rest bulkImport)
      else None
  end.

Definition newTxRouter (tables : list (string * TableSpec)) (bulkImport : bool)
  : option TxRouter :=
  option_map (fun ts => {| txr_Tables := ts |}) (newTxRouter_tables tables bulkImport).

(** [tableImport.Delete] *)
Definition tableImport_Delete (spec : TableSpec) (id : Z) : GoResult :=
  RPanic "unable to delete in bulkImport mode".

Fixpoint assoc {A} (k : string) (l : list (string * A)) : option A :=
  match l with
  | [] => None
  | (k', v) :: l' => if String.eqb k k' then Some v else assoc k l'
  end.

(** [TxRouter.Delete] *)
Definition TxRouter_Delete (txr : TxRouter) (table : string) (id : Z) : GoResult :=
  match assoc table (txr_Tables txr) with
  | None => RErr ("Delete from unknown table " +++ table)
  | Some imp => tableImport_Delete imp id
  end.

(** [TxRouter.End] and [TxRouter.Abort] of package bigquery: both loop
    over the workers calling [tt.End()]; the effects accumulate. *)
Definition TxRouter_End (txr : TxRouter) : list BQEffect * option Err :=
  (flat_map (fun '(_, imp) => fst (tableImport_End imp)) (txr_Tables txr), None).

Definition TxRouter_Abort (txr : TxRouter) : list BQEffect * option Err :=
  (flat_map (fun '(_, imp) => fst (tableImport_End imp)) (txr_Tables txr), None).

End TableImportEnd.

(* ------------------------------------------------------------------ *)
(** ** Generalized tables (bigquery package, part_006) *)

(** [GeneralizedTableSpec].  The pointers [Source] and [SourceGeneralized]
    are kept as the keys of the tables they point to in [bq.Tables] and
    [bq.GeneralizedTables]; [Tolerance] is kept as its ["%f"] rendering. *)
Record GenTable := {
  gt_Name : string;
  gt_SourceName : string;
  gt_Source : option string;
  gt_SourceGeneralized : option string;
  gt_Tolerance : string;
  gt_Where : string;
  gt_created : bool
}.

Definition set_Source (t : GenTable) (s : option string) : GenTable :=
  {| gt_Name := gt_Name t; gt_SourceName := gt_SourceName t; gt_Source := s;
     gt_SourceGeneralized := gt_SourceGeneralized t; gt_Tolerance := gt_Tolerance t;
     gt_Where := gt_Where t; gt_created := gt_created t |}.

Definition set_SourceGeneralized (t : GenTable) (s : option string) : GenTable :=
  {| gt_Name := gt_Name t; gt_SourceName := gt_SourceName t; gt_Source := gt_Source t;
     gt_SourceGeneralized := s; gt_Tolerance := gt_Tolerance t;
     gt_Where := gt_Where t; gt_created := gt_created t |}.

Definition set_created (t : GenTable) : GenTable :=
  {| gt_Name := gt_Name t; gt_SourceName := gt_SourceName t; gt_Source := gt_Source t;
     gt_SourceGeneralized := gt_SourceGeneralized t; gt_Tolerance := gt_Tolerance t;
     gt_Where := gt_Where t; gt_created := true |}.

(** The [BigQuery] sink state the generalization code reads and mutates. *)
Record BQ := {
  bq_ImportSchema : string;
  bq_Tables : list (string * TableSpec);
  bq_GeneralizedTables : list (string * GenTable);
  bq_updatedIDs : list (string * list Z)
}.

(** Writing through a pointer held in [bq.GeneralizedTables]. *)
Fixpoint update_gen (name : string) (f : GenTable -> GenTable)
    (l : list (string * GenTable)) : list (string * GenTable) :=
  match l with
  | [] => []
  | (k, t) :: l' => if String.eqb name k then (k, f t) :: l' else (k, t) :: update_gen name f l'
  end.

Definition with_gen (bq : BQ) (gs : list (string * GenTable)) : BQ :=
  {| bq_ImportSchema := bq_ImportSchema bq; bq_Tables := bq_Tables bq;
     bq_GeneralizedTables := gs; bq_updatedIDs := bq_updatedIDs bq |}.

Definition modify_gen (bq : BQ) (name : string) (f : GenTable -> GenTable) : BQ :=
  with_gen bq (update_gen name f (bq_GeneralizedTables bq)).

Definition gen (bq : BQ) (name : string) : option GenTable :=
  assoc name (bq_GeneralizedTables bq).

Definition is_some {A} (o : option A) : bool :=
  match o with Some _ => true | None => false end.

(** *** [prepareGeneralizedTableSources] *)

(** The double-quote character, as [%q] prints around a name. *)
Definition dq : string := String (ascii_of_nat 34) EmptyString.

(** First loop: attach each table's direct source. *)
Fixpoint prepare_pass1 (order : list string) (bq : BQ) : Err + BQ :=
  match order with
  | [] => inr bq
  | name :: rest =>
      match gen bq name with
      | None => prepare_pass1 rest bq
      | Some table =>
          if is_some (assoc (gt_SourceName table) (bq_Tables bq)) then
            prepare_pass1 rest (modify_gen bq name (fun t => set_Source t (Some (gt_SourceName table))))
          else if is_some (gen bq (gt_SourceName table)) then
            prepare_pass1 rest
              (modify_gen bq name (fun t => set_SourceGeneralized t (Some (gt_SourceName table))))
          else inl ("missing source " +++ dq +++ gt_SourceName table +++ dq
                    +++ " for generalized table " +++ dq +++ name +++ dq)
      end
  end.

(** One iteration of [for filled := true; filled; { ... }]: returns the new
    state and [filled]. *)
Fixpoint prepare_fill (order : list string) (bq : BQ) (filled : bool) : BQ * bool :=
  match order with
  | [] => (bq, filled)
  | name :: rest =>
      match gen bq name with
      | None => prepare_fill rest bq filled
      | Some table =>
          match gt_Source table with
          | Some _ => prepare_fill rest bq filled
          | None =>
              let bq' :=
                match gen bq (gt_SourceName table) with
                | Some source =>
                    match gt_Source source with
                    | Some s => modify_gen bq name (fun t => set_Source t (Some s))
                    | None => bq
                    end
                | None => bq
                end in
              prepare_fill rest bq' true
          end
      end
  end.

(** The outer loop; [orders k] is the map's iteration order in the k-th
    iteration.  [None]: still looping after [fuel] iterations. *)
Fixpoint prepare_loop (fuel : nat) (orders : nat -> list string) (k : nat) (bq : BQ)
  : option BQ :=
  match fuel with
  | O => None
  | S fuel' =>
      let '(bq', filled) := prepare_fill (orders k) bq false in
      if filled then prepare_loop fuel' orders (S k) bq' else Some bq'
  end.

Definition prepareGeneralizedTableSources (fuel : nat) (order1 : list string)
    (orders : nat -> list string) (bq : BQ) : option (Err + BQ) :=
  match prepare_pass1 order1 bq with
  | inl e => Some (inl e)
  | inr bq1 => option_map inr (prepare_loop fuel orders 0 bq1)
  end.

(** *** [generalizeTable] and [Generalize] *)

(** [GeneralizeSQL] of the bigquery field types (part_009). *)
Definition GeneralizeSQL (col : BQFieldSpec) (spec : GenTable) : string :=
  let n := AvroName (bqfield_Name col) in
  match bqfield_Type col with
  | simpleFieldType _ _ => n
  | geometryType _ =>
      "ST_SIMPLIFY(" +++ n +++ ", " +++ gt_Tolerance spec +++ ") as " +++ n
  | validatedGeometryType _ =>
      "ST_BUFFER(ST_SIMPLIFY(" +++ n +++ ", " +++ gt_Tolerance spec +++ "), 0) as " +++ n
  end.

Fixpoint join (sep : string) (l : list string) : string :=
  match l with
  | [] => ""
  | [x] => x
  | x :: l' => x +++ sep +++ join sep l'
  end.

(** The statement [generalizeTable] runs. *)
Definition generalize_sql (bq : BQ) (table : GenTable) : string :=
  let where_ := if String.eqb (gt_Where table) "" then "" else " WHERE " +++ gt_Where table in
  let fields := match gt_Source table with
                | Some s => match assoc s (bq_Tables bq) with
                            | Some spec => ts_Fields spec | None => [] end
                | None => [] end in
  let columnSQL := join ", " (map (fun c => GeneralizeSQL c table) fields) in
  let sourceTable := match gt_SourceGeneralized table, gt_Source table with
                     | Some g, _ => g
                     | None, Some s => s
                     | None, None => "" end in
  "CREATE OR REPLACE TABLE `" +++ bq_ImportSchema bq +++ "." +++ gt_Name table
  +++ "` AS (SELECT " +++ columnSQL +++ " FROM `" +++ bq_ImportSchema bq +++ "."
  +++ sourceTable +++ "` " +++ where_ +++ ")".

Section Generalize.

(** Whether the query job of [generalizeTable] for a table succeeds. *)
Variable job_ok : string -> bool.

(** The outcome of [Generalize]: the statements run (in order) and the
    final state, or the error with the statements run so far. *)
Inductive GenOutcome :=
| GenOk (queries : list string) (bq : BQ)
| GenErr (queries : list string) (e : Err)
| GenPanic (queries : list string).

(** [generalizeTable] followed by [table.created = true]. *)
Definition build (bq : BQ) (name : string) (table : GenTable) (qs : list string)
  : (list string * BQ) + (list string * Err) :=
  let sql := generalize_sql bq table in
  if job_ok name then inl (qs ++ [sql], modify_gen bq name set_created)
  else inr (qs ++ [sql], "BigQuery Error: in query " +++ sql).

(** First loop: tables with [SourceGeneralized == nil]. *)
Fixpoint generalize_loop1 (order : list string) (bq : BQ) (qs : list string) : GenOutcome :=
  match order with
  | [] => GenOk qs bq
  | name :: rest =>
      match gen bq name with
      | None => generalize_loop1 rest bq qs
      | Some table =>
          match gt_SourceGeneralized table with
          | None =>
              match build bq name table qs with
              | inl (qs', bq') => generalize_loop1 rest bq' qs'
              | inr (qs', e) => GenErr qs' e
              end
          | Some _ => generalize_loop1 rest bq qs
          end
      end
  end.

(** Second loop: [!table.created && table.SourceGeneralized.created]; a
    nil [SourceGeneralized] is dereferenced only when [created] is false. *)
Fixpoint generalize_loop2 (order : list string) (bq : BQ) (qs : list string) : GenOutcome :=
  match order with
  | [] => GenOk qs bq
  | name :: rest =>
      match gen bq name with
      | None => generalize_loop2 rest bq qs
      | Some table =>
          if gt_created table then generalize_loop2 rest bq qs else
          match gt_SourceGeneralized table with
          | None => GenPanic qs
          | Some g =>
              match gen bq g with
              | Some src =>
                  if gt_created src then
                    match build bq name table qs with
                    | inl (qs', bq') => generalize_loop2 rest bq' qs'
                    | inr (qs', e) => GenErr qs' e
                    end
                  else generalize_loop2 rest bq qs
              | None => GenPanic qs
              end
          end
      end
  end.

(** [Generalize]: the two loops, each over its own iteration order. *)
Definition Generalize (order1 order2 : list string) (bq : BQ) : GenOutcome :=
  match generalize_loop1 order1 bq [] with
  | GenOk qs bq1 => generalize_loop2 order2 bq1 qs
  | o => o
  end.

End Generalize.

(** *** [sortedGeneralizedTables] and [GeneralizeUpdates] *)

(** One pass of the inner [range] of [sortedGeneralizedTables] over
    [bq.GeneralizedTables] in [order], extending [added]/[sorted] (one list:
    [added] holds exactly the names in [sorted]).  [None] is the nil
    dereference of [tbl.SourceGeneralized] when [tbl.Source] is nil. *)
Fixpoint sorted_pass (bq : BQ) (order : list string) (sorted : list string)
  : option (list string) :=
  match order with
  | [] => Some sorted
  | name :: rest =>
      match gen bq name with
      | None => sorted_pass bq rest sorted
      | Some tbl =>
          if existsb (String.eqb (gt_Name tbl)) sorted then sorted_pass bq rest sorted else
          match gt_Source tbl, gt_SourceGeneralized tbl with
          | Some _, _ => sorted_pass bq rest (sorted ++ [gt_Name tbl])
          | None, Some g =>
              if existsb (String.eqb g) sorted
              then sorted_pass bq rest (sorted ++ [gt_Name tbl])
              else sorted_pass bq rest sorted
          | None, None => None
          end
      end
  end.

(** [for len(bq.GeneralizedTables) > len(sorted)], with [orders k] the
    iteration order of the k-th pass; [None] also when [fuel] runs out. *)
Fixpoint sorted_loop (fuel : nat) (bq : BQ) (orders : nat -> list string) (k : nat)
    (sorted : list string) : option (list string) :=
  match fuel with
  | O => None
  | S fuel' =>
      if Nat.ltb (length sorted) (length (bq_GeneralizedTables bq)) then
        match sorted_pass bq (orders k) sorted with
        | Some sorted' => sorted_loop fuel' bq orders (S k) sorted'
        | None => None
        end
      else Some sorted
  end.

Definition sortedGeneralizedTables (fuel : nat) (bq : BQ) (orders : nat -> list string)
  : option (list string) :=
  sorted_loop fuel bq orders 0 [].

(** [TxRouter.Insert] of package bigquery: the row goes to the worker's
    channel ([ROk]) or the table is unknown. *)
Definition TxRouter_Insert (txr : TxRouter) (table : string) (row : Row) : GoResult :=
  match assoc table (txr_Tables txr) with
  | None => RErr ("Insert into unknown table " +++ table)
  | Some _ => ROk
  end.

(** A call [bq.txRouter.Insert(table, row)] and what it returned. *)
Record InsertCall := { ic_table : string; ic_row : Row; ic_result : GoResult }.

(** [GeneralizeUpdates]: for each table of [sorted], for each tracked id,
    [bq.txRouter.Insert(table, []interface{}{id})], result discarded;
    returns the calls made and [nil]. *)
Definition GeneralizeUpdates_calls (bq : BQ) (txr : TxRouter) (sorted : list string)
  : list InsertCall :=
  flat_map (fun table =>
              match assoc table (bq_updatedIDs bq) with
              | Some ids =>
                  map (fun id => {| ic_table := table; ic_row := [VInt KInt64 id];
                                    ic_result := TxRouter_Insert txr table [VInt KInt64 id] |}) ids
              | None => []
              end) sorted.

Definition GeneralizeUpdates (fuel : nat) (orders : nat -> list string) (bq : BQ)
    (txr : TxRouter) : option (list InsertCall * option Err) :=
  option_map (fun sorted => (GeneralizeUpdates_calls bq txr sorted, None))
             (sortedGeneralizedTables fuel bq orders).

(** [GeneralizedTableSpec.InsertSQL] (bigquery/spec.go) with the columns
    of the source already rendered: the insert-select by id that the
    claim refers to. *)
Definition InsertSQL (dataset name srcDataset srcName idColumnName columnSQL where_ : string)
  : string :=
  let w := " WHERE " +++ dq +++ idColumnName +++ dq +++ " = $1" in
  let w := if String.eqb where_ "" then w else w +++ " AND (" +++ where_ +++ ")" in
  "INSERT INTO " +++ dq +++ dataset +++ dq +++ "." +++ dq +++ name +++ dq +++ " (SELECT "
  +++ columnSQL +++ " FROM " +++ dq +++ srcDataset +++ dq +++ "." +++ dq +++ srcName +++ dq
  +++ w +++ ")".

(* ------------------------------------------------------------------ *)
(** ** Dataset rotation (part_007) *)

(** The warehouse catalog: each dataset with the tables it holds. *)
Definition Catalog := list (string * list string).

Definition catalog_has (c : Catalog) (ds table : string) : bool :=
  match assoc ds c with
  | Some ts => existsb (String.eqb table) ts
  | None => false
  end.

Fixpoint catalog_add (c : Catalog) (ds table : string) : Catalog :=
  match c with
  | [] => [(ds, [table])]
  | (d, ts) :: c' =>
      if String.eqb d ds
      then (d, if existsb (String.eqb table) ts then ts else ts ++ [table]) :: c'
      else (d, ts) :: catalog_add c' ds table
  end.

(** [table.Metadata]: the error text of the API when the table is absent. *)
Definition table_metadata (c : Catalog) (ds table : string) : option Err :=
  if catalog_has c ds table then None
  else Some ("googleapi: Error 404: Not found: Table " +++ ds +++ "." +++ table +++ ", notFound").

(** [strings.Contains] *)
Definition contains (s sub : string) : bool := is_some (String.index 0 sub s).

(** [BigQuery.tableExists] (part_006): [(exists, err)]. *)
Definition tableExists (c : Catalog) (ds table : string) : bool * option Err :=
  match table_metadata c ds table with
  | Some err =>
      if negb (contains err "Not found")
      then (false, Some ("checking if table " +++ ds +++ "." +++ table +++ " exists: " +++ err))
      else (true, None)
  | None => (true, None)
  end.

Inductive CopyOp := SnapshotOperation | CopyOperation.

Inductive RotEffect :=
| RWarn (msg : string)
| RCopyJob (op : CopyOp) (srcds dstds table : string).

(** A copy job ([copier.Run] + [job.Wait]): the job fails when its source
    table is absent, leaving the catalog as it was; otherwise the
    destination table is written.  [job.Wait] reports a failed job through
    the returned status only, which [rotate] does not read, so a failed job
    is not an error of [rotate]. *)
Definition copy_job (c : Catalog) (srcds dstds table : string) : Catalog :=
  if catalog_has c srcds table then catalog_add c dstds table else c.

(** The loop of [rotate(source, dest, backup)] over [bq.tableNames()]:
    the copy jobs issued (and warnings logged) in order, the final catalog
    and the returned error.  [createDatasetIfNotExists] precedes it; with
    [datasetExists] answering true on "Not found" it creates nothing. *)
Fixpoint rotate_tables (source dest backup : string) (names : list string) (c : Catalog)
    (eff : list RotEffect) : list RotEffect * Catalog * option Err :=
  match names with
  | [] => (eff, c, None)
  | tableName :: rest =>
      let '(sourceExists, e1) := tableExists c source tableName in
      match e1 with Some e => (eff, c, Some e) | None =>
      let '(destExists, e2) := tableExists c dest tableName in
      match e2 with Some e => (eff, c, Some e) | None =>
      if negb sourceExists then
        rotate_tables source dest backup rest c
          (eff ++ [RWarn ("skipping rotate of " +++ tableName +++ ", table does not exists in " +++ source)])
      else
        let '(c1, eff1) :=
          if destExists then
            (copy_job c dest backup tableName,
             eff ++ [RCopyJob SnapshotOperation dest backup tableName])
          else (c, eff) in
        rotate_tables source dest backup rest (copy_job c1 source dest tableName)
          (eff1 ++ [RCopyJob CopyOperation source dest tableName])
      end end
  end.

Definition rotate (source dest backup : string) (names : list string) (c : Catalog)
  : list RotEffect * Catalog * option Err :=
  rotate_tables source dest backup names c [].

(* ------------------------------------------------------------------ *)
(** ** [parseConnectionString] (bigquery package, part_008) *)

Definition is_ascii_char (c : ascii) : bool := Nat.ltb (nat_of_ascii c) 128.

Fixpoint is_ascii (s : string) : bool :=
  match s with
  | EmptyString => true
  | String c s' => is_ascii_char c && is_ascii s'
  end.

(** *** Bytes, runes and string slices

    A Go string is a sequence of bytes; here a [string] whose characters
    are the bytes. A rune ([int32]) is a [Z]. *)

(** The byte value of a character, and the character of a byte value. *)
Definition byte (c : ascii) : Z := Z.of_nat (nat_of_ascii c).
Definition chr (z : Z) : ascii := ascii_of_nat (Z.to_nat z).

(** Go's conversion [byte(x)]: the low eight bits. *)
Definition to_byte (z : Z) : Z := Z.land z 255.

(** [s[i]] (every use is in range). *)
Definition byte_at (s : string) (i : nat) : Z :=
  match String.get i s with Some c => byte c | None => 0%Z end.

(** [s[:n]], [s[n:]] and [s[i:j]]. *)
Fixpoint take (n : nat) (s : string) : string :=
  match n, s with
  | O, _ => EmptyString
  | S n', String c s' => String c (take n' s')
  | S _, EmptyString => EmptyString
  end.

Fixpoint drop (n : nat) (s : string) : string :=
  match n, s with
  | O, _ => s
  | S n', String _ s' => drop n' s'
  | S _, EmptyString => EmptyString
  end.


(** [int32] wrap-around. *)
Definition wrap32 (z : Z) : Z := ((z + 2 ^ 31) mod 2 ^ 32 - 2 ^ 31)%Z.

(** *** [unicode/utf8] (Go 1.17) *)

Section UTF8.
Local Open Scope Z_scope.

Definition RuneError : Z := 0xFFFD.
Definition RuneSelf : Z := 0x80.
Definition MaxRune : Z := 0x10FFFF.

Definition surrogateMin : Z := 0xD800.
Definition surrogateMax : Z := 0xDFFF.

Definition tx : Z := 0x80.
Definition t2 : Z := 0xC0.
Definition t3 : Z := 0xE0.
Definition t4 : Z := 0xF0.

Definition maskx : Z := 0x3F.
Definition mask2 : Z := 0x1F.
Definition mask3 : Z := 0x0F.
Definition mask4 : Z := 0x07.

Definition rune1Max : Z := 127.
Definition rune2Max : Z := 2047.
Definition rune3Max : Z := 65535.

Definition locb : Z := 0x80.
Definition hicb : Z := 0xBF.

Definition xx : Z := 0xF1.
Definition as_ : Z := 0xF0.

(** The [first] table: information about the first byte of a sequence
    (the entries s1 .. s7 are 0x02, 0x13, 0x03, 0x23, 0x34, 0x04, 0x44). *)
Definition first (b : Z) : Z :=
  if b <? 0x80 then as_
  else if b <? 0xC2 then xx
  else if b <? 0xE0 then 0x02
  else if b =? 0xE0 then 0x13
  else if b <? 0xED then 0x03
  else if b =? 0xED then 0x23
  else if b <? 0xF0 then 0x03
  else if b =? 0xF0 then 0x34
  else if b <? 0xF4 then 0x04
  else if b =? 0xF4 then 0x44
  else xx.

(** [acceptRanges]: the valid range of the second byte. *)
Definition acceptRange (i : Z) : Z * Z :=
  if i =? 0 then (locb, hicb)
  else if i =? 1 then (0xA0, hicb)
  else if i =? 2 then (locb, 0x9F)
  else if i =? 3 then (0x90, hicb)
  else if i =? 4 then (locb, 0x8F)
  else (0, 0).

(** [utf8.ValidRune] *)
Definition ValidRune (r : Z) : bool :=
  ((0 <=? r) && (r <? surrogateMin)) || ((surrogateMax <? r) && (r <=? MaxRune)).


(** [utf8.RuneLen] *)
Definition RuneLen (r : Z) : Z :=
  if r <? 0 then -1
  else if r <=? rune1Max then 1
  else if r <=? rune2Max then 2
  else if (surrogateMin <=? r) && (r <=? surrogateMax) then -1
  else if r <=? rune3Max then 3
  else if r <=? MaxRune then 4
  else -1.

(** [utf8.DecodeRuneInString] *)
Definition DecodeRuneInString (s : string) : Z * nat :=
  let n := String.length s in
  if Nat.ltb n 1 then (RuneError, 0%nat) else
  let s0 := byte_at s 0 in
  let x := first s0 in
  if as_ <=? x then
    let mask := Z.shiftr (wrap32 (Z.shiftl x 31)) 31 in
    (Z.lor (Z.ldiff s0 mask) (Z.land RuneError mask), 1%nat)
  else
  let sz := Z.to_nat (Z.land x 7) in
  let '(lo, hi) := acceptRange (Z.shiftr x 4) in
  if Nat.ltb n sz then (RuneError, 1%nat) else
  let s1 := byte_at s 1 in
  if (s1 <? lo) || (hi <? s1) then (RuneError, 1%nat) else
  if Nat.leb sz 2 then
    (Z.lor (Z.shiftl (Z.land s0 mask2) 6) (Z.land s1 maskx), 2%nat) else
  let s2 := byte_at s 2 in
  if (s2 <? locb) || (hicb <? s2) then (RuneError, 1%nat) else
  if Nat.leb sz 3 then
    (Z.lor (Z.lor (Z.shiftl (Z.land s0 mask3) 12) (Z.shiftl (Z.land s1 maskx) 6))
           (Z.land s2 maskx), 3%nat) else
  let s3 := byte_at s 3 in
  if (s3 <? locb) || (hicb <? s3) then (RuneError, 1%nat) else
  (Z.lor (Z.lor (Z.lor (Z.shiftl (Z.land s0 mask4) 18) (Z.shiftl (Z.land s1 maskx) 12))
                (Z.shiftl (Z.land s2 maskx) 6))
         (Z.land s3 maskx), 4%nat).

(** [utf8.EncodeRune]: the bytes it writes. *)
Definition EncodeRune (r : Z) : string :=
  let i := Z.land r (Z.ones 32) in
  let three (r : Z) :=
    String (chr (Z.lor t3 (to_byte (Z.shiftr r 12))))
      (String (chr (Z.lor tx (Z.land (to_byte (Z.shiftr r 6)) maskx)))
         (String (chr (Z.lor tx (Z.land (to_byte r) maskx))) EmptyString)) in
  if i <=? rune1Max then String (chr (to_byte r)) EmptyString
  else if i <=? rune2Max then
    String (chr (Z.lor t2 (to_byte (Z.shiftr r 6))))
      (String (chr (Z.lor tx (Z.land (to_byte r) maskx))) EmptyString)
  else if (MaxRune <? i) || ((surrogateMin <=? i) && (i <=? surrogateMax)) then
    three RuneError
  else if i <=? rune3Max then three r
  else
    String (chr (Z.lor t4 (to_byte (Z.shiftr r 18))))
      (String (chr (Z.lor tx (Z.land (to_byte (Z.shiftr r 12)) maskx)))
         (String (chr (Z.lor tx (Z.land (to_byte (Z.shiftr r 6)) maskx)))
            (String (chr (Z.lor tx (Z.land (to_byte r) maskx))) EmptyString))).



(** [strings.Builder.WriteByte] and [WriteRune]: the bytes they append. *)
Definition WriteByte (c : Z) : string := String (chr c) EmptyString.

Definition WriteRune (r : Z) : string :=
  if r <? RuneSelf then WriteByte (to_byte r) else EncodeRune r.

End UTF8.

(** The UTF-8 encoding of a sequence of runes, and the strings that are
    the encoding of runes that all satisfy [P]. *)
Fixpoint enc_runes (rs : list Z) : string :=
  match rs with
  | [] => EmptyString
  | r :: rs' => EncodeRune r +++ enc_runes rs'
  end.

Definition encodes (P : Z -> Prop) (t : string) : Prop :=
  exists rs, t = enc_runes rs /\ Forall P rs.

(** A valid rune that [g] maps to itself. *)
Definition gfixed (g : Z -> Z) (r : Z) : Prop := ValidRune r = true /\ g r = r.

(** *** [unicode.ToLower], [unicode.IsSpace] and [strings.Map] (Go 1.17) *)

Definition MaxASCII : Z := 0x7F.


(** The second loop of [strings.Map]: every rune is mapped and written. *)
Fixpoint map_rest (mapping : Z -> Z) (fuel : nat) (s : string) : string :=
  match fuel with
  | O => EmptyString
  | S fuel' =>
      match s with
      | EmptyString => EmptyString
      | String _ _ =>
          let '(c, w) := DecodeRuneInString s in
          let r := mapping c in
          (if (r >=? 0)%Z then
             if (r <? RuneSelf)%Z then WriteByte (to_byte r) else WriteRune r
           else EmptyString)
          +++ map_rest mapping fuel' (drop w s)
      end
  end.

(** The first loop of [strings.Map], at [s[i:]] with [pre = s[:i]]:
    [None] when no rune changes (the builder is never grown), otherwise
    the finished [b.String()]. *)
Fixpoint map_first (mapping : Z -> Z) (fuel : nat) (pre s : string) : option string :=
  match fuel with
  | O => None
  | S fuel' =>
      match s with
      | EmptyString => None
      | String _ _ =>
          let '(c, w) := DecodeRuneInString s in
          let r := mapping c in
          if (r =? c)%Z && negb (c =? RuneError)%Z
          then map_first mapping fuel' (pre +++ take w s) (drop w s)
          else
            let '(c', width) :=
              if (c =? RuneError)%Z then DecodeRuneInString s
              else (c, Z.to_nat (RuneLen c)) in
            if (c =? RuneError)%Z && negb (Nat.eqb width 1) && (r =? c')%Z
            then map_first mapping fuel' (pre +++ take w s) (drop w s)
            else Some (pre +++ (if (r >=? 0)%Z then WriteRune r else EmptyString)
                           +++ map_rest mapping (String.length s) (drop width s))
      end
  end.

(** [strings.Map] *)
Definition Map (mapping : Z -> Z) (s : string) : string :=
  match map_first mapping (String.length s) EmptyString s with
  | Some out => out
  | None => s
  end.












(** *** [strings.ToLower] (Go 1.17)

    [To_LowerCase] stands for [unicode.To(unicode.LowerCase, r)], the
    lookup in Go's Unicode case tables. *)

Definition is_upper (c : ascii) : bool :=
  let n := nat_of_ascii c in (Nat.leb 65 n && Nat.leb n 90)%bool.

Definition lower_char (c : ascii) : ascii :=
  if is_upper c then ascii_of_nat (nat_of_ascii c + 32) else c.

(** The builder loop of the ASCII path. *)
Fixpoint lower_ascii (s : string) : string :=
  match s with
  | EmptyString => EmptyString
  | String c s' => String (lower_char c) (lower_ascii s')
  end.

(** The first loop: [(isASCII, hasUpper)]; it stops at the first byte
    that is not ASCII. *)
Fixpoint lower_scan (s : string) (hasUpper : bool) : bool * bool :=
  match s with
  | EmptyString => (true, hasUpper)
  | String c s' =>
      if (RuneSelf <=? byte c)%Z then (false, hasUpper)
      else lower_scan s' (hasUpper || is_upper c)
  end.

Section Lower.
Variable To_LowerCase : Z -> Z.

(** [unicode.ToLower] *)
Definition unicode_ToLower (r : Z) : Z :=
  if (r <=? MaxASCII)%Z then
    if ((65 <=? r) && (r <=? 90))%Z then (r + 32)%Z else r
  else To_LowerCase r.

(** [strings.ToLower] *)
Definition ToLower (s : string) : string :=
  let '(isASCII, hasUpper) := lower_scan s false in
  if isASCII then
    if negb hasUpper then s else lower_ascii s
  else Map unicode_ToLower s.

End Lower.

(** [strings.HasPrefix] and [strings.TrimPrefix] *)
Fixpoint HasPrefix (s p : string) : bool :=
  match p, s with
  | EmptyString, _ => true
  | String c p', String d s' => Ascii.eqb c d && HasPrefix s' p'
  | String _ _, EmptyString => false
  end.


(** [strings.TrimLeft(s, cutset)] for a cutset of one ASCII byte. *)
Fixpoint TrimLeft (s : string) (cut : ascii) : string :=
  match s with
  | EmptyString => EmptyString
  | String c s' => if Ascii.eqb c cut then TrimLeft s' cut else s
  end.

Fixpoint rev_string (s : string) : string :=
  match s with
  | EmptyString => EmptyString
  | String c s' => rev_string s' +++ String c EmptyString
  end.

(** [strings.Split(s, sep)] for a one-character separator. *)
Fixpoint split_on (sep : ascii) (s : string) : list string :=
  match s with
  | EmptyString => [EmptyString]
  | String c s' =>
      if Ascii.eqb c sep then EmptyString :: split_on sep s'
      else match split_on sep s' with
           | x :: xs => String c x :: xs
           | [] => [String c EmptyString]
           end
  end.



(** *** The part of [net/url] and [path] the function uses *)

Definition is_alnum (c : ascii) : bool :=
  let n := nat_of_ascii c in
  ((Nat.leb 97 n && Nat.leb n 122) || (Nat.leb 65 n && Nat.leb n 90)
   || (Nat.leb 48 n && Nat.leb n 57))%bool.

Definition char_in (c : ascii) (set : string) : bool :=
  existsb (Ascii.eqb c) (list_ascii_of_string set).

(** [shouldEscape(c, encodePath)] and [shouldEscape(c, encodeHost)] of
    net/url, for ASCII [c]. *)
Definition shouldEscapePath (c : ascii) : bool :=
  if is_alnum c then false
  else if char_in c "-_.~" then false
  else if char_in c "$&+,/:;=?@" then Ascii.eqb c "?"%char
  else true.

Definition shouldEscapeHost (c : ascii) : bool :=
  if is_alnum c then false
  else if char_in c "!$&'()*+,;=:[]<>" || Ascii.eqb c (ascii_of_nat 34) then false
  else if char_in c "-_.~" then false
  else true.

Definition upperhex (n : nat) : ascii :=
  match List.nth_error (list_ascii_of_string "0123456789ABCDEF") n with
  | Some c => c | None => "0"%char end.

(** [escape(s, encodePath)] *)
Fixpoint escapePath (s : string) : string :=
  match s with
  | EmptyString => EmptyString
  | String c s' =>
      if shouldEscapePath c
      then String "%"%char (String (upperhex (nat_of_ascii c / 16))
             (String (upperhex (nat_of_ascii c mod 16)) (escapePath s')))
      else String c (escapePath s')
  end.

(** [validEncoded(s, encodePath)] on a string with no ['%']. *)
Definition validEncodedPath (s : string) : bool :=
  forallb (fun c => char_in c "!$&'()*+,;=:@[]" || negb (shouldEscapePath c))
          (list_ascii_of_string s).

(** A parsed URL: scheme, host, path and raw path. *)
Record URL := { u_Scheme : string; u_Host : string; u_Path : string; u_RawPath : string }.

Inductive URLResult :=
| UOk (u : URL)
| UErr (e : string)
| UOutside.   (* input outside the modelled subset *)

Definition is_ctl (c : ascii) : bool :=
  let n := nat_of_ascii c in Nat.ltb n 32 || (Nat.eqb n 127).

Definition is_letter (c : ascii) : bool :=
  let n := nat_of_ascii c in
  ((Nat.leb 97 n && Nat.leb n 122) || (Nat.leb 65 n && Nat.leb n 90))%bool.

(** [getScheme]: [Some (scheme, rest)], or [None] for the error
    "missing protocol scheme". *)
Fixpoint get_scheme_aux (first : bool) (acc s : string) : option (string * string) :=
  match s with
  | EmptyString => Some ("", rev_string acc)
  | String c s' =>
      if is_letter c then get_scheme_aux false (String c acc) s'
      else if is_alnum c || char_in c "+-." then
        if first then Some ("", rev_string acc +++ s) else get_scheme_aux false (String c acc) s'
      else if Ascii.eqb c ":"%char then
        if first then None else Some (rev_string acc, s')
      else Some ("", rev_string acc +++ s)
  end.

Definition getScheme (s : string) : option (string * string) := get_scheme_aux true "" s.

(** [strings.IndexByte] *)
Fixpoint index_byte (c : ascii) (s : string) : option nat :=
  match s with
  | EmptyString => None
  | String d s' => if Ascii.eqb c d then Some 0 else option_map S (index_byte c s')
  end.

(** [url.Parse] for URLs [scheme://host/path] without fragment, query,
    control bytes, user info, port, IPv6 literal or percent-escapes; other
    inputs are [UOutside]. The host check of [unescape] only looks at
    ASCII bytes. The scheme is ASCII, so [strings.ToLower] takes its ASCII
    path on it. *)
Definition url_Parse (raw : string) : URLResult :=
  if existsb (fun c => is_ctl c || char_in c "#?%") (list_ascii_of_string raw) then UOutside else
  match getScheme raw with
  | None => UErr "missing protocol scheme"
  | Some (scheme, rest) =>
      if String.eqb scheme "" then UOutside else
      if negb (HasPrefix rest "//") then UOutside else
      let r := substring 2 (String.length rest - 2) rest in
      let '(authority, path) :=
        match index_byte "/"%char r with
        | Some i => (substring 0 i r, substring i (String.length r - i) r)
        | None => (r, "")
        end in
      if existsb (fun c => char_in c "@:[") (list_ascii_of_string authority) then UOutside else
      if existsb (fun c => is_ascii_char c && shouldEscapeHost c) (list_ascii_of_string authority)
      then UErr "invalid character in host name" else
      let rawPath := if String.eqb (escapePath path) path then "" else path in
      UOk {| u_Scheme := lower_ascii scheme; u_Host := authority; u_Path := path;
             u_RawPath := rawPath |}
  end.

(** [URL.Hostname] (no port in the subset). *)
Definition Hostname (u : URL) : string := u_Host u.

(** [URL.EscapedPath] (no ['%'] in the subset, so unescaping is the
    identity). *)
Definition EscapedPath (u : URL) : string :=
  if negb (String.eqb (u_RawPath u) "") && validEncodedPath (u_RawPath u)
  then u_RawPath u
  else if String.eqb (u_Path u) "*" then "*"
  else escapePath (u_Path u).

(** [path.Clean]: drop empty and ["."] elements, resolve [".."] against
    the previous element (at the root it is dropped), ["."] when nothing
    is left. *)
Fixpoint clean_elems (rooted : bool) (stack : list string) (elems : list string) : list string :=
  match elems with
  | [] => stack
  | e :: es =>
      if String.eqb e "" || String.eqb e "." then clean_elems rooted stack es
      else if String.eqb e ".." then
        match stack with
        | x :: st => if String.eqb x ".." then clean_elems rooted (".." :: stack) es
                     else clean_elems rooted st es
        | [] => if rooted then clean_elems rooted [] es else clean_elems rooted [".."] es
        end
      else clean_elems rooted (e :: stack) es
  end.

Definition Clean (p : string) : string :=
  if String.eqb p "" then "." else
  let rooted := HasPrefix p "/" in
  let body := join "/" (rev (clean_elems rooted [] (split_on "/"%char p))) in
  if rooted then "/" +++ body
  else if String.eqb body "" then "." else body.






(* ------------------------------------------------------------------ *)
(** ** A scheduler for the avro worker

    One deterministic interleaving of the caller and the consumer
    goroutine, the appends succeeding; [None] when the chosen action is not
    enabled. *)

Inductive WorkerAction :=
| AInsert (r : Row)      (* the caller's Insert(row) *)
| ALoopStep              (* the loop receives a row and appends it *)
| AEndClose              (* End: close(tt.rows) *)
| ALoopExit              (* the loop sees the closed, empty channel *)
| AWriterClose.          (* End: wg.Wait() returned, tt.Writer.Close() *)

Definition exec_action (scan : string -> option (list (string * string)))
    (fields : list FieldSpec) (a : WorkerAction) (s : AvroTableState)
  : option AvroTableState :=
  if st_crashed s then None else
  match a with
  | AInsert r =>
      if st_chan_closed s then None
      else if Nat.ltb (length (st_rows s)) rows_capacity then
        Some {| st_rows := st_rows s ++ [r]; st_chan_closed := false;
                st_loop_done := st_loop_done s; st_crashed := false;
                st_inserted := st_inserted s ++ [r]; st_log := st_log s |}
      else None
  | ALoopStep =>
      match st_rows s with
      | r :: rows' =>
          match encode_row scan fields r with
          | Some rec =>
              Some {| st_rows := rows'; st_chan_closed := st_chan_closed s;
                      st_loop_done := st_loop_done s; st_crashed := false;
                      st_inserted := st_inserted s; st_log := st_log s ++ [EvAppend rec] |}
          | None => None
          end
      | [] => None
      end
  | AEndClose =>
      if st_chan_closed s then None
      else Some {| st_rows := st_rows s; st_chan_closed := true;
                   st_loop_done := st_loop_done s; st_crashed := false;
                   st_inserted := st_inserted s; st_log := st_log s |}
  | ALoopExit =>
      match st_rows s with
      | [] => if st_chan_closed s && negb (st_loop_done s) then
                Some {| st_rows := []; st_chan_closed := true;
                        st_loop_done := true; st_crashed := false;
                        st_inserted := st_inserted s; st_log := st_log s |}
              else None
      | _ => None
      end
  | AWriterClose =>
      if st_chan_closed s && st_loop_done s && negb (writer_closed s) then
        Some {| st_rows := st_rows s; st_chan_closed := true;
                st_loop_done := true; st_crashed := false;
                st_inserted := st_inserted s; st_log := st_log s ++ [EvWriterClose] |}
      else None
  end.

Fixpoint run_actions (scan : string -> option (list (string * string)))
    (fields : list FieldSpec) (acts : list WorkerAction) (s : AvroTableState)
  : option AvroTableState :=
  match acts with
  | [] => Some s
  | a :: acts' =>
      match exec_action scan fields a s with
      | Some s' => run_actions scan fields acts' s'
      | None => None
      end
  end.

(** Two rows inserted, the loop appending after both sends, then [End]. *)
Definition id_fields : list FieldSpec :=
  [ {| field_Name := "id"; field_Type := SimpleFieldType AvroTypeLong |} ].

Definition two_rows_run : AvroTableState :=
  match run_actions (fun _ => None) id_fields
          [AInsert [VInt KInt64 1%Z]; AInsert [VInt KInt64 2%Z]; ALoopStep; ALoopStep;
           AEndClose; ALoopExit; AWriterClose] avro_table_init with
  | Some s => s
  | None => avro_table_init
  end.

(* ------------------------------------------------------------------ *)
(** ** Concrete configurations used by the statements below *)

Definition spec_of (name : string) : TableSpec :=
  {| ts_Name := name; ts_Dataset := "imposm"; ts_GeometryType := "linestring";
     ts_Fields := [ {| bqfield_Name := "id"; bqfield_Type := simpleFieldType IntegerFieldType false |};
                    {| bqfield_Name := "geometry"; bqfield_Type := geometryType GeographyFieldType |} ] |}.

Definition gen_of (name source : string) : GenTable :=
  {| gt_Name := name; gt_SourceName := source; gt_Source := None;
     gt_SourceGeneralized := None; gt_Tolerance := "10.000000"; gt_Where := "";
     gt_created := false |}.

(** Base table [A]; [B] generalized from [A]; [C] from [B]. *)
Definition abc_bq : BQ :=
  {| bq_ImportSchema := "imposm"; bq_Tables := [("A", spec_of "A")];
     bq_GeneralizedTables := [("B", gen_of "B" "A"); ("C", gen_of "C" "B")];
     bq_updatedIDs := [] |}.

(** The chain A (base), B from A, C from B, D from C. *)
Definition abcd_bq : BQ :=
  {| bq_ImportSchema := "imposm"; bq_Tables := [("A", spec_of "A")];
     bq_GeneralizedTables := [("B", gen_of "B" "A"); ("C", gen_of "C" "B"); ("D", gen_of "D" "C")];
     bq_updatedIDs := [] |}.

(** A base table [roads], its generalization [roads_gen], and id 42
    tracked as changed for [roads_gen] by the insert path. *)
Definition roads_bq : BQ :=
  {| bq_ImportSchema := "imposm"; bq_Tables := [("roads", spec_of "roads")];
     bq_GeneralizedTables :=
       [("roads_gen", {| gt_Name := "roads_gen"; gt_SourceName := "roads";
                         gt_Source := Some "roads"; gt_SourceGeneralized := None;
                         gt_Tolerance := "10.000000"; gt_Where := "";
                         gt_created := true |})];
     bq_updatedIDs := [("roads_gen", [42%Z])] |}.

(** The router [Begin] opens for [roads_bq]: one worker per base table. *)
Definition roads_txr : TxRouter := {| txr_Tables := [("roads", spec_of "roads")] |}.

(** A warehouse whose every call succeeds. *)
Definition all_ok : string -> bool := fun _ => true.

Definition remote_ok : Remote :=
  {| begin_ok := all_ok; object_close_ok := all_ok; load_run_ok := all_ok;
     load_wait_ok := all_ok; load_status_ok := all_ok; update_ok := all_ok;
     delete_ok := all_ok; query_run_ok := all_ok; query_wait_ok := all_ok;
     query_status_ok := all_ok |}.

Definition cfg_example : BQConfig :=
  {| bq_TempGCSBucket := "staging-bucket"; bq_TempGCSPrefix := "imposm/" |}.

(** The remote calls a worker's [End] makes on the way to a materialized
    table all succeed for table [n]. *)
Definition load_sequence_ok (rm : Remote) (n : string) : bool :=
  object_close_ok rm n && load_run_ok rm n && load_wait_ok rm n && load_status_ok rm n
  && update_ok rm n && delete_ok rm n && query_run_ok rm n && query_wait_ok rm n
  && query_status_ok rm n.

(* ------------------------------------------------------------------ *)
(** ** The Avro schema of the bigquery worker (bigquery/spec.go) *)

(** [FieldType.Repeated] of the bigquery field types (part_009);
    [validatedGeometryType] promotes [geometryType.Repeated]. *)
Definition BQType_Repeated (t : BQType) : bool :=
  match t with
  | simpleFieldType _ r => r
  | geometryType _ | validatedGeometryType _ => false
  end.

(** The [AvroField] that [FieldSpec.AsAvroFieldSchema] builds, for a field
    without nested fields ([NewTableSpec] leaves [Fields] nil): its name,
    its [Type] union and its [Items] (union and name). *)
Record BQAvroField := {
  baf_Name : string;
  baf_Type : list AvroType;
  baf_Items : option (list AvroType * string)
}.

Definition bq_AsAvroFieldSchema (f : BQFieldSpec) : BQAvroField :=
  let n := AvroName (bqfield_Name f) in           (* f.BigQueryName() *)
  let t := BQType_AvroType (bqfield_Type f) in
  if BQType_Repeated (bqfield_Type f)
  then {| baf_Name := n; baf_Type := [AvroTypeNull; AvroTypeArray];
          baf_Items := Some ([AvroTypeNull; t], n) |}
  else {| baf_Name := n; baf_Type := [AvroTypeNull; t]; baf_Items := None |}.

(** [TableSpec.AsAvroSchema]: one field per column, in order. *)
Definition bq_AsAvroSchema (spec : TableSpec) : list BQAvroField :=
  map bq_AsAvroFieldSchema (ts_Fields spec).

(* ------------------------------------------------------------------ *)
(** ** [BigQuery.Delete] and [BigQuery.InsertLineString] (part_006) *)

(** [%d] of an [int64]. *)
Definition fmt_d (z : Z) : string := NilZero.string_of_int (Z.to_int z).

(** The Go runtime's message for a nil pointer dereference. *)
Definition nil_deref : string := "runtime error: invalid memory address or nil pointer dereference".

(** [generalizedFromMatches]: [bq.Tables[match.Table.Name].Generalizations]
    for each match, concatenated in order.  [gens] lists each base table
    with the names of its generalizations (as [prepareGeneralizations]
    fills them); a table missing from [bq.Tables] is a nil pointer and its
    [.Generalizations] panics ([None]). *)
Fixpoint generalizedFromMatches (gens : list (string * list string)) (matches : list string)
  : option (list string) :=
  match matches with
  | [] => Some []
  | m :: ms =>
      match assoc m gens with
      | None => None
      | Some gs => option_map (fun rest => gs ++ rest) (generalizedFromMatches gens ms)
      end
  end.

(** A [for ... range] loop of [BigQuery.Delete]: [txRouter.Delete] for each
    table; the first error is wrapped and returned, a panic propagates. *)
Fixpoint delete_each (txr : TxRouter) (id : Z) (tables : list string) : GoResult :=
  match tables with
  | [] => ROk
  | t :: ts =>
      match TxRouter_Delete txr t id with
      | ROk => delete_each txr id ts
      | RErr e => RErr ("deleting " +++ fmt_d id +++ " from " +++ dq +++ t +++ dq +++ ": " +++ e)
      | RPanic p => RPanic p
      end
  end.

(** [BigQuery.Delete(id, matches)], the matches given by their table
    names. *)
Definition BigQuery_Delete (txr : TxRouter) (gens : list (string * list string))
    (updateGeneralizedTables : bool) (id : Z) (matches : list string) : GoResult :=
  match delete_each txr id matches with
  | ROk =>
      if updateGeneralizedTables then
        match generalizedFromMatches gens matches with
        | Some gs => delete_each txr id gs
        | None => RPanic nil_deref
        end
      else ROk
  | r => r
  end.

(** [updatedIDs[k] = append(updatedIDs[k], id)] on the map as an
    association list (a missing key reads as nil). *)
Fixpoint ids_append (m : list (string * list Z)) (k : string) (id : Z) : list (string * list Z) :=
  match m with
  | [] => [(k, [id])]
  | (k', l) :: m' =>
      if String.eqb k k' then (k', l ++ [id]) :: m' else (k', l) :: ids_append m' k id
  end.

(** Reading [updatedIDs[k]]. *)
Definition ids_get (m : list (string * list Z)) (k : string) : list Z :=
  match assoc k m with Some l => l | None => [] end.

(** The [for _, match := range matches] loop sending each match's row to
    the router; the first error is returned. *)
Fixpoint insert_each (txr : TxRouter) (matches : list (string * Row)) : GoResult :=
  match matches with
  | [] => ROk
  | (t, row) :: ms =>
      match TxRouter_Insert txr t row with
      | ROk => insert_each txr ms
      | r => r
      end
  end.

(** [BigQuery.InsertLineString] and [BigQuery.InsertPolygon] (the same
    body), each match given by its table name and row: the rows go to the
    router, then, with generalized-table updates enabled, [elem.ID] is
    appended to [updatedIDs] once per generalized table of the matched
    tables.  Returns the result and the new [updatedIDs]. *)
Definition BigQuery_InsertLineString (txr : TxRouter) (gens : list (string * list string))
    (updateGeneralizedTables : bool) (updatedIDs : list (string * list Z)) (elemID : Z)
    (matches : list (string * Row)) : GoResult * list (string * list Z) :=
  match insert_each txr matches with
  | ROk =>
      if updateGeneralizedTables then
        match generalizedFromMatches gens (map fst matches) with
        | Some genMatches =>
            (ROk, fold_left (fun m g => ids_append m g elemID) genMatches updatedIDs)
        | None => (RPanic nil_deref, updatedIDs)
        end
      else (ROk, updatedIDs)
  | r => (r, updatedIDs)
  end.

(* ------------------------------------------------------------------ *)
(** ** Rotation over table contents (part_007)

    The catalog of the rotation model above records which tables exist;
    here each table also holds its data, so that what the copy jobs move
    can be followed.  A copy job ([WriteTruncate], [CreateIfNeeded])
    replaces the destination table's data by the source's; it fails, and
    changes nothing, when the source table or the destination dataset is
    absent ([createDatasetIfNotExists] creates nothing, as [datasetExists]
    answers true on "Not found"); [rotate] does not read the job status. *)

(** The answers of the warehouse where a call can fail for another reason
    than an absent dataset or table (network, permissions, quota):
    [None] is the answer of a working service. *)
Record Faults := {
  f_dataset_metadata : string -> option Err;                        (* [ds.Metadata] *)
  f_dataset_create : string -> option Err;                          (* [ds.Create] *)
  f_table_metadata : string -> string -> option Err;                (* [table.Metadata] *)
  f_copy_run : CopyOp -> string -> string -> string -> option Err;  (* [copier.Run] *)
  f_copy_wait : CopyOp -> string -> string -> string -> option Err; (* [job.Wait] *)
  f_delete : string -> string -> option Err                         (* [table.Delete] *)
}.

Section Store.

Context {C : Type}.

(** Datasets, each with its tables and their data. *)
Definition Store := list (string * list (string * C)).

Definition store_get (s : Store) (ds t : string) : option C :=
  match assoc ds s with Some ts => assoc t ts | None => None end.

Fixpoint put_table (ts : list (string * C)) (t : string) (x : C) : list (string * C) :=
  match ts with
  | [] => [(t, x)]
  | (t', y) :: ts' => if String.eqb t t' then (t', x) :: ts' else (t', y) :: put_table ts' t x
  end.

Fixpoint store_put (s : Store) (ds t : string) (x : C) : Store :=
  match s with
  | [] => []
  | (d, ts) :: s' =>
      if String.eqb ds d then (d, put_table ts t x) :: s' else (d, ts) :: store_put s' ds t x
  end.

(** [table.Delete]: the table is gone ("Not found" is not an error). *)
Fixpoint store_delete (s : Store) (ds t : string) : Store :=
  match s with
  | [] => []
  | (d, ts) :: s' =>
      if String.eqb ds d
      then (d, filter (fun '(t', _) => negb (String.eqb t t')) ts) :: s'
      else (d, ts) :: store_delete s' ds t
  end.

(** The existence view of a store, as [table.Metadata] sees it. *)
Definition store_catalog (s : Store) : Catalog := map (fun '(d, ts) => (d, map fst ts)) s.

Definition store_copy_job (s : Store) (srcds dstds t : string) : Store :=
  match store_get s srcds t with
  | Some x => match assoc dstds s with Some _ => store_put s dstds t x | None => s end
  | None => s
  end.

(** [errors.Wrapf(err, msg)]: nil for a nil [err]. *)
Definition wrapf (err : option Err) (msg : string) : option Err :=
  match err with Some e => Some (msg +++ ": " +++ e) | None => None end.

(** The project of [bq.Client]. *)
Variable project : string.

(** [Table.FullyQualifiedName]: [project:dataset.table]. *)
Definition FullyQualifiedName (ds t : string) : string := project +++ ":" +++ ds +++ "." +++ t.

(** [ds.Metadata]: the oracle's error, else "Not found" for an absent
    dataset. *)
Definition dataset_metadata (F : Faults) (s : Store) (ds : string) : option Err :=
  match f_dataset_metadata F ds with
  | Some e => Some e
  | None =>
      match assoc ds s with
      | Some _ => None
      | None => Some ("googleapi: Error 404: Not found: Dataset " +++ project +++ ":" +++ ds +++ ", notFound")
      end
  end.

(** [BigQuery.datasetExists] (part_006). *)
Definition datasetExists (F : Faults) (s : Store) (ds : string) : bool * option Err :=
  match dataset_metadata F s ds with
  | Some err =>
      if negb (contains err "Not found")
      then (false, wrapf (Some err) ("checking if dataset " +++ ds +++ " exists"))
      else (true, None)
  | None => (true, None)
  end.

(** [BigQuery.createDatasetIfNotExists] (part_006); [ds.Create] adds an
    empty dataset. *)
Definition createDatasetIfNotExists (F : Faults) (s : Store) (ds : string) : Store * option Err :=
  let '(ok, err) := datasetExists F s ds in
  match err with
  | Some _ => (s, wrapf err ("creating BigQuery dataset " +++ ds))
  | None =>
      if ok then (s, None)
      else
        match f_dataset_create F ds with
        | Some e => (s, wrapf (Some e) ("creating BigQuery dataset " +++ ds))
        | None => (s ++ [(ds, [])], None)
        end
  end.

(** [table.Metadata]: the oracle's error, else "Not found" for an absent
    table. *)
Definition table_metadata_s (F : Faults) (s : Store) (ds t : string) : option Err :=
  match f_table_metadata F ds t with
  | Some e => Some e
  | None =>
      match store_get s ds t with
      | Some _ => None
      | None => Some ("googleapi: Error 404: Not found: Table " +++ FullyQualifiedName ds t +++ ", notFound")
      end
  end.

(** [BigQuery.tableExists] (part_006). *)
Definition tableExists_s (F : Faults) (s : Store) (ds t : string) : bool * option Err :=
  match table_metadata_s F s ds t with
  | Some err =>
      if negb (contains err "Not found")
      then (false, wrapf (Some err) ("checking if table " +++ FullyQualifiedName ds t +++ " exists"))
      else (true, None)
  | None => (true, None)
  end.

(** A copy job: [copier.Run], then [job.Wait].  A job that [Run] rejects
    does nothing; a submitted job runs ([store_copy_job]) whatever [Wait]
    then reports. *)
Definition copy_run_wait (F : Faults) (op : CopyOp) (s : Store) (srcds dstds t : string)
  : Store * option Err :=
  match f_copy_run F op srcds dstds t with
  | Some e => (s, Some e)
  | None => (store_copy_job s srcds dstds t, f_copy_wait F op srcds dstds t)
  end.

(** The loop of [rotate(source, dest, backup)] over [bq.tableNames()]: the
    effects so far, the store and the returned error. *)
Fixpoint rotate_store_tables (F : Faults) (source dest backup : string) (names : list string)
    (s : Store) (eff : list RotEffect) : list RotEffect * Store * option Err :=
  match names with
  | [] => (eff, s, None)
  | tableName :: rest =>
      let '(sourceExists, e1) := tableExists_s F s source tableName in
      match e1 with Some e => (eff, s, Some e) | None =>
      let '(destExists, e2) := tableExists_s F s dest tableName in
      match e2 with Some e => (eff, s, Some e) | None =>
      if negb sourceExists then
        rotate_store_tables F source dest backup rest s
          (eff ++ [RWarn ("skipping rotate of " +++ tableName +++ ", table does not exists in " +++ source)])
      else
        let '(s1, eff1, e3) :=
          if destExists then
            let '(s1, e3) := copy_run_wait F SnapshotOperation s dest backup tableName in
            (s1, eff ++ [RCopyJob SnapshotOperation dest backup tableName], e3)
          else (s, eff, None) in
        match e3 with Some e => (eff1, s1, Some e) | None =>
        let '(s2, e4) := copy_run_wait F CopyOperation s1 source dest tableName in
        let eff2 := eff1 ++ [RCopyJob CopyOperation source dest tableName] in
        match e4 with Some e => (eff2, s2, Some e) | None =>
        rotate_store_tables F source dest backup rest s2 eff2
        end end
      end end
  end.

(** [rotate(source, dest, backup)]. *)
Definition rotate_store (F : Faults) (source dest backup : string) (names : list string) (s : Store)
  : list RotEffect * Store * option Err :=
  let '(s, e) := createDatasetIfNotExists F s dest in
  match e with Some e => ([], s, Some e) | None =>
  let '(s, e) := createDatasetIfNotExists F s backup in
  match e with Some e => ([], s, Some e) | None =>
  rotate_store_tables F source dest backup names s []
  end end.

(** [Deploy] and [RevertDeploy] with [Config.ImportSchema],
    [ProductionSchema] and [BackupSchema]. *)
Definition Deploy (F : Faults) (importSchema productionSchema backupSchema : string)
    (names : list string) (s : Store) : list RotEffect * Store * option Err :=
  rotate_store F importSchema productionSchema backupSchema names s.

Definition RevertDeploy (F : Faults) (importSchema productionSchema backupSchema : string)
    (names : list string) (s : Store) : list RotEffect * Store * option Err :=
  rotate_store F backupSchema productionSchema importSchema names s.

(** [BigQuery.deleteTable] (part_006): [table.Delete] (the oracle's error,
    else "Not found" for an absent table), and its error unless it says
    "Not found". *)
Definition deleteTable (F : Faults) (s : Store) (ds t : string) : Store * option Err :=
  let '(s', err) :=
    match f_delete F ds t with
    | Some e => (s, Some e)
    | None =>
        match store_get s ds t with
        | Some _ => (store_delete s ds t, None)
        | None => (s, Some ("googleapi: Error 404: Not found: Table " +++ FullyQualifiedName ds t +++ ", notFound"))
        end
    end in
  match err with
  | Some e =>
      if negb (contains e "Not found")
      then (s', wrapf err ("deleting table " +++ FullyQualifiedName ds t))
      else (s', None)
  | None => (s', None)
  end.

(** [RemoveBackup]: [deleteTable] of every table in the backup dataset,
    returning the first error. *)
Fixpoint RemoveBackup (F : Faults) (backupSchema : string) (names : list string) (s : Store)
  : Store * option Err :=
  match names with
  | [] => (s, None)
  | tableName :: rest =>
      let '(s', err) := deleteTable F s backupSchema tableName in
      match err with
      | Some e => (s', Some e)
      | None => RemoveBackup F backupSchema rest s'
      end
  end.

End Store.

(* ------------------------------------------------------------------ *)
(** ** [parseGCSURI] (gcs/gcs.go) *)

Inductive GCSURIResult :=
| GOk (gcsBucket gcsPrefix : string)
| GFatal (msg : string)   (* log.Fatal / log.Fatalf: the process exits *)
| GOutside.               (* input outside the modelled subset of [url.Parse] *)

(** [%q] is rendered as the string between double quotes (exact for
    strings without quote, backslash or control characters). *)
Definition parseGCSURI (connStr : string) : GCSURIResult :=
  if String.eqb connStr "" then GFatal "connection string not specified" else
  if negb (is_ascii connStr) then GOutside else
  match url_Parse connStr with
  | UOutside => GOutside
  | UErr e => GFatal ("Failed to parse GCS URI " +++ dq +++ connStr +++ dq +++ ": " +++ e)
  | UOk u =>
      if negb (String.eqb (u_Scheme u) "gs")
      then GFatal (dq +++ connStr +++ dq +++ " is not a GCS URI in the format " +++ dq +++ "gs://..." +++ dq)
      else GOk (Hostname u) (TrimLeft (Clean (EscapedPath u)) "/"%char +++ "/")
  end.

(* ------------------------------------------------------------------ *)
(** ** The records on the avro worker's writer *)

Fixpoint appended (log : list WriterEvent) : list AvroRecord :=
  match log with
  | [] => []
  | EvAppend r :: log' => r :: appended log'
  | EvWriterClose :: log' => appended log'
  end.

(** [abc_bq] once its sources are resolved: [B] and [C] read from [A],
    [C] is built from the generalized table [B]. *)
Definition abc_prepared : BQ :=
  {| bq_ImportSchema := "imposm"; bq_Tables := [("A", spec_of "A")];
     bq_GeneralizedTables :=
       [("B", set_Source (gen_of "B" "A") (Some "A"));
        ("C", set_SourceGeneralized (set_Source (gen_of "C" "B") (Some "A")) (Some "B"))];
     bq_updatedIDs := [] |}.

(** Two generalized tables built from each other, next to a base table. *)
Definition cycle_bq : BQ :=
  {| bq_ImportSchema := "imposm"; bq_Tables := [("roads", spec_of "roads")];
     bq_GeneralizedTables :=
       [("roads_gen", gen_of "roads_gen" "roads"); ("a", gen_of "a" "b"); ("b", gen_of "b" "a")];
     bq_updatedIDs := [] |}.

(** A set [cyc] of generalized tables each without a [Source] and
    generalized from a table of [cyc]. *)
Definition cycle_inv (cyc : list string) (bq : BQ) : Prop :=
  forall n, In n cyc ->
    exists t, gen bq n = Some t /\ gt_Source t = None /\ In (gt_SourceName t) cyc.

(** Three datasets holding a table [roads]: the fresh import, the live
    production table and an older backup. *)
Definition deploy_store : @Store string :=
  [("import", [("roads", "roads imported today")]);
   ("production", [("roads", "roads imported yesterday")]);
   ("backup", [("roads", "roads imported last week")])].

(** A warehouse where no call fails. *)
Definition no_faults : Faults :=
  {| f_dataset_metadata := fun _ => None; f_dataset_create := fun _ => None;
     f_table_metadata := fun _ _ => None; f_copy_run := fun _ _ _ _ => None;
     f_copy_wait := fun _ _ _ _ => None; f_delete := fun _ _ => None |}.

(** A warehouse that refuses to delete the backup of [roads]. *)
Definition delete_denied : Faults :=
  {| f_dataset_metadata := fun _ => None; f_dataset_create := fun _ => None;
     f_table_metadata := fun _ _ => None; f_copy_run := fun _ _ _ _ => None;
     f_copy_wait := fun _ _ _ _ => None;
     f_delete := fun ds t => if String.eqb ds "backup" && String.eqb t "roads"
                             then Some "googleapi: Error 403: Access Denied" else None |}.

(** No call made by [rotate] fails. *)
Definition faultless (F : Faults) : Prop :=
  (forall ds, f_dataset_metadata F ds = None) /\ (forall ds t, f_table_metadata F ds t = None) /\
  (forall op a b t, f_copy_run F op a b t = None) /\ (forall op a b t, f_copy_wait F op a b t = None).

(** [table.Delete] fails with an error that [deleteTable] returns. *)
Definition delete_fails (F : Faults) (ds t : string) : bool :=
  match f_delete F ds t with Some e => negb (contains e "Not found") | None => false end.

(** A warehouse whose load job runs but ends in failure. *)
Definition remote_load_fails : Remote :=
  {| begin_ok := fun _ => true; object_close_ok := fun _ => true; load_run_ok := fun _ => true;
     load_wait_ok := fun _ => true; load_status_ok := fun _ => false; update_ok := fun _ => true;
     delete_ok := fun _ => true; query_run_ok := fun _ => true; query_wait_ok := fun _ => true;
     query_status_ok := fun _ => true |}.

(* ================================================================== *)
(** * Properties *)

(** ** Row encoding of nil *)

Definition tags_field : FieldSpec := {| field_Name := "tags"; field_Type := TagsType |}.

(** C6 (counterexample): for a tags field, the gcs and avro encoders do not
    produce [{"null": nil}] for a nil cell: [value.(string)] panics. *)
Lemma encode_nil_tags_not_null :
  encodeFieldAvro (fun _ => None) ValueAsType tags_field VNil = None /\
  encodeFieldAvroDB (fun _ => None) tags_field VNil = None /\
  encodeFieldAvro (fun _ => None) ValueAsType tags_field VNil <> Some wire_null.
Proof. split; [reflexivity | split; [reflexivity | discriminate]]. Qed.

(** C6: encoding a nil cell gives the null-tagged wire value [{"null": nil}]
    for every non-tags field type (scalar, geometry, validated geometry) in
    the gcs and avro encoders, whatever the hstore parser and the gcs
    conversion; for a tags field both encoders panic on a nil cell (the
    type assertion [value.(string)] fails), so they never give
    [{"null": nil}] there.  The bigquery worker's encoding gives
    [{"null": nil}] for every field type, the tags column included. *)
Theorem encode_nil_null_tagged :
  forall (scan : string -> option (list (string * string)))
         (conv : AvroType -> Value -> option Value) (f : FieldSpec) (bf : BQFieldSpec),
    (field_Type f <> TagsType ->
     encodeFieldAvro scan conv f VNil = Some wire_null /\
     encodeFieldAvroDB scan f VNil = Some wire_null) /\
    (field_Type f = TagsType ->
     encodeFieldAvro scan conv f VNil = None /\
     encodeFieldAvroDB scan f VNil = None) /\
    bq_encode_cell bf VNil = wire_null.
Proof.
  intros scan conv [n t] bf; simpl.
  unfold encodeFieldAvro, encodeFieldAvroDB; simpl.
  split; [|split; [|reflexivity]].
  - intros Hne; destruct t; try (exfalso; apply Hne; reflexivity); split; reflexivity.
  - intros ->; split; reflexivity.
Qed.

Lemma encode_nil_null_tagged_witness :
  (encodeFieldAvro (fun _ => None) ValueAsType
     {| field_Name := "geometry"; field_Type := GeometryType AvroTypeBytes |} VNil = Some wire_null /\
   encodeFieldAvroDB (fun _ => None)
     {| field_Name := "geometry"; field_Type := GeometryType AvroTypeBytes |} VNil = Some wire_null) /\
  (encodeFieldAvro (fun _ => None) ValueAsType tags_field VNil = None /\
   encodeFieldAvroDB (fun _ => None) tags_field VNil = None).
Proof.
  split.
  - apply (proj1 (encode_nil_null_tagged (fun _ => None) ValueAsType
                    {| field_Name := "geometry"; field_Type := GeometryType AvroTypeBytes |}
                    {| bqfield_Name := "tags"; bqfield_Type := bq_tags_type |})).
    simpl; discriminate.
  - apply (proj1 (proj2 (encode_nil_null_tagged (fun _ => None) ValueAsType tags_field
                           {| bqfield_Name := "tags"; bqfield_Type := bq_tags_type |}))).
    reflexivity.
Defined.

(** ** Router [End] *)

(** The avro and gcs routers: every worker is ended and the last error is
    returned. *)
Lemma avro_TxRouter_End_spec {W} (tt_End : W -> option Err) (tables : list W) :
  avro_TxRouter_End tt_End tables = (tables, last_error (map tt_End tables)).
Proof.
  unfold avro_TxRouter_End.
  assert (H : forall called out,
             fold_left (fun acc imp =>
                          let '(called, outErr) := acc in
                          (called ++ [imp],
                           match tt_End imp with Some err => Some err | None => outErr end))
                       tables (called, out)
             = (called ++ tables,
                match last_error (map tt_End tables) with Some x => Some x | None => out end)).
  { induction tables as [|t ts IH]; intros called out; simpl.
    - rewrite app_nil_r; reflexivity.
    - rewrite IH, <- app_assoc; simpl.
      destruct (last_error (map tt_End ts)); [reflexivity|].
      destruct (tt_End t); reflexivity. }
  rewrite H; simpl. destruct (last_error (map tt_End tables)); reflexivity.
Qed.

(** The bigquery router ends every worker and returns nil. *)
Lemma bq_TxRouter_End_spec {W} (tt_End : W -> option Err) (tables : list W) :
  bq_TxRouter_End tt_End tables = (tables, None).
Proof.
  unfold bq_TxRouter_End; f_equal.
  assert (H : forall called,
             fold_left (fun called imp => let _ := tt_End imp in called ++ [imp]) tables called
             = called ++ tables).
  { induction tables as [|t ts IH]; intros called; simpl.
    - symmetry; apply app_nil_r.
    - rewrite IH, <- app_assoc; reflexivity. }
  apply H.
Qed.

(** C3: with one worker whose [End] fails, the bigquery router's [End]
    ends it and returns nil, while the avro/gcs routers return the error. *)
Theorem bq_router_end_drops_error :
  bq_TxRouter_End (fun _ : string => Some "BigQuery import failed") ["roads"]
    = (["roads"], None) /\
  avro_TxRouter_End (fun _ : string => Some "BigQuery import failed") ["roads"]
    = (["roads"], Some "BigQuery import failed").
Proof. split; reflexivity. Qed.

(** ** [Delete] *)

(** C4 (counterexample): a router opened in non-bulk mode ([Begin], bulk
    flag false) still panics on [Delete]. *)
Lemma delete_panics_in_non_bulk_mode :
  newTxRouter remote_ok [("roads", spec_of "roads")] false = Some roads_txr /\
  TxRouter_Delete roads_txr "roads" 1%Z = RPanic "unable to delete in bulkImport mode".
Proof. split; reflexivity. Qed.

(** C4: the bulk flag does not change the router [newTxRouter] builds, and
    [Delete] routed to any worker panics with "unable to delete in
    bulkImport mode". *)
Theorem delete_always_panics :
  forall (rm : Remote) (tables : list (string * TableSpec)) (txr : TxRouter)
         (name : string) (id : Z),
    newTxRouter rm tables true = newTxRouter rm tables false /\
    (assoc name (txr_Tables txr) <> None ->
     TxRouter_Delete txr name id = RPanic "unable to delete in bulkImport mode").
Proof.
  intros rm tables txr name id; split.
  - unfold newTxRouter; f_equal.
    induction tables as [|[n s] rest IH]; simpl; [reflexivity|].
    rewrite IH; reflexivity.
  - unfold TxRouter_Delete; intros H.
    destruct (assoc name (txr_Tables txr)); [reflexivity | contradiction].
Qed.

Lemma delete_always_panics_witness :
  (newTxRouter remote_ok [("roads", spec_of "roads")] true
   = newTxRouter remote_ok [("roads", spec_of "roads")] false /\
   (assoc "roads" (txr_Tables roads_txr) <> None ->
    TxRouter_Delete roads_txr "roads" 7%Z = RPanic "unable to delete in bulkImport mode"))
  /\ TxRouter_Delete roads_txr "roads" 7%Z = RPanic "unable to delete in bulkImport mode".
Proof.
  pose proof (delete_always_panics remote_ok [("roads", spec_of "roads")] roads_txr "roads" 7%Z) as H.
  split; [exact H|].
  destruct H as [_ H]; apply H; simpl; discriminate.
Defined.

(** ** [Abort] *)

(** Picks the element of a concrete list an [In] goal is about. *)
Ltac in_concrete_list := simpl; repeat (first [left; reflexivity | right]).

(** A worker whose remote calls succeed starts the load job, deletes the
    target table and runs the materialize query in its [End]. *)
Lemma tableImport_End_load_sequence (cfg : BQConfig) (rm : Remote) (spec : TableSpec) :
  load_sequence_ok rm (ts_Name spec) = true ->
  let n := ts_Name spec in
  let ds := ts_Dataset spec in
  In (ELoadJob ds (n +++ "_tmp") (gcs_uri cfg spec)) (fst (tableImport_End cfg rm spec)) /\
  In (EDeleteTable ds n) (fst (tableImport_End cfg rm spec)) /\
  In (ERunQuery (copy_query ds n ds (n +++ "_tmp"))) (fst (tableImport_End cfg rm spec)).
Proof.
  unfold load_sequence_ok; intros H.
  repeat rewrite andb_true_iff in H.
  destruct H as [[[[[[[[H1 H2] H3] H4] H5] H6] H7] H8] H9].
  unfold tableImport_End.
  rewrite H1, H2, H3, H4, H5, H6, H7, H8, H9; simpl.
  destruct (delete_ok rm (ts_Name spec +++ "_tmp")); simpl;
    repeat rewrite in_app_iff; simpl; intuition.
Qed.

(** C5 (counterexample): [Abort] on a router with one table, against a
    warehouse whose calls succeed, starts the load job, deletes the target
    table and runs the [CREATE OR REPLACE] materialize query. *)
Lemma abort_runs_load_job :
  In (ELoadJob "imposm" "roads_tmp" "gs://staging-bucket/imposm/roads.avro")
     (fst (TxRouter_Abort cfg_example remote_ok roads_txr)) /\
  In (EDeleteTable "imposm" "roads") (fst (TxRouter_Abort cfg_example remote_ok roads_txr)) /\
  In (ERunQuery (copy_query "imposm" "roads" "imposm" "roads_tmp"))
     (fst (TxRouter_Abort cfg_example remote_ok roads_txr)).
Proof. split; [|split]; in_concrete_list. Qed.

(** C5: [Abort] does exactly what [End] does to every worker (drain,
    close, and the whole bulk-load sequence) and returns nil; for each
    table whose remote calls succeed it starts the load job, deletes the
    target table and runs the materialize query. *)
Theorem abort_is_end :
  forall (cfg : BQConfig) (rm : Remote) (txr : TxRouter),
    TxRouter_Abort cfg rm txr = TxRouter_End cfg rm txr /\
    snd (TxRouter_Abort cfg rm txr) = None /\
    (forall name spec, In (name, spec) (txr_Tables txr) ->
       load_sequence_ok rm (ts_Name spec) = true ->
       let n := ts_Name spec in
       let ds := ts_Dataset spec in
       In (ELoadJob ds (n +++ "_tmp") (gcs_uri cfg spec)) (fst (TxRouter_Abort cfg rm txr)) /\
       In (EDeleteTable ds n) (fst (TxRouter_Abort cfg rm txr)) /\
       In (ERunQuery (copy_query ds n ds (n +++ "_tmp"))) (fst (TxRouter_Abort cfg rm txr))).
Proof.
  intros cfg rm txr; split; [reflexivity | split; [reflexivity|]].
  intros name spec Hin Hok; simpl.
  destruct (tableImport_End_load_sequence cfg rm spec Hok) as [H1 [H2 H3]].
  unfold TxRouter_Abort; simpl.
  repeat split; apply in_flat_map; exists (name, spec); split; assumption.
Qed.

Lemma abort_is_end_witness :
  TxRouter_Abort cfg_example remote_ok roads_txr = TxRouter_End cfg_example remote_ok roads_txr /\
  In (ELoadJob "imposm" ("roads" +++ "_tmp") (gcs_uri cfg_example (spec_of "roads")))
     (fst (TxRouter_Abort cfg_example remote_ok roads_txr)).
Proof.
  destruct (abort_is_end cfg_example remote_ok roads_txr) as [Heq [_ H]].
  split; [exact Heq|].
  apply (H "roads" (spec_of "roads")); [left; reflexivity | reflexivity].
Defined.

(** ** Incremental update of generalized tables *)

(** C1: with id 42 tracked for [roads_gen], [GeneralizeUpdates] issues no
    statement: it sends the one-column row [42] to the router opened by
    [Begin], which holds only the base tables, so the insert fails with
    "Insert into unknown table roads_gen", the error is discarded and nil
    is returned. *)
Theorem generalize_updates_no_insert_select :
  newTxRouter remote_ok (bq_Tables roads_bq) false = Some roads_txr /\
  GeneralizeUpdates 3 (fun _ => ["roads_gen"]) roads_bq roads_txr =
    Some ([{| ic_table := "roads_gen"; ic_row := [VInt KInt64 42%Z];
              ic_result := RErr "Insert into unknown table roads_gen" |}], None).
Proof. split; reflexivity. Qed.

(** ** Building generalized tables *)

(** C2: for the chain A (base), B from A, C from B, D from C, after
    [prepareGeneralizedTableSources], [Generalize] with the second loop
    visiting D before C builds B and C only: two statements, D left
    uncreated, and nil returned. *)
Theorem generalize_chain_leaves_table_unbuilt :
  match prepareGeneralizedTableSources 5 ["B"; "C"; "D"] (fun _ => ["B"; "C"; "D"]) abcd_bq with
  | Some (inr bq) =>
      match Generalize all_ok ["B"; "C"; "D"] ["D"; "C"; "B"] bq with
      | GenOk qs bq' =>
          length qs = 2 /\
          option_map gt_created (gen bq' "B") = Some true /\
          option_map gt_created (gen bq' "C") = Some true /\
          option_map gt_created (gen bq' "D") = Some false
      | _ => False
      end
  | _ => False
  end.
Proof. vm_compute; repeat split. Qed.

(** ** Dataset rotation *)

(** [tableExists] never reports a table as absent: a "Not found" answer
    is reported as present. *)
Lemma tableExists_never_absent (c : Catalog) (ds table : string) :
  snd (tableExists c ds table) = None -> fst (tableExists c ds table) = true.
Proof.
  unfold tableExists.
  destruct (table_metadata c ds table) as [err|]; [|reflexivity].
  destruct (negb (contains err "Not found")); simpl; [discriminate | reflexivity].
Qed.

(** C7: rotating staging -> production -> backup when staging lacks
    [roads] and production holds it: no warning and no skip; a snapshot
    of production into backup is taken and a copy of staging into
    production is issued (its job fails on the missing source, which
    [rotate] does not see), and nil is returned. *)
Theorem rotate_missing_source_not_skipped :
  rotate "staging" "production" "backup" ["roads"]
         [("staging", []); ("production", ["roads"]); ("backup", [])]
  = ([RCopyJob SnapshotOperation "production" "backup" "roads";
      RCopyJob CopyOperation "staging" "production" "roads"],
     [("staging", []); ("production", ["roads"]); ("backup", ["roads"])],
     None)
  /\ tableExists [("staging", [])] "staging" "roads" = (true, None).
Proof. split; reflexivity. Qed.

(** ** Resolving generalized-table sources *)

(** C9: for base table A, B generalized from A and C from B, in every
    iteration order of the map in each of its loops,
    [prepareGeneralizedTableSources] leaves its loop after two iterations
    and sets B.Source = A, C.Source = A and C.SourceGeneralized = B. *)
Theorem prepare_abc_sources :
  forall (order1 : list string) (orders : nat -> list string),
    Permutation ["B"; "C"] order1 ->
    (forall k, Permutation ["B"; "C"] (orders k)) ->
    exists bq,
      prepareGeneralizedTableSources 2 order1 orders abc_bq = Some (inr bq) /\
      option_map gt_Source (gen bq "B") = Some (Some "A") /\
      option_map gt_Source (gen bq "C") = Some (Some "A") /\
      option_map gt_SourceGeneralized (gen bq "C") = Some (Some "B").
Proof.
  intros order1 orders H1 Hk.
  destruct (Permutation_length_2_inv H1) as [E|E]; subst order1;
  destruct (Permutation_length_2_inv (Hk 0)) as [E0|E0];
  destruct (Permutation_length_2_inv (Hk 1)) as [E1|E1];
  unfold prepareGeneralizedTableSources; simpl; rewrite E0; simpl; rewrite E1; simpl;
  eexists; (split; [reflexivity | repeat split]).
Qed.

Lemma prepare_abc_sources_witness :
  exists bq,
    prepareGeneralizedTableSources 2 ["C"; "B"] (fun k => if Nat.even k then ["C"; "B"] else ["B"; "C"])
      abc_bq = Some (inr bq) /\
    option_map gt_Source (gen bq "B") = Some (Some "A") /\
    option_map gt_Source (gen bq "C") = Some (Some "A") /\
    option_map gt_SourceGeneralized (gen bq "C") = Some (Some "B").
Proof.
  apply prepare_abc_sources.
  - apply perm_swap.
  - intros k; destruct (Nat.even k); [apply perm_swap | apply Permutation_refl].
Defined.

(** ** The avro table import worker *)

Section AvroTableProofs.

Variable scan : string -> option (list (string * string)).
Variable fields : list FieldSpec.

Definition avro_inv (s : AvroTableState) : Prop :=
  exists (done_rows : list Row) (recs : list AvroRecord) (w : bool),
    st_inserted s = done_rows ++ st_rows s /\
    Forall2 (fun r rec => encode_row scan fields r = Some rec) done_rows recs /\
    st_log s = map EvAppend recs ++ (if w then [EvWriterClose] else []) /\
    (w = true -> st_loop_done s = true) /\
    (st_loop_done s = true -> st_chan_closed s = true /\ st_rows s = []).

Lemma writer_closed_log (recs : list AvroRecord) (w : bool) (s : AvroTableState) :
  st_log s = map EvAppend recs ++ (if w then [EvWriterClose] else []) ->
  writer_closed s = w.
Proof.
  unfold writer_closed; intros ->.
  rewrite existsb_app.
  assert (H : existsb (fun e => match e with EvWriterClose => true | _ => false end)
                      (map EvAppend recs) = false)
    by (induction recs; simpl; auto).
  rewrite H; destruct w; reflexivity.
Qed.

Lemma avro_inv_init : avro_inv avro_table_init.
Proof.
  exists [], [], false; simpl; repeat split; auto; discriminate.
Qed.

Lemma avro_inv_step (s s' : AvroTableState) :
  avro_inv s -> avro_step scan fields s s' -> avro_inv s'.
Proof.
  intros (dn & recs & w & Hins & Hf & Hlog & Hw & Hd) Hstep.
  inversion Hstep; subst; clear Hstep.
  - (* insert *)
    assert (Hld : st_loop_done s = false)
      by (destruct (st_loop_done s) eqn:E; [destruct (Hd eq_refl); congruence | reflexivity]).
    exists dn, recs, w; cbn; refine (conj _ (conj Hf (conj Hlog (conj _ _)))).
    + rewrite Hins, app_assoc; reflexivity.
    + intros Hw'; rewrite (Hw Hw') in Hld; discriminate.
    + intros Hl; congruence.
  - (* insert on a closed channel: panic *)
    exists dn, recs, w; cbn; tauto.
  - (* loop appends *)
    assert (Hld : st_loop_done s = false)
      by (destruct (st_loop_done s) eqn:E; [destruct (Hd eq_refl); congruence | reflexivity]).
    assert (Hw0 : w = false) by (destruct w; [rewrite (Hw eq_refl) in Hld; discriminate | reflexivity]).
    subst w.
    exists (dn ++ [r]), (recs ++ [rec]), false; cbn.
    refine (conj _ (conj _ (conj _ (conj _ _)))).
    + rewrite Hins, H0, <- app_assoc; reflexivity.
    + apply Forall2_app; auto.
    + rewrite Hlog, map_app; simpl; rewrite ?app_nil_r; reflexivity.
    + discriminate.
    + intros Hl; congruence.
  - (* encoding panics *)
    exists dn, recs, w; cbn; tauto.
  - (* append fails: log.Fatalf *)
    exists dn, recs, w; cbn; tauto.
  - (* loop exits *)
    assert (Hw0 : w = false)
      by (destruct w; [rewrite (Hw eq_refl) in *; congruence | reflexivity]).
    subst w.
    exists dn, recs, false; cbn.
    refine (conj _ (conj Hf (conj Hlog (conj _ _)))).
    + rewrite Hins, H0; reflexivity.
    + discriminate.
    + intros _; split; reflexivity.
  - (* End closes the channel *)
    exists dn, recs, w; cbn.
    refine (conj Hins (conj Hf (conj Hlog (conj Hw _)))).
    intros Hl; split; [reflexivity | apply (Hd Hl)].
  - (* End closes the writer *)
    pose proof (writer_closed_log recs w s Hlog) as Hwc.
    rewrite Hwc in H2; subst w.
    exists dn, recs, true; cbn.
    refine (conj Hins (conj Hf (conj _ (conj _ _)))).
    + rewrite Hlog; simpl; rewrite ?app_nil_r; reflexivity.
    + intros _; reflexivity.
    + intros _; split; [reflexivity | apply (Hd H1)].
Qed.

Lemma avro_inv_reachable (s : AvroTableState) :
  avro_reachable scan fields s -> avro_inv s.
Proof.
  induction 1; [apply avro_inv_init | eapply avro_inv_step; eauto].
Qed.

Lemma exec_action_step (a : WorkerAction) (s s' : AvroTableState) :
  exec_action scan fields a s = Some s' -> avro_step scan fields s s'.
Proof.
  unfold exec_action.
  destruct (st_crashed s) eqn:Hc; [discriminate|].
  destruct a as [r| | | |].
  - destruct (st_chan_closed s) eqn:Hcl; [discriminate|].
    destruct (Nat.ltb (length (st_rows s)) rows_capacity) eqn:Hlt; [|discriminate].
    intros H; injection H as <-; apply step_insert; auto.
    apply Nat.ltb_lt; assumption.
  - destruct (st_rows s) as [|r rows'] eqn:Hr; [discriminate|].
    destruct (encode_row scan fields r) eqn:He; [|discriminate].
    intros H; injection H as <-; eapply step_loop_append; eauto.
  - destruct (st_chan_closed s) eqn:Hcl; [discriminate|].
    intros H; injection H as <-; apply step_end_close; auto.
  - destruct (st_rows s) eqn:Hr; [|discriminate].
    destruct (st_chan_closed s) eqn:Hcl; [|discriminate].
    destruct (st_loop_done s) eqn:Hld; [discriminate|].
    intros H; injection H as <-; apply step_loop_exit; auto.
  - destruct (st_chan_closed s) eqn:Hcl; [|discriminate].
    destruct (st_loop_done s) eqn:Hld; [|discriminate].
    destruct (writer_closed s) eqn:Hwc; [discriminate|].
    intros H; injection H as <-; apply step_end_writer_close; auto.
Qed.

Lemma run_actions_reachable (acts : list WorkerAction) (s s' : AvroTableState) :
  avro_reachable scan fields s ->
  run_actions scan fields acts s = Some s' -> avro_reachable scan fields s'.
Proof.
  revert s; induction acts as [|a acts IH]; simpl; intros s Hs H.
  - injection H as <-; assumption.
  - destruct (exec_action scan fields a s) as [s1|] eqn:E; [|discriminate].
    apply (IH s1); [eapply reach_step; [exact Hs | exact (exec_action_step a s s1 E)] | exact H].
Qed.

End AvroTableProofs.

(** C8: in every run of the avro table worker (any interleaving of the
    caller's inserts with the consumer goroutine), once [End] has closed
    the writer, the writer has received exactly one append per inserted
    row, the records of the rows in insertion order, and then the close. *)
Theorem avro_end_appends_in_order :
  forall (scan : string -> option (list (string * string))) (fields : list FieldSpec)
         (s : AvroTableState),
    avro_reachable scan fields s ->
    writer_closed s = true ->
    exists recs,
      Forall2 (fun r rec => encode_row scan fields r = Some rec) (st_inserted s) recs /\
      length recs = length (st_inserted s) /\
      st_log s = map EvAppend recs ++ [EvWriterClose].
Proof.
  intros scan fields s Hr Hwc.
  destruct (avro_inv_reachable scan fields s Hr) as (dn & recs & w & Hins & Hf & Hlog & Hw & Hd).
  rewrite (writer_closed_log recs w s Hlog) in Hwc; subst w.
  destruct (Hd (Hw eq_refl)) as [_ Hrows].
  rewrite Hrows, app_nil_r in Hins.
  exists recs; rewrite Hins.
  refine (conj Hf (conj _ _)).
  - symmetry; exact (Forall2_length Hf).
  - simpl in Hlog; exact Hlog.
Qed.

Lemma avro_end_appends_in_order_witness :
  exists recs,
    Forall2 (fun r rec => encode_row (fun _ => None) id_fields r = Some rec)
            (st_inserted two_rows_run) recs /\
    length recs = length (st_inserted two_rows_run) /\
    st_log two_rows_run = map EvAppend recs ++ [EvWriterClose].
Proof.
  apply (avro_end_appends_in_order (fun _ => None) id_fields two_rows_run).
  - apply (run_actions_reachable (fun _ => None) id_fields
             [AInsert [VInt KInt64 1%Z]; AInsert [VInt KInt64 2%Z]; ALoopStep; ALoopStep;
              AEndClose; ALoopExit; AWriterClose] avro_table_init).
    + apply reach_init.
    + vm_compute; reflexivity.
  - vm_compute; reflexivity.
Defined.

(** ** Parsing the connection string

    UTF-8 facts: [EncodeRune] and [DecodeRuneInString] are inverse on
    valid runes; [strings.ToLower] yields, and leaves as it is, the
    encoding of runes that [unicode.ToLower] maps to themselves; the
    splitting, trimming and scanning steps keep such encodings. *)

Ltac zl := Z.div_mod_to_equations; lia.

Section UTF8Proofs.
Local Open Scope Z_scope.

Lemma byte_range (c : ascii) : 0 <= byte c < 256.
Proof. unfold byte; pose proof (nat_ascii_bounded c); lia. Qed.

Lemma byte_chr (z : Z) : 0 <= z < 256 -> byte (chr z) = z.
Proof.
  intros H; unfold byte, chr; rewrite nat_ascii_embedding by lia; lia.
Qed.

Lemma chr_byte (c : ascii) : chr (byte c) = c.
Proof. unfold byte, chr; rewrite Nat2Z.id; apply ascii_nat_embedding. Qed.

Lemma to_byte_mod (z : Z) : to_byte z = z mod 256.
Proof. unfold to_byte; change 255 with (Z.ones 8); rewrite Z.land_ones by lia; reflexivity. Qed.

Lemma lor_add (a y n : Z) : 0 <= n -> a mod 2 ^ n = 0 -> 0 <= y < 2 ^ n -> Z.lor a y = a + y.
Proof.
  intros Hn Ha Hy.
  assert (H0 : Z.land a y = 0).
  { apply Z.bits_inj'; intros i Hi; rewrite Z.land_spec, Z.bits_0.
    destruct (Z.lt_ge_cases i n) as [Hlt|Hge].
    - assert (Ea : a = (a / 2 ^ n) * 2 ^ n) by (pose proof (Z.div_mod a (2 ^ n)); lia).
      rewrite Ea, <- Z.shiftl_mul_pow2 by lia; rewrite Z.shiftl_spec_low by lia; reflexivity.
    - apply andb_false_iff; right.
      apply Z.testbit_false; [lia|].
      rewrite Z.div_small; [reflexivity|].
      split; [lia|].
      apply Z.lt_le_trans with (2 ^ n); [lia | apply Z.pow_le_mono_r; lia]. }
  rewrite <- Z.lxor_lor by exact H0; rewrite Z.add_nocarry_lxor by exact H0; reflexivity.
Qed.

Lemma lor_add_64 (a y : Z) : a mod 64 = 0 -> 0 <= y < 64 -> Z.lor a y = a + y.
Proof. intros; apply (lor_add a y 6); cbn; lia. Qed.
Lemma lor_add_4096 (a y : Z) : a mod 4096 = 0 -> 0 <= y < 4096 -> Z.lor a y = a + y.
Proof. intros; apply (lor_add a y 12); cbn; lia. Qed.
Lemma lor_add_262144 (a y : Z) : a mod 262144 = 0 -> 0 <= y < 262144 -> Z.lor a y = a + y.
Proof. intros; apply (lor_add a y 18); cbn; lia. Qed.
Lemma lor_add_32 (a y : Z) : a mod 32 = 0 -> 0 <= y < 32 -> Z.lor a y = a + y.
Proof. intros; apply (lor_add a y 5); cbn; lia. Qed.
Lemma lor_add_16 (a y : Z) : a mod 16 = 0 -> 0 <= y < 16 -> Z.lor a y = a + y.
Proof. intros; apply (lor_add a y 4); cbn; lia. Qed.
Lemma lor_add_8 (a y : Z) : a mod 8 = 0 -> 0 <= y < 8 -> Z.lor a y = a + y.
Proof. intros; apply (lor_add a y 3); cbn; lia. Qed.

Lemma land_ones_mod (y k : Z) : 0 <= k -> Z.land y (Z.ones k) = y mod 2 ^ k.
Proof. intros; apply Z.land_ones; lia. Qed.

Lemma land_maskx (y : Z) : Z.land y maskx = y mod 64.
Proof. change maskx with (Z.ones 6); apply Z.land_ones; lia. Qed.
Lemma land_mask2 (y : Z) : Z.land y mask2 = y mod 32.
Proof. change mask2 with (Z.ones 5); apply Z.land_ones; lia. Qed.
Lemma land_mask3 (y : Z) : Z.land y mask3 = y mod 16.
Proof. change mask3 with (Z.ones 4); apply Z.land_ones; lia. Qed.
Lemma land_mask4 (y : Z) : Z.land y mask4 = y mod 8.
Proof. change mask4 with (Z.ones 3); apply Z.land_ones; lia. Qed.

Lemma shl (y k : Z) : 0 <= k -> Z.shiftl y k = y * 2 ^ k.
Proof. apply Z.shiftl_mul_pow2. Qed.
Lemma shr (y k : Z) : 0 <= k -> Z.shiftr y k = y / 2 ^ k.
Proof. apply Z.shiftr_div_pow2. Qed.

Lemma uint32_id (r : Z) : 0 <= r < 2 ^ 32 -> Z.land r (Z.ones 32) = r.
Proof. intros H; rewrite Z.land_ones by lia; apply Z.mod_small; exact H. Qed.

Lemma shl6 (y : Z) : Z.shiftl y 6 = y * 64. Proof. rewrite shl by lia; reflexivity. Qed.
Lemma shl12 (y : Z) : Z.shiftl y 12 = y * 4096. Proof. rewrite shl by lia; reflexivity. Qed.
Lemma shl18 (y : Z) : Z.shiftl y 18 = y * 262144. Proof. rewrite shl by lia; reflexivity. Qed.
Lemma shr6 (y : Z) : Z.shiftr y 6 = y / 64. Proof. rewrite shr by lia; reflexivity. Qed.
Lemma shr12 (y : Z) : Z.shiftr y 12 = y / 4096. Proof. rewrite shr by lia; reflexivity. Qed.
Lemma shr18 (y : Z) : Z.shiftr y 18 = y / 262144. Proof. rewrite shr by lia; reflexivity. Qed.

Lemma lor2 (A C : Z) : 0 <= C < 64 -> Z.lor (A * 64) C = A * 64 + C.
Proof. intros; apply lor_add_64; [apply Z.mod_mul; lia | lia]. Qed.

Lemma lor3 (A B C : Z) : 0 <= B < 64 -> 0 <= C < 64 ->
  Z.lor (Z.lor (A * 4096) (B * 64)) C = A * 4096 + B * 64 + C.
Proof.
  intros; rewrite (lor_add_4096 (A * 4096) (B * 64)) by (try apply Z.mod_mul; lia).
  apply lor_add_64; [|lia].
  replace (A * 4096 + B * 64) with ((A * 64 + B) * 64) by ring; apply Z.mod_mul; lia.
Qed.

Lemma lor4 (A B C D : Z) : 0 <= B < 64 -> 0 <= C < 64 -> 0 <= D < 64 ->
  Z.lor (Z.lor (Z.lor (A * 262144) (B * 4096)) (C * 64)) D = A * 262144 + B * 4096 + C * 64 + D.
Proof.
  intros; rewrite (lor_add_262144 (A * 262144) (B * 4096)) by (try apply Z.mod_mul; lia).
  rewrite (lor_add_4096 (A * 262144 + B * 4096) (C * 64)); [|replace (A * 262144 + B * 4096) with ((A * 64 + B) * 4096) by ring;
                          apply Z.mod_mul; lia | lia].
  apply lor_add_64; [|lia].
  replace (A * 262144 + B * 4096 + C * 64) with ((A * 4096 + B * 64 + C) * 64) by ring;
    apply Z.mod_mul; lia.
Qed.

Lemma lor_tx (y : Z) : 0 <= y < 64 -> Z.lor tx y = 128 + y.
Proof. intros; apply lor_add_64; [reflexivity | lia]. Qed.
Lemma lor_t2 (y : Z) : 0 <= y < 32 -> Z.lor t2 y = 192 + y.
Proof. intros; apply lor_add_32; [reflexivity | lia]. Qed.
Lemma lor_t3 (y : Z) : 0 <= y < 16 -> Z.lor t3 y = 224 + y.
Proof. intros; apply lor_add_16; [reflexivity | lia]. Qed.
Lemma lor_t4 (y : Z) : 0 <= y < 8 -> Z.lor t4 y = 240 + y.
Proof. intros; apply lor_add_8; [reflexivity | lia]. Qed.

(** Split on the first comparison of integers left in the goal. *)
Ltac zcase :=
  match goal with
  | |- context [(?x <=? ?y)%Z] => destruct (Z.leb_spec x y)
  | |- context [(?x <? ?y)%Z] => destruct (Z.ltb_spec x y)
  | |- context [(?x =? ?y)%Z] => destruct (Z.eqb_spec x y)
  end.

Ltac zsplit :=
  unfold locb, hicb, rune1Max, rune2Max, rune3Max, MaxRune, surrogateMin, surrogateMax, RuneSelf in *;
  repeat (zcase; cbn [orb andb negb]; try lia).

Ltac bits :=
  rewrite ?to_byte_mod, ?land_maskx, ?land_mask2, ?land_mask3, ?land_mask4,
          ?shr6, ?shr12, ?shr18, ?shl6, ?shl12, ?shl18.

Ltac str_eq :=
  repeat (first [reflexivity | apply (f_equal2 String); [apply (f_equal chr); zl|]]).

Lemma EncodeRune_1 (r : Z) : 0 <= r <= 127 -> EncodeRune r = String (chr r) EmptyString.
Proof.
  intros H; unfold EncodeRune; rewrite uint32_id by lia; cbv zeta.
  unfold rune1Max; zsplit; bits; str_eq.
Qed.

Lemma EncodeRune_2 (r : Z) : 128 <= r <= 2047 ->
  EncodeRune r = String (chr (192 + r / 64)) (String (chr (128 + r mod 64)) EmptyString).
Proof.
  intros H; unfold EncodeRune; rewrite uint32_id by lia; cbv zeta.
  unfold rune1Max, rune2Max; zsplit; bits;
  rewrite lor_t2, lor_tx by zl; str_eq.
Qed.

Lemma EncodeRune_3 (r : Z) : 2048 <= r <= 65535 -> ~ (surrogateMin <= r <= surrogateMax) ->
  EncodeRune r = String (chr (224 + r / 4096))
                   (String (chr (128 + (r / 64) mod 64)) (String (chr (128 + r mod 64)) EmptyString)).
Proof.
  unfold surrogateMin, surrogateMax; intros H Hs; unfold EncodeRune; rewrite uint32_id by lia; cbv zeta.
  unfold rune1Max, rune2Max, rune3Max, MaxRune, surrogateMin, surrogateMax; zsplit; bits;
  rewrite lor_t3, !lor_tx by zl; str_eq.
Qed.

Lemma EncodeRune_4 (r : Z) : 65536 <= r <= MaxRune ->
  EncodeRune r = String (chr (240 + r / 262144))
                   (String (chr (128 + (r / 4096) mod 64))
                      (String (chr (128 + (r / 64) mod 64)) (String (chr (128 + r mod 64)) EmptyString))).
Proof.
  unfold MaxRune; intros H; unfold EncodeRune; rewrite uint32_id by lia; cbv zeta.
  unfold rune1Max, rune2Max, rune3Max, MaxRune, surrogateMin, surrogateMax; zsplit; bits;
  rewrite lor_t4, !lor_tx by zl; str_eq.
Qed.

Lemma first_1 (b : Z) : 0 <= b < 0x80 -> first b = as_.
Proof. intros; unfold first; zsplit. Qed.
Lemma first_xx (b : Z) : (0x80 <= b < 0xC2) \/ 0xF5 <= b -> first b = xx.
Proof. intros; unfold first; zsplit. Qed.
Lemma first_2 (b : Z) : 0xC2 <= b <= 0xDF -> first b = 0x02.
Proof. intros; unfold first; zsplit. Qed.
Lemma first_3 (b : Z) : (0xE1 <= b <= 0xEC) \/ (0xEE <= b <= 0xEF) -> first b = 0x03.
Proof. intros; unfold first; zsplit. Qed.
Lemma first_6 (b : Z) : 0xF1 <= b <= 0xF3 -> first b = 0x04.
Proof. intros; unfold first; zsplit. Qed.

Lemma mask_as : Z.shiftr (wrap32 (Z.shiftl as_ 31)) 31 = 0.
Proof. reflexivity. Qed.
Lemma mask_xx : Z.shiftr (wrap32 (Z.shiftl xx 31)) 31 = -1.
Proof. reflexivity. Qed.

Lemma decode_1 (b0 : Z) (u : string) : 0 <= b0 < 0x80 ->
  DecodeRuneInString (String (chr b0) u) = (b0, 1%nat).
Proof.
  intros H; unfold DecodeRuneInString; cbn [String.length byte_at String.get Nat.ltb Nat.leb].
  rewrite byte_chr, first_1, mask_as by lia; cbn -[Z.lor Z.ldiff Z.land].
  rewrite Z.ldiff_0_r, Z.land_0_r, Z.lor_0_r; reflexivity.
Qed.

Lemma decode_2 (b0 b1 : Z) (u : string) :
  0xC2 <= b0 <= 0xDF -> 0x80 <= b1 <= 0xBF ->
  DecodeRuneInString (String (chr b0) (String (chr b1) u)) = ((b0 - 192) * 64 + (b1 - 128), 2%nat).
Proof.
  intros H0 H1; unfold DecodeRuneInString; cbn [String.length byte_at String.get].
  rewrite !byte_chr, first_2 by lia; bits; simpl.
  zsplit; rewrite lor2 by zl; f_equal; zl.
Qed.

Lemma decode_3 (b0 b1 b2 : Z) (u : string) :
  0xE0 <= b0 <= 0xEF -> 0x80 <= b1 <= 0xBF ->
  (b0 = 0xE0 -> 0xA0 <= b1) -> (b0 = 0xED -> b1 <= 0x9F) -> 0x80 <= b2 <= 0xBF ->
  DecodeRuneInString (String (chr b0) (String (chr b1) (String (chr b2) u)))
    = ((b0 - 224) * 4096 + (b1 - 128) * 64 + (b2 - 128), 3%nat).
Proof.
  intros H0 H1 HE0 HED H2; unfold DecodeRuneInString; cbn [String.length byte_at String.get].
  rewrite !byte_chr by lia.
  assert (Hf : (first b0 = 0x13 /\ b0 = 0xE0) \/ (first b0 = 0x03 /\ b0 <> 0xE0 /\ b0 <> 0xED)
               \/ (first b0 = 0x23 /\ b0 = 0xED)).
  { destruct (Z.eqb_spec b0 0xE0) as [->|N0]; [left; split; reflexivity|].
    destruct (Z.eqb_spec b0 0xED) as [->|N1]; [right; right; split; reflexivity|].
    right; left; split; [apply first_3; lia | split; assumption]. }
  destruct Hf as [[-> E]|[[-> E]|[-> E]]]; bits; simpl;
    zsplit; rewrite lor3 by zl; f_equal; zl.
Qed.

Lemma decode_4 (b0 b1 b2 b3 : Z) (u : string) :
  0xF0 <= b0 <= 0xF4 -> 0x80 <= b1 <= 0xBF ->
  (b0 = 0xF0 -> 0x90 <= b1) -> (b0 = 0xF4 -> b1 <= 0x8F) ->
  0x80 <= b2 <= 0xBF -> 0x80 <= b3 <= 0xBF ->
  DecodeRuneInString (String (chr b0) (String (chr b1) (String (chr b2) (String (chr b3) u))))
    = ((b0 - 240) * 262144 + (b1 - 128) * 4096 + (b2 - 128) * 64 + (b3 - 128), 4%nat).
Proof.
  intros H0 H1 HF0 HF4 H2 H3; unfold DecodeRuneInString; cbn [String.length byte_at String.get].
  rewrite !byte_chr by lia.
  assert (Hf : (first b0 = 0x34 /\ b0 = 0xF0) \/ (first b0 = 0x04 /\ b0 <> 0xF0 /\ b0 <> 0xF4)
               \/ (first b0 = 0x44 /\ b0 = 0xF4)).
  { destruct (Z.eqb_spec b0 0xF0) as [->|N0]; [left; split; reflexivity|].
    destruct (Z.eqb_spec b0 0xF4) as [->|N1]; [right; right; split; reflexivity|].
    right; left; split; [apply first_6; lia | split; assumption]. }
  destruct Hf as [[-> E]|[[-> E]|[-> E]]]; bits; simpl;
    zsplit; rewrite lor4 by zl; f_equal; zl.
Qed.

Lemma ValidRune_spec (r : Z) : ValidRune r = true <-> (0 <= r < 0xD800 \/ 0xDFFF < r <= 0x10FFFF).
Proof.
  unfold ValidRune, surrogateMin, surrogateMax, MaxRune.
  rewrite orb_true_iff, !andb_true_iff, !Z.leb_le, !Z.ltb_lt; split; intros; lia.
Qed.

Lemma decode_EncodeRune (r : Z) (u : string) : ValidRune r = true ->
  DecodeRuneInString (EncodeRune r +++ u) = (r, String.length (EncodeRune r)).
Proof.
  rewrite ValidRune_spec; intros H.
  destruct (Z.le_gt_cases r 127) as [H1|H1].
  { rewrite EncodeRune_1 by lia; cbn [String.append String.length]; rewrite decode_1 by lia; reflexivity. }
  destruct (Z.le_gt_cases r 2047) as [H2|H2].
  { rewrite EncodeRune_2 by lia; cbn [String.append String.length]; rewrite decode_2 by zl; f_equal; zl. }
  destruct (Z.le_gt_cases r 65535) as [H3|H3].
  { rewrite EncodeRune_3 by (unfold surrogateMin, surrogateMax; lia); cbn [String.append String.length].
    rewrite decode_3 by zl; f_equal; zl. }
  rewrite EncodeRune_4 by (unfold MaxRune; lia); cbn [String.append String.length].
  rewrite decode_4 by zl; f_equal; zl.
Qed.

Lemma ldiff_m1 (a : Z) : Z.ldiff a (-1) = 0.
Proof.
  apply Z.bits_inj'; intros i Hi; rewrite Z.ldiff_spec, Z.bits_m1, Z.bits_0 by lia; apply andb_false_r.
Qed.

Lemma decode_xx (b0 : Z) (u : string) : (0x80 <= b0 < 0xC2 \/ 0xF5 <= b0 < 256) ->
  DecodeRuneInString (String (chr b0) u) = (RuneError, 1%nat).
Proof.
  intros H; unfold DecodeRuneInString; cbn [String.length byte_at String.get Nat.ltb Nat.leb].
  rewrite byte_chr by lia; cbv zeta; rewrite first_xx by lia; rewrite mask_xx.
  change (as_ <=? xx) with true; cbv beta iota.
  rewrite ldiff_m1, Z.land_m1_r, Z.lor_0_l; reflexivity.
Qed.

Ltac dec_fail Ef :=
  left; unfold DecodeRuneInString; cbn [String.length byte_at String.get];
  rewrite ?byte_chr by lia; cbv zeta; rewrite Ef; bits; simpl; zsplit; reflexivity.

Lemma decode_2_cases (b0 : Z) (u : string) : 0xC2 <= b0 <= 0xDF ->
  DecodeRuneInString (String (chr b0) u) = (RuneError, 1%nat) \/
  exists b1 u', u = String (chr b1) u' /\ 0x80 <= b1 <= 0xBF.
Proof.
  intros H0; assert (Ef : first b0 = 0x02) by (apply first_2; lia).
  destruct u as [|c1 u]; [dec_fail Ef|].
  pose proof (byte_range c1) as R1.
  destruct (Z.le_gt_cases 0x80 (byte c1)) as [L1|L1]; [|dec_fail Ef].
  destruct (Z.le_gt_cases (byte c1) 0xBF) as [L2|L2]; [|dec_fail Ef].
  right; exists (byte c1), u; rewrite chr_byte; split; [reflexivity | lia].
Qed.

Ltac cont_byte Ef c lo hi :=
  destruct (Z.le_gt_cases lo (byte c)); [|dec_fail Ef];
  destruct (Z.le_gt_cases (byte c) hi); [|dec_fail Ef].

Lemma decode_3_cases (b0 : Z) (u : string) : 0xE0 <= b0 <= 0xEF ->
  DecodeRuneInString (String (chr b0) u) = (RuneError, 1%nat) \/
  exists b1 b2 u', u = String (chr b1) (String (chr b2) u') /\
    0x80 <= b1 <= 0xBF /\ (b0 = 0xE0 -> 0xA0 <= b1) /\ (b0 = 0xED -> b1 <= 0x9F) /\
    0x80 <= b2 <= 0xBF.
Proof.
  intros H0.
  assert (Hf : (first b0 = 0x13 /\ b0 = 0xE0) \/ (first b0 = 0x03 /\ b0 <> 0xE0 /\ b0 <> 0xED)
               \/ (first b0 = 0x23 /\ b0 = 0xED)).
  { destruct (Z.eqb_spec b0 0xE0) as [->|N0]; [left; split; reflexivity|].
    destruct (Z.eqb_spec b0 0xED) as [->|N1]; [right; right; split; reflexivity|].
    right; left; split; [apply first_3; lia | split; assumption]. }
  destruct Hf as [[Ef E]|[[Ef E]|[Ef E]]];
  (destruct u as [|c1 u]; [dec_fail Ef|]);
  (destruct u as [|c2 u]; [dec_fail Ef|]);
  pose proof (byte_range c1); pose proof (byte_range c2).
  - cont_byte Ef c1 0xA0 0xBF; cont_byte Ef c2 0x80 0xBF.
    right; exists (byte c1), (byte c2), u; rewrite !chr_byte; split; [reflexivity | lia].
  - cont_byte Ef c1 0x80 0xBF; cont_byte Ef c2 0x80 0xBF.
    right; exists (byte c1), (byte c2), u; rewrite !chr_byte; split; [reflexivity | lia].
  - cont_byte Ef c1 0x80 0x9F; cont_byte Ef c2 0x80 0xBF.
    right; exists (byte c1), (byte c2), u; rewrite !chr_byte; split; [reflexivity | lia].
Qed.

Lemma decode_4_cases (b0 : Z) (u : string) : 0xF0 <= b0 <= 0xF4 ->
  DecodeRuneInString (String (chr b0) u) = (RuneError, 1%nat) \/
  exists b1 b2 b3 u', u = String (chr b1) (String (chr b2) (String (chr b3) u')) /\
    0x80 <= b1 <= 0xBF /\ (b0 = 0xF0 -> 0x90 <= b1) /\ (b0 = 0xF4 -> b1 <= 0x8F) /\
    0x80 <= b2 <= 0xBF /\ 0x80 <= b3 <= 0xBF.
Proof.
  intros H0.
  assert (Hf : (first b0 = 0x34 /\ b0 = 0xF0) \/ (first b0 = 0x04 /\ b0 <> 0xF0 /\ b0 <> 0xF4)
               \/ (first b0 = 0x44 /\ b0 = 0xF4)).
  { destruct (Z.eqb_spec b0 0xF0) as [->|N0]; [left; split; reflexivity|].
    destruct (Z.eqb_spec b0 0xF4) as [->|N1]; [right; right; split; reflexivity|].
    right; left; split; [apply first_6; lia | split; assumption]. }
  destruct Hf as [[Ef E]|[[Ef E]|[Ef E]]];
  (destruct u as [|c1 u]; [dec_fail Ef|]);
  (destruct u as [|c2 u]; [dec_fail Ef|]);
  (destruct u as [|c3 u]; [dec_fail Ef|]);
  pose proof (byte_range c1); pose proof (byte_range c2); pose proof (byte_range c3).
  - cont_byte Ef c1 0x90 0xBF; cont_byte Ef c2 0x80 0xBF; cont_byte Ef c3 0x80 0xBF.
    right; exists (byte c1), (byte c2), (byte c3), u; rewrite !chr_byte; split; [reflexivity | lia].
  - cont_byte Ef c1 0x80 0xBF; cont_byte Ef c2 0x80 0xBF; cont_byte Ef c3 0x80 0xBF.
    right; exists (byte c1), (byte c2), (byte c3), u; rewrite !chr_byte; split; [reflexivity | lia].
  - cont_byte Ef c1 0x80 0x8F; cont_byte Ef c2 0x80 0xBF; cont_byte Ef c3 0x80 0xBF.
    right; exists (byte c1), (byte c2), (byte c3), u; rewrite !chr_byte; split; [reflexivity | lia].
Qed.

Lemma decode_inv (t : string) (c : Z) (w : nat) :
  t <> EmptyString -> DecodeRuneInString t = (c, w) -> ~ (c = RuneError /\ w = 1%nat) ->
  ValidRune c = true /\ w = String.length (EncodeRune c) /\ t = EncodeRune c +++ drop w t.
Proof.
  intros Hne Hd Herr.
  destruct t as [|c0 t]; [congruence|]; clear Hne.
  rewrite <- (chr_byte c0) in Hd |- *.
  pose proof (byte_range c0) as R0.
  set (b0 := byte c0) in *; clearbody b0; clear c0.
  assert (Hbad : DecodeRuneInString (String (chr b0) t) <> (RuneError, 1%nat))
    by (rewrite Hd; intros E; injection E as -> ->; apply Herr; split; reflexivity).
  destruct (Z.lt_ge_cases b0 0x80) as [L|L].
  { rewrite decode_1 in Hd by lia; injection Hd as <- <-.
    rewrite EncodeRune_1 by lia; split; [rewrite ValidRune_spec; lia | split; reflexivity]. }
  destruct (Z.lt_ge_cases b0 0xC2) as [L2|L2].
  { exfalso; apply Hbad, decode_xx; lia. }
  destruct (Z.le_gt_cases b0 0xDF) as [L3|L3].
  { destruct (decode_2_cases b0 t ltac:(lia)) as [E|(b1 & u & -> & R1)]; [contradiction|].
    rewrite decode_2 in Hd by lia; injection Hd as <- <-.
    rewrite EncodeRune_2 by zl; split; [rewrite ValidRune_spec; zl | split; [reflexivity|]].
    cbn [String.append drop]; str_eq. }
  destruct (Z.le_gt_cases b0 0xEF) as [L4|L4].
  { destruct (decode_3_cases b0 t ltac:(lia)) as [E|(b1 & b2 & u & -> & R1 & R1a & R1b & R2)];
      [contradiction|].
    rewrite decode_3 in Hd by lia; injection Hd as <- <-.
    rewrite EncodeRune_3 by (unfold surrogateMin, surrogateMax; zl).
    split; [rewrite ValidRune_spec; zl | split; [reflexivity|]].
    cbn [String.append drop]; str_eq. }
  destruct (Z.le_gt_cases b0 0xF4) as [L5|L5].
  { destruct (decode_4_cases b0 t ltac:(lia))
      as [E|(b1 & b2 & b3 & u & -> & R1 & R1a & R1b & R2 & R3)]; [contradiction|].
    rewrite decode_4 in Hd by lia; injection Hd as <- <-.
    rewrite EncodeRune_4 by (unfold MaxRune; zl).
    split; [rewrite ValidRune_spec; zl | split; [reflexivity|]].
    cbn [String.append drop]; str_eq. }
  exfalso; apply Hbad, decode_xx; lia.
Qed.

End UTF8Proofs.

Section StrLemmas.

Lemma slen_app (a b : string) : String.length (a +++ b) = String.length a + String.length b.
Proof. induction a; simpl; auto. Qed.

Lemma sapp_assoc (a b c : string) : (a +++ b) +++ c = a +++ (b +++ c).
Proof. induction a; simpl; congruence. Qed.

Lemma sapp_nil_r (a : string) : a +++ EmptyString = a.
Proof. induction a; simpl; congruence. Qed.

Lemma drop_app_plus (a b : string) (k : nat) : drop (String.length a + k) (a +++ b) = drop k b.
Proof. induction a; simpl; auto. Qed.

Lemma drop_app (a b : string) : drop (String.length a) (a +++ b) = b.
Proof. rewrite <- (Nat.add_0_r (String.length a)), drop_app_plus; reflexivity. Qed.

Lemma take_app_plus (a b : string) (k : nat) : take (String.length a + k) (a +++ b) = a +++ take k b.
Proof. induction a; simpl; congruence. Qed.

Lemma take_all (s : string) (n : nat) : String.length s <= n -> take n s = s.
Proof.
  revert n; induction s; intros [|n] H; simpl in *; try reflexivity; try lia.
  f_equal; apply IHs; lia.
Qed.

Lemma take_app (a b : string) : take (String.length a) (a +++ b) = a.
Proof. rewrite <- (Nat.add_0_r (String.length a)), take_app_plus, sapp_nil_r; reflexivity. Qed.

Lemma drop_length (n : nat) (s : string) : String.length (drop n s) = String.length s - n.
Proof. revert s; induction n; intros [|c s]; simpl; auto; lia. Qed.

Lemma drop_length_le (a : ascii) (s' : string) (fuel w : nat) :
  (String.length (String a s') <= S fuel)%nat -> (1 <= w <= String.length (String a s'))%nat ->
  (String.length (drop w (String a s')) <= fuel)%nat.
Proof. intros H1 H2; rewrite drop_length; cbn [String.length] in *; lia. Qed.





End StrLemmas.
Section EncLemmas.
Local Open Scope Z_scope.

Lemma enc_app (a b : list Z) : enc_runes (a ++ b) = enc_runes a +++ enc_runes b.
Proof. induction a; simpl; [reflexivity|]; rewrite IHa, sapp_assoc; reflexivity. Qed.

Lemma EncodeRune_len (r : Z) : (1 <= String.length (EncodeRune r) <= 4)%nat.
Proof.
  unfold EncodeRune; cbv zeta;
  repeat match goal with |- context [if ?b then _ else _] => destruct b end; simpl; lia.
Qed.


Lemma EncodeRune_ascii (r : Z) : 0 <= r < 128 -> EncodeRune r = String (chr r) EmptyString.
Proof. intros; apply EncodeRune_1; lia. Qed.

Lemma EncodeRune_high (r : Z) : ValidRune r = true -> 128 <= r ->
  exists b0 rest, EncodeRune r = String (chr b0) rest /\ 0xC2 <= b0 <= 0xF4 /\
    (1 <= String.length rest <= 3)%nat /\
    forall k, (k < String.length rest)%nat -> 0x80 <= byte_at rest k <= 0xBF.
Proof.
  rewrite ValidRune_spec; intros H H1.
  destruct (Z.le_gt_cases r 2047).
  { rewrite EncodeRune_2 by lia; eexists _, _; split; [reflexivity|]; split; [zl|];
    split; [simpl; lia|].
    intros k Hk; simpl in Hk; destruct k as [|k]; try lia;
    unfold byte_at; cbn [String.get]; rewrite byte_chr by zl; zl. }
  destruct (Z.le_gt_cases r 65535).
  { rewrite EncodeRune_3 by (unfold surrogateMin, surrogateMax; lia);
    eexists _, _; split; [reflexivity|]; split; [zl|]; split; [simpl; lia|].
    intros k Hk; simpl in Hk; destruct k as [|[|k]]; try lia;
    unfold byte_at; cbn [String.get]; rewrite byte_chr by zl; zl. }
  rewrite EncodeRune_4 by (unfold MaxRune; lia);
  eexists _, _; split; [reflexivity|]; split; [zl|]; split; [simpl; lia|].
  intros k Hk; simpl in Hk; destruct k as [|[|[|k]]]; try lia;
  unfold byte_at; cbn [String.get]; rewrite byte_chr by zl; zl.
Qed.

Lemma byte_at_In (s : string) (c : ascii) : In c (list_ascii_of_string s) ->
  exists k, (k < String.length s)%nat /\ byte_at s k = byte c.
Proof.
  induction s as [|d s IH]; simpl; [tauto|]; intros [<-|H].
  - exists 0%nat; split; [lia | reflexivity].
  - destruct (IH H) as (k & Hk & E); exists (S k); split; [lia | exact E].
Qed.

Lemma EncodeRune_high_chars (r : Z) : ValidRune r = true -> 128 <= r ->
  forall c, In c (list_ascii_of_string (EncodeRune r)) -> 128 <= byte c.
Proof.
  intros Hv H1 c Hc.
  destruct (EncodeRune_high r Hv H1) as (b0 & rest & E & Hb0 & Hl & Hk).
  rewrite E in Hc; simpl in Hc; destruct Hc as [<-|Hc]; [rewrite byte_chr; lia|].
  destruct (byte_at_In rest c Hc) as (k & Hlt & Ek).
  rewrite <- Ek; specialize (Hk k Hlt); lia.
Qed.







End EncLemmas.
Section DecodeLemmas.
Local Open Scope Z_scope.

Lemma decode_nonempty (t : string) (c : Z) (w : nat) :
  t <> EmptyString -> DecodeRuneInString t = (c, w) ->
  ValidRune c = true /\ (1 <= w <= String.length t)%nat.
Proof.
  intros Hne Hd.
  destruct (Z.eq_dec c RuneError) as [Ec|Nc];
  [destruct (Nat.eq_dec w 1) as [Ew|Nw]|].
  - subst; split; [reflexivity|]; destruct t; [congruence|]; simpl; lia.
  - destruct (decode_inv t c w Hne Hd ltac:(tauto)) as (Hv & Hw & Et).
    split; [exact Hv|]; pose proof (EncodeRune_len c).
    rewrite Et, slen_app; lia.
  - destruct (decode_inv t c w Hne Hd ltac:(tauto)) as (Hv & Hw & Et).
    split; [exact Hv|]; pose proof (EncodeRune_len c).
    rewrite Et, slen_app; lia.
Qed.





End DecodeLemmas.
Section MapLemmas.
Local Open Scope Z_scope.

Variable g : Z -> Z.
Hypothesis Hg : forall c, ValidRune c = true -> ValidRune (g c) = true /\ g (g c) = g c.

Lemma WriteRune_valid (r : Z) : ValidRune r = true ->
  (if r >=? 0 then if r <? RuneSelf then WriteByte (to_byte r) else WriteRune r else EmptyString)
  = EncodeRune r.
Proof.
  rewrite ValidRune_spec; intros H.
  replace (r >=? 0) with true by (symmetry; rewrite Z.geb_le; lia).
  unfold WriteRune, WriteByte, RuneSelf; destruct (Z.ltb_spec r 0x80).
  - rewrite EncodeRune_ascii, to_byte_mod, Z.mod_small by lia; reflexivity.
  - reflexivity.
Qed.

Lemma WriteRune_valid' (r : Z) : ValidRune r = true ->
  (if r >=? 0 then WriteRune r else EmptyString) = EncodeRune r.
Proof.
  intros Hv; rewrite <- (WriteRune_valid r Hv); pose proof Hv as H; rewrite ValidRune_spec in H.
  replace (r >=? 0) with true by (symmetry; rewrite Z.geb_le; lia).
  unfold WriteRune; destruct (r <? RuneSelf); reflexivity.
Qed.

Lemma encodes_cons (P : Z -> Prop) (r : Z) (t : string) :
  P r -> encodes P t -> encodes P (EncodeRune r +++ t).
Proof. intros Hr (rs & -> & Hf); exists (r :: rs); split; [reflexivity | constructor; auto]. Qed.

Lemma encodes_app (P : Z -> Prop) (a b : string) :
  encodes P a -> encodes P b -> encodes P (a +++ b).
Proof.
  intros (ra & -> & Ha) (rb & -> & Hb); exists (ra ++ rb)%list; split;
  [rewrite enc_app; reflexivity | apply Forall_app; auto].
Qed.

Lemma encodes_nil (P : Z -> Prop) : encodes P EmptyString.
Proof. exists []; split; [reflexivity | constructor]. Qed.

Lemma map_rest_good (fuel : nat) (s : string) :
  (String.length s <= fuel)%nat -> encodes (gfixed g) (map_rest g fuel s).
Proof.
  revert s; induction fuel as [|fuel IH]; intros s Hl; simpl.
  - apply encodes_nil.
  - destruct s as [|a s']; [apply encodes_nil|].
    destruct (DecodeRuneInString (String a s')) as [c w] eqn:Hd.
    destruct (decode_nonempty (String a s') c w ltac:(discriminate) Hd) as [Hv Hw].
    destruct (Hg c Hv) as [Hv' Hgg].
    rewrite WriteRune_valid by exact Hv'.
    apply encodes_cons; [split; auto|].
    apply IH; rewrite drop_length; cbn [String.length] in *; lia.
Qed.

Lemma map_first_none (fuel : nat) (pre s : string) :
  (String.length s <= fuel)%nat -> map_first g fuel pre s = None -> encodes (gfixed g) s.
Proof.
  revert pre s; induction fuel as [|fuel IH]; intros pre s Hl Hm.
  - destruct s; [apply encodes_nil | simpl in Hl; lia].
  - destruct s as [|a s']; [apply encodes_nil|].
    simpl in Hm; destruct (DecodeRuneInString (String a s')) as [c w] eqn:Hd.
    destruct (decode_nonempty (String a s') c w ltac:(discriminate) Hd) as [Hv Hw].
    destruct (Z.eqb_spec (g c) c) as [Egc|Ngc]; destruct (Z.eqb_spec c RuneError) as [Ec|Nc];
      cbn [andb negb] in Hm.
    +
      destruct (Nat.eqb_spec w 1) as [Ew|Nw]; cbn [andb negb] in Hm.
      * discriminate.
      * replace (g c =? c) with true in Hm by (symmetry; apply Z.eqb_eq; auto).
        destruct (decode_inv (String a s') c w ltac:(discriminate) Hd ltac:(tauto)) as (_ & Hw' & Et).
        rewrite Et; apply encodes_cons; [split; auto|].
        apply (IH _ _ (drop_length_le _ _ _ _ Hl Hw) Hm).
    + destruct (decode_inv (String a s') c w ltac:(discriminate) Hd ltac:(tauto)) as (_ & Hw' & Et).
      rewrite Et; apply encodes_cons; [split; auto|].
      apply (IH _ _ (drop_length_le _ _ _ _ Hl Hw) Hm).
    + destruct (Nat.eqb w 1); cbn [andb negb] in Hm;
        [discriminate|].
      replace (g c =? c) with false in Hm by (symmetry; apply Z.eqb_neq; auto).
      discriminate.
    + discriminate.
Qed.

Lemma encodes_one (P : Z -> Prop) (r : Z) : P r -> encodes P (EncodeRune r).
Proof. intros Hr; rewrite <- (sapp_nil_r (EncodeRune r)); apply encodes_cons; [exact Hr | apply encodes_nil]. Qed.

Lemma map_first_some (fuel : nat) (pre s out : string) :
  (String.length s <= fuel)%nat -> encodes (gfixed g) pre ->
  map_first g fuel pre s = Some out -> encodes (gfixed g) out.
Proof.
  revert pre s; induction fuel as [|fuel IH]; intros pre s Hl Hp Hm; [discriminate|].
  destruct s as [|a s']; [discriminate|].
  cbn [map_first] in Hm; destruct (DecodeRuneInString (String a s')) as [c w] eqn:Hd.
  destruct (decode_nonempty (String a s') c w ltac:(discriminate) Hd) as [Hv Hw].
  destruct (Hg c Hv) as [Hv' _].
  assert (Hrec : g c = c -> ~ (c = RuneError /\ w = 1%nat) ->
            map_first g fuel (pre +++ take w (String a s')) (drop w (String a s')) = Some out ->
            encodes (gfixed g) out).
  { intros Egc Hn Hm'.
    destruct (decode_inv (String a s') c w ltac:(discriminate) Hd Hn) as (_ & Hw' & Et).
    apply (IH (pre +++ take w (String a s')) _ (drop_length_le _ _ _ _ Hl Hw)); [|exact Hm'].
    apply encodes_app; [exact Hp|].
    rewrite Et, Hw', take_app; apply encodes_one; split; auto. }
  assert (Hbrk : forall width,
            Some (pre +++ (if g c >=? 0 then WriteRune (g c) else EmptyString)
                  +++ map_rest g (String.length (String a s')) (drop width (String a s'))) = Some out ->
            encodes (gfixed g) out).
  { intros width E.
    assert (Hx : forall x y : string, Some x = Some y -> x = y) by congruence.
    apply Hx in E; rewrite <- E.
    apply encodes_app; [exact Hp|]; rewrite WriteRune_valid' by exact Hv'.
    apply encodes_cons; [split; [exact Hv' | apply Hg; exact Hv]|].
    apply map_rest_good; rewrite drop_length; lia. }
  destruct (Z.eqb_spec (g c) c) as [Egc|Ngc]; destruct (Z.eqb_spec c RuneError) as [Ec|Nc];
    cbn [andb negb] in Hm;
    [destruct (Nat.eqb_spec w 1) as [Ew|Nw]; cbn [andb negb] in Hm| | |].
  - exact (Hbrk _ Hm).
  - rewrite (proj2 (Z.eqb_eq _ _) Egc) in Hm; exact (Hrec Egc ltac:(tauto) Hm).
  - exact (Hrec Egc ltac:(tauto) Hm).
  - destruct (Nat.eqb w 1); cbn [andb negb] in Hm; [exact (Hbrk _ Hm)|].
    replace (g c =? c) with false in Hm by (symmetry; apply Z.eqb_neq; auto).
    exact (Hbrk _ Hm).
  - exact (Hbrk _ Hm).
Qed.

Lemma map_first_fixed (rs : list Z) (fuel : nat) (pre : string) :
  Forall (gfixed g) rs -> (String.length (enc_runes rs) <= fuel)%nat ->
  map_first g fuel pre (enc_runes rs) = None.
Proof.
  revert fuel pre; induction rs as [|r rs IH]; intros fuel pre Hf Hl.
  - destruct fuel; reflexivity.
  - inversion Hf as [|? ? [Hv Hgr] Hf']; subst.
    cbn [enc_runes] in *; rewrite slen_app in Hl; pose proof (EncodeRune_len r).
    destruct fuel as [|fuel]; [lia|].
    destruct (EncodeRune r +++ enc_runes rs) as [|a t] eqn:Es.
    { apply (f_equal String.length) in Es; rewrite slen_app in Es; simpl in Es; lia. }
    cbn [map_first]; rewrite <- Es, decode_EncodeRune by exact Hv.
    rewrite Hgr, Z.eqb_refl, drop_app.
    destruct (Z.eqb_spec r RuneError) as [Er|Nr]; cbn [andb negb].
    + subst r; cbn [andb negb].
      replace (Nat.eqb (String.length (EncodeRune RuneError)) 1) with false by reflexivity.
      cbn [andb negb]; rewrite Z.eqb_refl; apply IH; auto; lia.
    + apply IH; auto; lia.
Qed.

Lemma Map_good (s : string) : encodes (gfixed g) (Map g s).
Proof.
  unfold Map; destruct (map_first g (String.length s) EmptyString s) as [out|] eqn:E.
  - exact (map_first_some _ _ _ _ (le_n _) (encodes_nil _) E).
  - exact (map_first_none _ _ _ (le_n _) E).
Qed.

Lemma Map_fixed (rs : list Z) : Forall (gfixed g) rs -> Map g (enc_runes rs) = enc_runes rs.
Proof. intros Hf; unfold Map; rewrite map_first_fixed by (auto; lia); reflexivity. Qed.

End MapLemmas.
Section LowerLemmas.
Local Open Scope Z_scope.

Variable To : Z -> Z.
Hypothesis HTo_valid : forall r, ValidRune r = true -> MaxASCII < r -> ValidRune (To r) = true.
Hypothesis HTo_idem : forall r, ValidRune r = true -> MaxASCII < r ->
  unicode_ToLower To (To r) = To r.

Lemma ToLower_rune_good (c : Z) : ValidRune c = true ->
  ValidRune (unicode_ToLower To c) = true /\
  unicode_ToLower To (unicode_ToLower To c) = unicode_ToLower To c.
Proof.
  intros Hv; pose proof Hv as Hv'; rewrite ValidRune_spec in Hv'.
  unfold unicode_ToLower at 1 3 4; unfold MaxASCII.
  destruct (Z.leb_spec c 0x7F) as [H1|H1].
  - destruct (Z.leb_spec 65 c); destruct (Z.leb_spec c 90); cbn [andb].
    + unfold unicode_ToLower, MaxASCII; rewrite ValidRune_spec.
      destruct (Z.leb_spec (c + 32) 0x7F); [|lia].
      destruct (Z.leb_spec 65 (c + 32)); destruct (Z.leb_spec (c + 32) 90); cbn [andb]; lia.
    + unfold unicode_ToLower, MaxASCII; split; [exact Hv|].
      destruct (Z.leb_spec c 0x7F); [|lia].
      destruct (Z.leb_spec 65 c); destruct (Z.leb_spec c 90); cbn [andb]; lia.
    + unfold unicode_ToLower, MaxASCII; split; [exact Hv|].
      destruct (Z.leb_spec c 0x7F); [|lia].
      destruct (Z.leb_spec 65 c); destruct (Z.leb_spec c 90); cbn [andb]; lia.
    + unfold unicode_ToLower, MaxASCII; split; [exact Hv|].
      destruct (Z.leb_spec c 0x7F); [|lia].
      destruct (Z.leb_spec 65 c); destruct (Z.leb_spec c 90); cbn [andb]; lia.
  - split; [apply HTo_valid; unfold MaxASCII; auto; lia|].
    apply HTo_idem; unfold MaxASCII; auto; lia.
Qed.

Lemma is_upper_spec (c : ascii) : is_upper c = true <-> 65 <= byte c <= 90.
Proof. unfold is_upper, byte; rewrite andb_true_iff, !Nat.leb_le; lia. Qed.

Lemma lower_scan_mono (s : string) (h b hu : bool) :
  lower_scan s h = (b, hu) -> h = true -> hu = true.
Proof.
  revert h; induction s as [|c s IH]; intros h E Hh; simpl in E.
  - congruence.
  - destruct (RuneSelf <=? byte c); [congruence|].
    apply (IH _ E); subst; reflexivity.
Qed.

Lemma lower_scan_true (s : string) (h hu : bool) : lower_scan s h = (true, hu) ->
  (forall c, In c (list_ascii_of_string s) -> byte c < 128) /\
  (hu = false -> forall c, In c (list_ascii_of_string s) -> is_upper c = false).
Proof.
  revert h; induction s as [|c s IH]; intros h E; simpl in E |- *.
  - split; intros; tauto.
  - destruct (Z.leb_spec RuneSelf (byte c)) as [Hc|Hc]; [discriminate|].
    destruct (IH _ E) as [IH1 IH2]; unfold RuneSelf in Hc; split.
    + intros d [<-|Hd]; [lia | auto].
    + intros Hu d [Ed|Hd]; [subst d|auto].
      destruct (is_upper c) eqn:Eu; [|reflexivity].
      rewrite orb_true_r in E; rewrite (lower_scan_mono _ _ _ _ E eq_refl) in Hu; discriminate.
Qed.

Lemma ascii_rune_fixed (c : ascii) : byte c < 128 -> is_upper c = false ->
  gfixed (unicode_ToLower To) (byte c).
Proof.
  intros H1 H2; pose proof (byte_range c).
  assert (~ (65 <= byte c <= 90)) by (rewrite <- is_upper_spec; congruence).
  split; [rewrite ValidRune_spec; lia|].
  unfold unicode_ToLower, MaxASCII; destruct (Z.leb_spec (byte c) 0x7F); [|lia].
  destruct (Z.leb_spec 65 (byte c)); destruct (Z.leb_spec (byte c) 90); cbn [andb]; lia.
Qed.

Lemma String_enc (c : ascii) (s : string) : byte c < 128 ->
  String c s = EncodeRune (byte c) +++ s.
Proof.
  intros H; pose proof (byte_range c); rewrite EncodeRune_ascii by lia.
  simpl; rewrite chr_byte; reflexivity.
Qed.

Lemma ascii_encodes (s : string) :
  (forall c, In c (list_ascii_of_string s) -> byte c < 128 /\ is_upper c = false) ->
  encodes (gfixed (unicode_ToLower To)) s.
Proof.
  induction s as [|c s IH]; intros H; [apply encodes_nil|].
  destruct (H c (or_introl eq_refl)) as [H1 H2].
  rewrite String_enc by exact H1; apply encodes_cons; [apply ascii_rune_fixed; auto|].
  apply IH; intros d Hd; apply H; right; exact Hd.
Qed.

Lemma lower_char_facts (c : ascii) : byte c < 128 ->
  byte (lower_char c) < 128 /\ is_upper (lower_char c) = false.
Proof.
  intros H; pose proof (byte_range c); unfold lower_char.
  destruct (is_upper c) eqn:Eu.
  - apply is_upper_spec in Eu.
    assert (E : byte (ascii_of_nat (nat_of_ascii c + 32)) = byte c + 32)
      by (unfold byte in *; rewrite nat_ascii_embedding by lia; lia).
    split; [lia|]; destruct (is_upper _) eqn:Eu'; [|reflexivity].
    apply is_upper_spec in Eu'; lia.
  - split; auto.
Qed.

Lemma lower_ascii_encodes (s : string) :
  (forall c, In c (list_ascii_of_string s) -> byte c < 128) ->
  encodes (gfixed (unicode_ToLower To)) (lower_ascii s).
Proof.
  induction s as [|c s IH]; intros H; [apply encodes_nil|]; simpl.
  destruct (lower_char_facts c (H c (or_introl eq_refl))) as [H1 H2].
  rewrite String_enc by exact H1; apply encodes_cons; [apply ascii_rune_fixed; auto|].
  apply IH; intros d Hd; apply H; right; exact Hd.
Qed.

(** The result of [strings.ToLower] is made of runes it leaves as they are. *)
Lemma ToLower_encodes (s : string) : encodes (gfixed (unicode_ToLower To)) (ToLower To s).
Proof.
  unfold ToLower; destruct (lower_scan s false) as [[|] hu] eqn:E.
  - destruct (lower_scan_true _ _ _ E) as [H1 H2]; destruct hu; cbn [negb].
    + apply lower_ascii_encodes; exact H1.
    + apply ascii_encodes; intros c Hc; split; auto.
  - apply Map_good; exact ToLower_rune_good.
Qed.

Lemma lower_ascii_app (a b : string) : lower_ascii (a +++ b) = lower_ascii a +++ lower_ascii b.
Proof. induction a; simpl; congruence. Qed.

Lemma lower_ascii_id (s : string) :
  (forall c, In c (list_ascii_of_string s) -> is_upper c = false) -> lower_ascii s = s.
Proof.
  induction s as [|c s IH]; intros H; simpl; [reflexivity|].
  unfold lower_char; rewrite (H c (or_introl eq_refl)), IH; auto.
  intros d Hd; apply H; right; exact Hd.
Qed.

Lemma lower_ascii_enc (rs : list Z) : Forall (gfixed (unicode_ToLower To)) rs ->
  lower_ascii (enc_runes rs) = enc_runes rs.
Proof.
  induction rs as [|r rs IH]; intros Hf; [reflexivity|].
  inversion Hf as [|? ? [Hv Hr] Hf']; subst; cbn [enc_runes].
  rewrite lower_ascii_app, IH by exact Hf'; f_equal.
  apply lower_ascii_id; intros c Hc.
  destruct (Z.lt_ge_cases r 128) as [Hl|Hl].
  - pose proof Hv as Hv'; rewrite ValidRune_spec in Hv'.
    rewrite EncodeRune_ascii in Hc by lia; simpl in Hc; destruct Hc as [<-|[]].
    destruct (is_upper (chr r)) eqn:Eu; [|reflexivity].
    apply is_upper_spec in Eu; rewrite byte_chr in Eu by lia.
    unfold unicode_ToLower, MaxASCII in Hr; destruct (Z.leb_spec r 0x7F); [|lia].
    destruct (Z.leb_spec 65 r); destruct (Z.leb_spec r 90); cbn [andb] in Hr; lia.
  - pose proof (EncodeRune_high_chars r Hv Hl c Hc).
    destruct (is_upper c) eqn:Eu; [|reflexivity]; apply is_upper_spec in Eu; lia.
Qed.

(** [strings.ToLower] leaves a string made of such runes as it is. *)
Lemma ToLower_fixed (t : string) : encodes (gfixed (unicode_ToLower To)) t -> ToLower To t = t.
Proof.
  intros (rs & -> & Hf); unfold ToLower.
  destruct (lower_scan (enc_runes rs) false) as [[|] hu] eqn:E.
  - destruct (negb hu); [reflexivity | apply lower_ascii_enc; exact Hf].
  - exact (Map_fixed _ rs Hf).
Qed.

Lemma ToLower_idem (s : string) : ToLower To (ToLower To s) = ToLower To s.
Proof. apply ToLower_fixed, ToLower_encodes. Qed.

End LowerLemmas.
Section GoodLemmas.
Local Open Scope Z_scope.
Local Open Scope list_scope.

Variable P : Z -> Prop.
Hypothesis HP : forall r, P r -> ValidRune r = true.













End GoodLemmas.
Section TrimLemmas.
Local Open Scope Z_scope.
Local Open Scope list_scope.

Variable P : Z -> Prop.
Hypothesis HP : forall r, P r -> ValidRune r = true.













End TrimLemmas.
Section ConnLemmas.
Local Open Scope Z_scope.

Variable To : Z -> Z.
Hypothesis HTo_valid : forall r, ValidRune r = true -> MaxASCII < r -> ValidRune (To r) = true.
Hypothesis HTo_idem : forall r, ValidRune r = true -> MaxASCII < r ->
  unicode_ToLower To (To r) = To r.






End ConnLemmas.






(* ================================================================== *)
(** * Further properties of the code *)

(** ** Avro and BigQuery field names *)

Lemma AvroName_length (s : string) : String.length (AvroName s) = String.length s.
Proof. induction s as [|c s IH]; simpl; auto. Qed.

Lemma AvroName_chars_ok (s : string) :
  forallb name_char_ok (list_ascii_of_string (AvroName s)) = true.
Proof.
  induction s as [|c s IH]; simpl; auto.
  rewrite IH, andb_true_r; destruct (name_char_ok c) eqn:E; [exact E | reflexivity].
Qed.

Lemma AvroName_valid (s : string) :
  forallb name_char_ok (list_ascii_of_string s) = true -> AvroName s = s.
Proof.
  induction s as [|c s IH]; simpl; auto.
  intros H; apply andb_prop in H as [Hc Hs]; rewrite Hc, (IH Hs); reflexivity.
Qed.

(** [AvroName] / [BigQueryName] on an ASCII name: the result has the
    name's length, holds only letters, digits and underscores, is left
    unchanged by a second application, and a name that is already valid is
    returned as it is. *)
Theorem AvroName_sanitizes (s : string) :
  is_ascii s = true ->
  String.length (AvroName s) = String.length s /\
  forallb name_char_ok (list_ascii_of_string (AvroName s)) = true /\
  AvroName (AvroName s) = AvroName s /\
  (forallb name_char_ok (list_ascii_of_string s) = true -> AvroName s = s).
Proof.
  intros _.
  refine (conj (AvroName_length s) (conj (AvroName_chars_ok s) (conj _ (AvroName_valid s)))).
  apply AvroName_valid, AvroName_chars_ok.
Qed.

Lemma AvroName_sanitizes_witness :
  is_ascii "road-class" = true /\
  String.length (AvroName "road-class") = String.length "road-class" /\
  forallb name_char_ok (list_ascii_of_string (AvroName "road-class")) = true /\
  AvroName (AvroName "road-class") = AvroName "road-class" /\
  (forallb name_char_ok (list_ascii_of_string "road-class") = true ->
   AvroName "road-class" = "road-class").
Proof.
  split; [reflexivity|].
  apply (AvroName_sanitizes "road-class"); reflexivity.
Defined.

(** ** Cell encoding against the Avro schema *)

Lemma primary_type_list_in (l : list AvroType) :
  In AvroTypeNull l -> In (primary_type_list l) l.
Proof.
  unfold primary_type_list; intros Hn.
  destruct (find (fun t => negb (AvroType_eqb t AvroTypeNull)) l) eqn:E.
  - exact (proj1 (find_some _ _ E)).
  - exact Hn.
Qed.

Lemma gcs_schema_types_shape (f : FieldSpec) :
  exists t, gcs_schema_types f = [AvroTypeNull; t].
Proof.
  unfold gcs_schema_types.
  destruct (AvroType_eqb (FieldType_AvroType (field_Type f)) AvroTypeRecord); eexists; reflexivity.
Qed.

(** The gcs worker's [encodeFieldAvro]: whenever it returns (no panic),
    the union key of the encoded cell is one of the types of the field's
    union in the schema built by [AsAvroFieldSchema]; the key/value-array
    encoding is produced only for a tags field, whose schema type is
    [[null, array]]. *)
Theorem encodeFieldAvro_tag_in_schema
    (scan : string -> option (list (string * string))) (conv : AvroType -> Value -> option Value)
    (f : FieldSpec) (v : Value) (w : Wire) :
  encodeFieldAvro scan conv f v = Some w ->
  match w with
  | WTagged k _ => In k (map avro_type_string (gcs_schema_types f))
  | WTags _ => field_Type f = TagsType /\ gcs_schema_types f = [AvroTypeNull; AvroTypeArray]
  end.
Proof.
  unfold encodeFieldAvro; intros H.
  destruct (gcs_schema_types_shape f) as [t Ht].
  destruct (field_Type f) eqn:Ef.
  1-3: destruct v; simpl in H;
       [injection H as <-; rewrite Ht; left; reflexivity
       | ..];
       (destruct (conv _ _); simpl in H; [|discriminate]);
       injection H as <-; apply in_map, primary_type_list_in; rewrite Ht; left; reflexivity.
  destruct v; simpl in H; try discriminate.
  destruct (scan s); injection H as <-; split; try reflexivity;
    unfold gcs_schema_types; rewrite Ef; reflexivity.
Qed.

Lemma encodeFieldAvro_tag_in_schema_witness :
  encodeFieldAvro (fun _ => None) ValueAsType
    {| field_Name := "name"; field_Type := SimpleFieldType AvroTypeString |}
    (VString "Main Street") = Some (WTagged "string" (VString "Main Street")) /\
  In "string" (map avro_type_string
                 (gcs_schema_types {| field_Name := "name"; field_Type := SimpleFieldType AvroTypeString |})).
Proof.
  split; [reflexivity|].
  exact (encodeFieldAvro_tag_in_schema (fun _ => None) ValueAsType
           {| field_Name := "name"; field_Type := SimpleFieldType AvroTypeString |}
           (VString "Main Street") (WTagged "string" (VString "Main Street")) eq_refl).
Defined.

(** [ValueAsType]: for the [string] and [enum] types it never panics and
    always yields a string, the cell itself when it is a string; for [int]
    and [long] it turns an integer cell of every signed kind into an int64
    of the same value; for [float], [double] and [fixed] it turns a float
    cell of either kind into a float64 of the same value; a cell that is
    neither an integer nor a float is, for the other types, returned as it
    is or makes it panic. *)
Theorem ValueAsType_conversion (t : AvroType) (v : Value) :
  ((t = AvroTypeString \/ t = AvroTypeEnum) ->
   exists s, ValueAsType t v = Some (VString s) /\ (forall s0, v = VString s0 -> s = s0)) /\
  ((t = AvroTypeInt \/ t = AvroTypeLong) ->
   forall k z, v = VInt k z -> ValueAsType t v = Some (VInt KInt64 z)) /\
  ((t = AvroTypeFloat \/ t = AvroTypeDouble \/ t = AvroTypeFixed) ->
   forall k x, v = VFloat k x -> ValueAsType t v = Some (VFloat KFloat64 x)) /\
  (t <> AvroTypeString -> t <> AvroTypeEnum ->
   (forall k z, v <> VInt k z) -> (forall k x, v <> VFloat k x) ->
   ValueAsType t v = Some v \/ ValueAsType t v = None).
Proof.
  split; [|split; [|split]].
  - intros [-> | ->]; simpl;
      (destruct v; [eexists; split; [reflexivity | discriminate] ..
                   | exists s; split; [reflexivity | intros s0 H; injection H; auto]
                   | eexists; split; [reflexivity | discriminate]]).
  - intros [-> | ->] k z ->; reflexivity.
  - intros [-> | [-> | ->]] k x ->; reflexivity.
  - intros Hs He Hi Hf; destruct t; try (exfalso; congruence); simpl;
      destruct v; auto;
      solve [exfalso; eapply Hi; reflexivity | exfalso; eapply Hf; reflexivity].
Qed.

Lemma ValueAsType_conversion_witness :
  ValueAsType AvroTypeInt (VInt KInt8 5%Z) = Some (VInt KInt64 5%Z) /\
  ValueAsType AvroTypeFloat (VFloat KFloat32 4607182418800017408%Z) = Some (VFloat KFloat64 4607182418800017408%Z).
Proof.
  split.
  - exact (proj1 (proj2 (ValueAsType_conversion AvroTypeInt (VInt KInt8 5%Z)))
             (or_introl eq_refl) KInt8 5%Z eq_refl).
  - exact (proj1 (proj2 (proj2 (ValueAsType_conversion AvroTypeFloat (VFloat KFloat32 4607182418800017408%Z))))
             (or_introl eq_refl) KFloat32 4607182418800017408%Z eq_refl).
Defined.

(** The bigquery worker: for every non-repeated column, the union key the
    loop gives a cell is one of the types of the column's union in the
    schema of [AsAvroFieldSchema]. *)
Theorem bq_cell_tag_in_schema (f : BQFieldSpec) (v : Value) :
  BQType_Repeated (bqfield_Type f) = false ->
  exists k, bq_encode_cell f v = WTagged k v /\
            In k (map avro_type_string (baf_Type (bq_AsAvroFieldSchema f))).
Proof.
  intros Hr; unfold bq_AsAvroFieldSchema; rewrite Hr; simpl.
  destruct v; eexists; (split; [reflexivity | simpl; auto]).
Qed.

Lemma bq_cell_tag_in_schema_witness :
  BQType_Repeated (simpleFieldType IntegerFieldType false) = false /\
  exists k, bq_encode_cell {| bqfield_Name := "osm_id"; bqfield_Type := simpleFieldType IntegerFieldType false |}
              (VInt KInt64 42%Z) = WTagged k (VInt KInt64 42%Z) /\
            In k (map avro_type_string
                    (baf_Type (bq_AsAvroFieldSchema
                                 {| bqfield_Name := "osm_id"; bqfield_Type := simpleFieldType IntegerFieldType false |}))).
Proof.
  split; [reflexivity|].
  apply (bq_cell_tag_in_schema
           {| bqfield_Name := "osm_id"; bqfield_Type := simpleFieldType IntegerFieldType false |}
           (VInt KInt64 42%Z)); reflexivity.
Defined.

(** The bigquery worker's tags column ([hstore_string], a repeated
    record): its schema union is [[null, array]], but the loop tags every
    non-nil cell ["record"], a key outside that union. *)
Theorem bq_tags_cell_outside_schema (n : string) (v : Value) :
  v <> VNil ->
  bq_encode_cell {| bqfield_Name := n; bqfield_Type := bq_tags_type |} v = WTagged "record" v /\
  baf_Type (bq_AsAvroFieldSchema {| bqfield_Name := n; bqfield_Type := bq_tags_type |})
    = [AvroTypeNull; AvroTypeArray] /\
  ~ In "record" (map avro_type_string
                   (baf_Type (bq_AsAvroFieldSchema {| bqfield_Name := n; bqfield_Type := bq_tags_type |}))).
Proof.
  intros Hv; refine (conj _ (conj eq_refl _)).
  - unfold bq_encode_cell; destruct v; [exfalso; apply Hv; reflexivity | ..]; reflexivity.
  - simpl; intros [H | [H | []]]; discriminate H.
Qed.

Lemma bq_tags_cell_outside_schema_witness :
  bq_encode_cell {| bqfield_Name := "tags"; bqfield_Type := bq_tags_type |} (VString "name=>Main")
    = WTagged "record" (VString "name=>Main") /\
  baf_Type (bq_AsAvroFieldSchema {| bqfield_Name := "tags"; bqfield_Type := bq_tags_type |})
    = [AvroTypeNull; AvroTypeArray] /\
  ~ In "record" (map avro_type_string
                   (baf_Type (bq_AsAvroFieldSchema {| bqfield_Name := "tags"; bqfield_Type := bq_tags_type |}))).
Proof.
  apply (bq_tags_cell_outside_schema "tags" (VString "name=>Main")); discriminate.
Defined.

(** ** Rows of the avro worker *)

Lemma encode_row_into_long (scan : string -> option (list (string * string)))
    (m : AvroRecord) (fs : list FieldSpec) (row : Row) :
  length fs < length row -> encode_row_into scan m fs row = None.
Proof.
  revert fs m; induction row as [|c row IH]; intros fs m H; simpl in H; [lia|].
  destruct fs as [|f fs]; simpl; [reflexivity|].
  simpl in H; destruct (encodeFieldAvroDB scan f c); [|reflexivity].
  apply IH; lia.
Qed.

Lemma assoc_record_set (k k' : string) (v : Wire) (m : AvroRecord) :
  assoc k (record_set k' v m) = if String.eqb k k' then Some v else assoc k m.
Proof.
  induction m as [|[k0 v0] m IH]; simpl.
  - reflexivity.
  - destruct (String.eqb_spec k' k0) as [-> | Hne]; simpl.
    + destruct (String.eqb k k0); reflexivity.
    + rewrite IH; destruct (String.eqb_spec k k') as [-> | Hkk'].
      * destruct (String.eqb_spec k' k0); [contradiction | reflexivity].
      * reflexivity.
Qed.

Lemma keys_record_set (k k' : string) (v : Wire) (m : AvroRecord) :
  In k (map fst (record_set k' v m)) <-> k = k' \/ In k (map fst m).
Proof.
  induction m as [|[k0 v0] m IH]; simpl.
  - intuition (subst; auto).
  - destruct (String.eqb_spec k' k0) as [-> | Hne]; simpl; [intuition (subst; auto)|].
    rewrite IH; intuition (subst; auto).
Qed.

Lemma nodup_record_set (k : string) (v : Wire) (m : AvroRecord) :
  NoDup (map fst m) -> NoDup (map fst (record_set k v m)).
Proof.
  induction m as [|[k0 v0] m IH]; simpl; intros Hn.
  - constructor; [intros []|constructor].
  - inversion Hn as [|? ? Hnin Hn']; subst.
    destruct (String.eqb_spec k k0) as [-> | Hne]; simpl; constructor; auto.
    intros Hin; apply keys_record_set in Hin as [-> | Hin]; [apply Hne; reflexivity | exact (Hnin Hin)].
Qed.

Lemma assoc_app_string {A} (k : string) (l1 l2 : list (string * A)) :
  assoc k (l1 ++ l2) = match assoc k l1 with Some v => Some v | None => assoc k l2 end.
Proof.
  induction l1 as [|[k0 v0] l1 IH]; simpl; [reflexivity|].
  destruct (String.eqb k k0); [reflexivity | exact IH].
Qed.

Lemma encode_row_into_spec (scan : string -> option (list (string * string)))
    (m : AvroRecord) (fs : list FieldSpec) (row : Row) (rec : AvroRecord) :
  encode_row_into scan m fs row = Some rec ->
  (NoDup (map fst m) -> NoDup (map fst rec)) /\
  (forall k, In k (map fst rec) <->
             In k (map (fun f => AvroName (field_Name f)) (firstn (length row) fs)) \/ In k (map fst m)) /\
  exists ws,
    Forall2 (fun fc w => encodeFieldAvroDB scan (fst fc) (snd fc) = Some w) (combine fs row) ws /\
    forall k, assoc k rec =
              match assoc k (rev (combine (map (fun f => AvroName (field_Name f)) fs) ws)) with
              | Some w => Some w
              | None => assoc k m
              end.
Proof.
  revert fs m; induction row as [|c row IH]; intros fs m H.
  - assert (Hm : rec = m) by (destruct fs; injection H as <-; reflexivity); subst rec.
    split; [auto|split].
    + intros k; destruct fs; simpl; tauto.
    + exists []; split; [destruct fs; constructor|].
      intros k; destruct fs; reflexivity.
  - destruct fs as [|f fs]; [discriminate|]; cbn [encode_row_into] in H.
    revert H; destruct (encodeFieldAvroDB scan f c) as [w|] eqn:Ew; intros H; [|discriminate].
    destruct (IH fs _ H) as (Hnd & Hkeys & ws & Hws & Hlk).
    split; [intros Hm; apply Hnd, nodup_record_set, Hm|split].
    + intros k; rewrite Hkeys, keys_record_set; cbn [length firstn map]; simpl;
      intuition (subst; auto).
    + exists (w :: ws); split; [constructor; [exact Ew | exact Hws]|].
      intros k; rewrite Hlk; cbn [map combine rev].
      rewrite assoc_app_string; simpl.
      destruct (assoc k (rev (combine (map (fun f0 => AvroName (field_Name f0)) fs) ws))); [reflexivity|].
      rewrite assoc_record_set; destruct (String.eqb k (AvroName (field_Name f))); reflexivity.
Qed.

(** [AvroTable.loop]'s encoding of a row into a Go map: a row with more
    cells than the spec has fields panics; an encoded row has no duplicate
    key, its keys are the Avro names of the fields of the row's cells, and
    under each key it holds the encoding of the last cell whose field has
    that Avro name: cells of fields whose names sanitize alike overwrite
    one another. *)
Theorem encode_row_shape (scan : string -> option (list (string * string)))
    (fs : list FieldSpec) (row : Row) :
  (length fs < length row -> encode_row scan fs row = None) /\
  (forall rec, encode_row scan fs row = Some rec ->
     NoDup (map fst rec) /\
     (forall k, In k (map fst rec) <->
                In k (map (fun f => AvroName (field_Name f)) (firstn (length row) fs))) /\
     exists ws,
       Forall2 (fun fc w => encodeFieldAvroDB scan (fst fc) (snd fc) = Some w) (combine fs row) ws /\
       forall k, assoc k rec = assoc k (rev (combine (map (fun f => AvroName (field_Name f)) fs) ws))).
Proof.
  split; [apply encode_row_into_long|].
  intros rec H; destruct (encode_row_into_spec scan [] fs row rec H) as (Hnd & Hk & ws & Hws & Hlk).
  split; [apply Hnd; constructor|split].
  - intros k; rewrite Hk; simpl; tauto.
  - exists ws; split; [exact Hws|].
    intros k; rewrite Hlk; destruct (assoc k _); reflexivity.
Qed.

(** Two fields whose names both sanitize to [a_b]. *)
Definition ab_fields : list FieldSpec :=
  [ {| field_Name := "a-b"; field_Type := SimpleFieldType AvroTypeString |};
    {| field_Name := "a_b"; field_Type := SimpleFieldType AvroTypeString |} ].

Lemma encode_row_shape_witness :
  encode_row (fun _ => None) id_fields [VInt KInt64 1%Z; VInt KInt64 2%Z] = None /\
  (NoDup (map fst [("a_b", WTagged "string" (VString "y"))]) /\
   (forall k, In k (map fst [("a_b", WTagged "string" (VString "y"))]) <->
              In k (map (fun f => AvroName (field_Name f)) (firstn 2 ab_fields))) /\
   exists ws,
     Forall2 (fun fc w => encodeFieldAvroDB (fun _ => None) (fst fc) (snd fc) = Some w)
       (combine ab_fields [VString "x"; VString "y"]) ws /\
     forall k, assoc k [("a_b", WTagged "string" (VString "y"))] =
               assoc k (rev (combine (map (fun f => AvroName (field_Name f)) ab_fields) ws))).
Proof.
  split.
  - apply (proj1 (encode_row_shape (fun _ => None) id_fields [VInt KInt64 1%Z; VInt KInt64 2%Z])).
    simpl; lia.
  - apply (proj2 (encode_row_shape (fun _ => None) ab_fields [VString "x"; VString "y"])).
    reflexivity.
Defined.

(** ** Channel bound of the avro worker *)

Lemma avro_rows_bound (scan : string -> option (list (string * string))) (fields : list FieldSpec)
    (s : AvroTableState) :
  avro_reachable scan fields s -> length (st_rows s) <= rows_capacity.
Proof.
  induction 1 as [|s s' Hr IH Hs].
  - simpl; unfold rows_capacity; lia.
  - inversion Hs; subst; cbn; try exact IH.
    + rewrite length_app; simpl; lia.
    + rewrite H0 in IH; simpl in IH; lia.
    + lia.
Qed.

Lemma appended_log (recs : list AvroRecord) (w : bool) :
  appended (map EvAppend recs ++ (if w then [EvWriterClose] else [])) = recs.
Proof.
  induction recs as [|r recs IH]; simpl; [destruct w; reflexivity | rewrite IH; reflexivity].
Qed.

(** In every state of every run of the avro worker, at most 64 rows wait
    in the channel, and the rows inserted so far are the rows already
    taken by the loop followed by the waiting ones, the writer having
    received exactly the records of the taken rows, in insertion order. *)
Theorem avro_worker_progress (scan : string -> option (list (string * string)))
    (fields : list FieldSpec) (s : AvroTableState) :
  avro_reachable scan fields s ->
  length (st_rows s) <= rows_capacity /\
  exists done_rows recs,
    st_inserted s = done_rows ++ st_rows s /\
    Forall2 (fun r rec => encode_row scan fields r = Some rec) done_rows recs /\
    appended (st_log s) = recs.
Proof.
  intros Hr; split; [exact (avro_rows_bound scan fields s Hr)|].
  destruct (avro_inv_reachable scan fields s Hr) as (dn & recs & w & Hins & Hf & Hlog & _ & _).
  exists dn, recs; refine (conj Hins (conj Hf _)).
  rewrite Hlog; apply appended_log.
Qed.

Lemma avro_worker_progress_witness :
  length (st_rows two_rows_run) <= rows_capacity /\
  exists done_rows recs,
    st_inserted two_rows_run = done_rows ++ st_rows two_rows_run /\
    Forall2 (fun r rec => encode_row (fun _ => None) id_fields r = Some rec) done_rows recs /\
    appended (st_log two_rows_run) = recs.
Proof.
  apply (avro_worker_progress (fun _ => None) id_fields two_rows_run).
  apply (run_actions_reachable (fun _ => None) id_fields
           [AInsert [VInt KInt64 1%Z]; AInsert [VInt KInt64 2%Z]; ALoopStep; ALoopStep;
            AEndClose; ALoopExit; AWriterClose] avro_table_init).
  - apply reach_init.
  - vm_compute; reflexivity.
Defined.

(** ** Router [End] of the avro and gcs packages *)

(** The avro and gcs routers' [End] (the same loop): every worker is
    ended, in order, and the error returned is the last non-nil one. *)
Theorem avro_router_end_last_error {W} (tt_End : W -> option Err) (tables : list W) :
  avro_TxRouter_End tt_End tables = (tables, last_error (map tt_End tables)).
Proof. apply avro_TxRouter_End_spec. Qed.

(** ** [tableImport.End] of the bigquery worker *)

(** A load job that runs and is waited for but whose status reports a
    failure: [End] stops after the load, deletes nothing, runs no query and
    returns nil. *)
Theorem tableImport_End_failed_load_is_nil (cfg : BQConfig) (rm : Remote) (spec : TableSpec) :
  object_close_ok rm (ts_Name spec) = true ->
  load_run_ok rm (ts_Name spec) = true ->
  load_wait_ok rm (ts_Name spec) = true ->
  load_status_ok rm (ts_Name spec) = false ->
  tableImport_End cfg rm spec =
    ([EDrainRows (ts_Name spec); ECloseObject (gcs_uri cfg spec);
      ELoadJob (ts_Dataset spec) (ts_Name spec +++ "_tmp") (gcs_uri cfg spec)], None).
Proof.
  intros H1 H2 H3 H4; unfold tableImport_End; rewrite H1, H2, H3, H4; reflexivity.
Qed.

Lemma tableImport_End_failed_load_is_nil_witness :
  tableImport_End cfg_example remote_load_fails (spec_of "roads") =
    ([EDrainRows "roads"; ECloseObject (gcs_uri cfg_example (spec_of "roads"));
      ELoadJob (ts_Dataset (spec_of "roads")) ("roads" +++ "_tmp") (gcs_uri cfg_example (spec_of "roads"))],
     None).
Proof.
  apply (tableImport_End_failed_load_is_nil cfg_example remote_load_fails (spec_of "roads"));
    reflexivity.
Defined.

Lemma string_length_append (s t : string) :
  String.length (s +++ t) = String.length s + String.length t.
Proof. induction s as [|c s IH]; simpl; auto. Qed.

Lemma append_tmp_neq (n : string) : n <> n +++ "_tmp".
Proof.
  intros H; apply (f_equal String.length) in H.
  rewrite string_length_append in H; simpl in H; lia.
Qed.

(** [tableImport.End] deletes the target table only after the object was
    closed, the load job ran, finished and succeeded and the temporary
    table was updated. *)
Theorem tableImport_End_delete_after_load (cfg : BQConfig) (rm : Remote) (spec : TableSpec) :
  In (EDeleteTable (ts_Dataset spec) (ts_Name spec)) (fst (tableImport_End cfg rm spec)) ->
  object_close_ok rm (ts_Name spec) = true /\ load_run_ok rm (ts_Name spec) = true /\
  load_wait_ok rm (ts_Name spec) = true /\ load_status_ok rm (ts_Name spec) = true /\
  update_ok rm (ts_Name spec) = true.
Proof.
  unfold tableImport_End.
  pose proof (append_tmp_neq (ts_Name spec)) as Hn.
  destruct (object_close_ok rm (ts_Name spec)); simpl;
    [| intros [H | []]; discriminate H].
  destruct (load_run_ok rm (ts_Name spec)); simpl;
    [| intros [H | [H | []]]; discriminate H].
  destruct (load_wait_ok rm (ts_Name spec)); simpl;
    [| intros [H | [H | [H | []]]]; discriminate H].
  destruct (load_status_ok rm (ts_Name spec)); simpl;
    [| intros [H | [H | [H | []]]]; discriminate H].
  destruct (update_ok rm (ts_Name spec)); simpl;
    [ intros _; repeat split
    | intros [H | [H | [H | [H | []]]]]; try discriminate H;
      injection H as H; exact (False_ind _ (Hn (eq_sym H))) ].
Qed.

Lemma tableImport_End_delete_after_load_witness :
  object_close_ok remote_ok "roads" = true /\ load_run_ok remote_ok "roads" = true /\
  load_wait_ok remote_ok "roads" = true /\ load_status_ok remote_ok "roads" = true /\
  update_ok remote_ok "roads" = true.
Proof.
  apply (tableImport_End_delete_after_load cfg_example remote_ok (spec_of "roads")).
  vm_compute; right; right; right; right; left; reflexivity.
Defined.

(** ** [BigQuery.Delete] *)

Lemma TxRouter_Delete_not_ok (txr : TxRouter) (t : string) (id : Z) :
  TxRouter_Delete txr t id =
    match assoc t (txr_Tables txr) with
    | None => RErr ("Delete from unknown table " +++ t)
    | Some _ => RPanic "unable to delete in bulkImport mode"
    end.
Proof. unfold TxRouter_Delete; destruct (assoc t (txr_Tables txr)); reflexivity. Qed.

(** [BigQuery.Delete] succeeds only on an element that matched no table:
    for the first matched table it panics when the router has a worker for
    it and otherwise returns the wrapped "unknown table" error; the
    generalized tables are never reached. *)
Theorem BigQuery_Delete_outcome (txr : TxRouter) (gens : list (string * list string))
    (updateGeneralizedTables : bool) (id : Z) (t : string) (ms : list string) :
  BigQuery_Delete txr gens updateGeneralizedTables id [] = ROk /\
  BigQuery_Delete txr gens updateGeneralizedTables id (t :: ms) =
    match assoc t (txr_Tables txr) with
    | None => RErr ("deleting " +++ fmt_d id +++ " from " +++ dq +++ t +++ dq +++ ": "
                    +++ "Delete from unknown table " +++ t)
    | Some _ => RPanic "unable to delete in bulkImport mode"
    end.
Proof.
  split; [unfold BigQuery_Delete; simpl; destruct updateGeneralizedTables; reflexivity|].
  unfold BigQuery_Delete; simpl; rewrite TxRouter_Delete_not_ok.
  destruct (assoc t (txr_Tables txr)); reflexivity.
Qed.

(** ** [updatedIDs] bookkeeping of [InsertLineString] / [InsertPolygon] *)

Lemma ids_get_append (m : list (string * list Z)) (g k : string) (id : Z) :
  ids_get (ids_append m g id) k = if String.eqb k g then ids_get m k ++ [id] else ids_get m k.
Proof.
  induction m as [|[k' l] m IH]; unfold ids_get in *; simpl.
  - destruct (String.eqb k g); reflexivity.
  - destruct (String.eqb_spec g k') as [<- | Hne]; simpl.
    + destruct (String.eqb k g); reflexivity.
    + destruct (String.eqb_spec k k') as [-> | Hk]; [|exact IH].
      destruct (String.eqb_spec k' g) as [E|]; [congruence | reflexivity].
Qed.

Lemma ids_get_fold (gs : list string) (m : list (string * list Z)) (k : string) (id : Z) :
  ids_get (fold_left (fun m g => ids_append m g id) gs m) k
  = ids_get m k ++ repeat id (count_occ string_dec gs k).
Proof.
  revert m; induction gs as [|g gs IH]; intros m; simpl.
  - rewrite app_nil_r; reflexivity.
  - rewrite IH, ids_get_append.
    destruct (String.eqb_spec k g) as [-> | Hne];
      destruct (string_dec g g) as [|Hgg]; try congruence.
    + rewrite <- app_assoc; reflexivity.
    + destruct (string_dec g k) as [E|]; [congruence | reflexivity].
Qed.

(** [InsertLineString] / [InsertPolygon]: when the insert fails or
    generalized-table updates are off, [updatedIDs] is left as it is; after
    a successful insert with updates on, the element's id has been
    appended to the list of each table once per occurrence of the table
    among the generalizations of the matched tables, and nothing else
    changed. *)
Theorem InsertLineString_updatedIDs (txr : TxRouter) (gens : list (string * list string))
    (updateGeneralizedTables : bool) (ids : list (string * list Z)) (elemID : Z)
    (matches : list (string * Row)) (r : GoResult) (ids' : list (string * list Z)) :
  BigQuery_InsertLineString txr gens updateGeneralizedTables ids elemID matches = (r, ids') ->
  ((r <> ROk \/ updateGeneralizedTables = false) -> ids' = ids) /\
  (r = ROk -> updateGeneralizedTables = true ->
   exists genMatches,
     generalizedFromMatches gens (map fst matches) = Some genMatches /\
     forall k, ids_get ids' k = ids_get ids k ++ repeat elemID (count_occ string_dec genMatches k)).
Proof.
  unfold BigQuery_InsertLineString.
  destruct (insert_each txr matches) eqn:Ei.
  - destruct updateGeneralizedTables.
    + destruct (generalizedFromMatches gens (map fst matches)) as [gm|] eqn:Eg;
        intros H; injection H as <- <-; split.
      * intros [H | H]; [congruence | discriminate].
      * intros _ _; exists gm; split; [reflexivity|]; intros k; apply ids_get_fold.
      * intros _; reflexivity.
      * intros H; discriminate H.
    + intros H; injection H as <- <-; split; [reflexivity | intros _ H; discriminate H].
  - intros H; injection H as <- <-; split; [reflexivity | intros H; discriminate H].
  - intros H; injection H as <- <-; split; [reflexivity | intros H; discriminate H].
Qed.

Lemma InsertLineString_updatedIDs_witness :
  BigQuery_InsertLineString roads_txr [("roads", ["roads_gen0"; "roads_gen1"])] true [] 7%Z
    [("roads", [VInt KInt64 7%Z])]
  = (ROk, [("roads_gen0", [7%Z]); ("roads_gen1", [7%Z])]) /\
  (ROk <> ROk \/ true = false -> [("roads_gen0", [7%Z]); ("roads_gen1", [7%Z])] = []) /\
  (ROk = ROk -> true = true ->
   exists genMatches,
     generalizedFromMatches [("roads", ["roads_gen0"; "roads_gen1"])] (map fst [("roads", [VInt KInt64 7%Z])])
       = Some genMatches /\
     forall k, ids_get [("roads_gen0", [7%Z]); ("roads_gen1", [7%Z])] k
               = ids_get [] k ++ repeat 7%Z (count_occ string_dec genMatches k)).
Proof.
  split; [vm_compute; reflexivity|].
  apply (InsertLineString_updatedIDs roads_txr [("roads", ["roads_gen0"; "roads_gen1"])] true [] 7%Z
           [("roads", [VInt KInt64 7%Z])]).
  vm_compute; reflexivity.
Defined.

(** ** Resolution of the generalized tables' sources *)

Lemma assoc_in {A} (k : string) (l : list (string * A)) (v : A) :
  assoc k l = Some v -> In k (map fst l).
Proof.
  induction l as [|[k' v'] l IH]; simpl; [discriminate|].
  destruct (String.eqb_spec k k') as [-> | _]; [intros _; left; reflexivity|].
  intros H; right; exact (IH H).
Qed.

Lemma assoc_update_gen (n name : string) (f : GenTable -> GenTable) (l : list (string * GenTable)) :
  assoc n (update_gen name f l) = if String.eqb n name then option_map f (assoc n l) else assoc n l.
Proof.
  induction l as [|[k t] l IH]; simpl.
  - destruct (String.eqb n name); reflexivity.
  - destruct (String.eqb_spec name k) as [-> | Hne]; simpl.
    + destruct (String.eqb_spec n k); reflexivity.
    + rewrite IH; destruct (String.eqb_spec n k) as [-> | ]; [|reflexivity].
      destruct (String.eqb_spec k name); [congruence | reflexivity].
Qed.

Lemma gen_modify (bq : BQ) (name n : string) (f : GenTable -> GenTable) :
  gen (modify_gen bq name f) n = if String.eqb n name then option_map f (gen bq n) else gen bq n.
Proof. apply assoc_update_gen. Qed.

Lemma keys_update_gen (name : string) (f : GenTable -> GenTable) (l : list (string * GenTable)) :
  map fst (update_gen name f l) = map fst l.
Proof.
  induction l as [|[k t] l IH]; simpl; [reflexivity|].
  destruct (String.eqb name k); simpl; [reflexivity | rewrite IH; reflexivity].
Qed.

Lemma tables_modify (bq : BQ) (name : string) (f : GenTable -> GenTable) :
  bq_Tables (modify_gen bq name f) = bq_Tables bq.
Proof. reflexivity. Qed.

Lemma keys_modify (bq : BQ) (name : string) (f : GenTable -> GenTable) :
  map fst (bq_GeneralizedTables (modify_gen bq name f)) = map fst (bq_GeneralizedTables bq).
Proof. apply keys_update_gen. Qed.

(** The part of the state [prepareGeneralizedTableSources] keeps. *)
Lemma prepare_pass1_frame (order : list string) (bq bq' : BQ) :
  prepare_pass1 order bq = inr bq' ->
  bq_Tables bq' = bq_Tables bq /\
  map fst (bq_GeneralizedTables bq') = map fst (bq_GeneralizedTables bq).
Proof.
  revert bq; induction order as [|name rest IH]; intros bq; simpl.
  - intros H; injection H as <-; split; reflexivity.
  - destruct (gen bq name) as [table|]; [|apply IH].
    destruct (is_some (assoc (gt_SourceName table) (bq_Tables bq))).
    + intros H; destruct (IH _ H) as [H1 H2]; rewrite H1, H2; split; [reflexivity | apply keys_modify].
    + destruct (is_some (gen bq (gt_SourceName table))); [|discriminate].
      intros H; destruct (IH _ H) as [H1 H2]; rewrite H1, H2; split; [reflexivity | apply keys_modify].
Qed.

Lemma prepare_fill_frame (order : list string) (bq : BQ) (filled : bool) :
  bq_Tables (fst (prepare_fill order bq filled)) = bq_Tables bq /\
  map fst (bq_GeneralizedTables (fst (prepare_fill order bq filled)))
  = map fst (bq_GeneralizedTables bq).
Proof.
  revert bq filled; induction order as [|name rest IH]; intros bq filled; simpl; [split; reflexivity|].
  destruct (gen bq name) as [table|]; [|apply IH].
  destruct (gt_Source table); [apply IH|].
  destruct (IH (match gen bq (gt_SourceName table) with
                | Some source =>
                    match gt_Source source with
                    | Some s => modify_gen bq name (fun t => set_Source t (Some s))
                    | None => bq
                    end
                | None => bq
                end) true) as [H1 H2].
  rewrite H1, H2.
  destruct (gen bq (gt_SourceName table)) as [source|]; [|split; reflexivity].
  destruct (gt_Source source); [split; [reflexivity | apply keys_modify] | split; reflexivity].
Qed.

Lemma prepare_fill_true (order : list string) (bq : BQ) :
  snd (prepare_fill order bq true) = true.
Proof.
  revert bq; induction order as [|name rest IH]; intros bq; simpl; [reflexivity|].
  destruct (gen bq name) as [table|]; [|apply IH].
  destruct (gt_Source table); apply IH.
Qed.

Lemma prepare_fill_false (order : list string) (bq bq' : BQ) :
  prepare_fill order bq false = (bq', false) ->
  bq' = bq /\ forall name t, In name order -> gen bq name = Some t -> gt_Source t <> None.
Proof.
  revert bq; induction order as [|name rest IH]; intros bq; simpl.
  - intros H; injection H as <-; split; [reflexivity | intros _ _ []].
  - destruct (gen bq name) as [table|] eqn:Eg.
    + destruct (gt_Source table) as [s|] eqn:Es.
      * intros H; destruct (IH bq H) as [-> Hr]; split; [reflexivity|].
        intros n t [<- | Hin] Ht; [rewrite Eg in Ht; injection Ht as <-; congruence | exact (Hr n t Hin Ht)].
      * intros H; exfalso.
        match type of H with prepare_fill rest ?b true = _ =>
          pose proof (prepare_fill_true rest b) as Ht; rewrite H in Ht; discriminate Ht end.
    + intros H; destruct (IH bq H) as [-> Hr]; split; [reflexivity|].
      intros n t [<- | Hin] Ht; [congruence | exact (Hr n t Hin Ht)].
Qed.

Lemma prepare_loop_result (fuel : nat) (orders : nat -> list string) (k : nat) (bq bq' : BQ) :
  prepare_loop fuel orders k bq = Some bq' ->
  map fst (bq_GeneralizedTables bq') = map fst (bq_GeneralizedTables bq) /\
  exists k', forall name t, In name (orders k') -> gen bq' name = Some t -> gt_Source t <> None.
Proof.
  revert k bq; induction fuel as [|fuel IH]; intros k bq; simpl; [discriminate|].
  destruct (prepare_fill (orders k) bq false) as [b filled] eqn:Ef.
  pose proof (proj2 (prepare_fill_frame (orders k) bq false)) as Hk; rewrite Ef in Hk; simpl in Hk.
  destruct filled.
  - intros H; destruct (IH _ _ H) as [H1 H2]; rewrite H1, Hk; split; [reflexivity | exact H2].
  - intros H; injection H as <-.
    destruct (prepare_fill_false _ _ _ Ef) as [-> Hs].
    split; [reflexivity | exists k; exact Hs].
Qed.

(** [prepareGeneralizedTableSources]: when it returns without error, and
    every iteration of the fill loop ranges over all generalized tables,
    every generalized table has its [Source] set. *)
Theorem prepare_sources_all_set (fuel : nat) (order1 : list string) (orders : nat -> list string)
    (bq bq' : BQ) :
  (forall k name, In name (map fst (bq_GeneralizedTables bq)) -> In name (orders k)) ->
  prepareGeneralizedTableSources fuel order1 orders bq = Some (inr bq') ->
  forall name t, gen bq' name = Some t -> gt_Source t <> None.
Proof.
  intros Hall; unfold prepareGeneralizedTableSources.
  destruct (prepare_pass1 order1 bq) as [e|bq1] eqn:E1; [discriminate|].
  destruct (prepare_loop fuel orders 0 bq1) as [b|] eqn:El; simpl; [|discriminate].
  intros H; injection H as <-.
  destruct (prepare_pass1_frame _ _ _ E1) as [_ Hk1].
  destruct (prepare_loop_result _ _ _ _ _ El) as [Hk2 [k' Hs]].
  intros name t Ht; apply (Hs name t); [|exact Ht].
  apply Hall; rewrite <- Hk1, <- Hk2; exact (assoc_in _ _ _ Ht).
Qed.

Lemma prepare_sources_all_set_witness :
  (forall k name, In name (map fst (bq_GeneralizedTables abc_bq)) ->
     In name ((fun _ : nat => ["C"; "B"]) k)) /\
  prepareGeneralizedTableSources 3 ["C"; "B"] (fun _ => ["C"; "B"]) abc_bq
    = Some (inr abc_prepared) /\
  (forall name t, gen abc_prepared name = Some t -> gt_Source t <> None).
Proof.
  assert (Hall : forall k name, In name (map fst (bq_GeneralizedTables abc_bq)) ->
                   In name ((fun _ : nat => ["C"; "B"]) k)).
  { intros k name H; simpl in H |- *; tauto. }
  assert (Hp : prepareGeneralizedTableSources 3 ["C"; "B"] (fun _ => ["C"; "B"]) abc_bq
               = Some (inr abc_prepared)) by (vm_compute; reflexivity).
  exact (conj Hall (conj Hp (prepare_sources_all_set 3 ["C"; "B"] (fun _ => ["C"; "B"])
                                abc_bq abc_prepared Hall Hp))).
Defined.

Section PrepareCycle.

Variable cyc : list string.

Lemma cycle_pass1 (order : list string) (bq bq' : BQ) :
  (forall n, In n cyc -> assoc n (bq_Tables bq) = None) ->
  cycle_inv cyc bq -> prepare_pass1 order bq = inr bq' -> cycle_inv cyc bq'.
Proof.
  revert bq; induction order as [|name rest IH]; intros bq HT Hc; simpl.
  - intros H; injection H as <-; exact Hc.
  - destruct (gen bq name) as [table|] eqn:Eg; [|apply IH; assumption].
    destruct (is_some (assoc (gt_SourceName table) (bq_Tables bq))) eqn:Ea.
    + apply IH; [exact HT|].
      intros n Hn; destruct (Hc n Hn) as (t & Ht & Hs & Hin).
      exists t; rewrite gen_modify.
      destruct (String.eqb_spec n name) as [-> | _]; [|tauto].
      exfalso; rewrite Eg in Ht; injection Ht as <-.
      rewrite (HT _ Hin) in Ea; discriminate Ea.
    + destruct (is_some (gen bq (gt_SourceName table))); [|discriminate].
      apply IH; [exact HT|].
      intros n Hn; destruct (Hc n Hn) as (t & Ht & Hs & Hin).
      rewrite gen_modify; destruct (String.eqb_spec n name) as [-> | _]; [|exists t; tauto].
      rewrite Ht; exists (set_SourceGeneralized t (Some (gt_SourceName table))); simpl; tauto.
Qed.

Lemma cycle_fill (n0 : string) (order : list string) (bq : BQ) (filled : bool) :
  In n0 cyc -> cycle_inv cyc bq ->
  cycle_inv cyc (fst (prepare_fill order bq filled)) /\
  (In n0 order -> snd (prepare_fill order bq filled) = true).
Proof.
  intros H0; revert bq filled; induction order as [|name rest IH]; intros bq filled Hc; simpl.
  - split; [exact Hc | intros []].
  - destruct (gen bq name) as [table|] eqn:Eg.
    + destruct (gt_Source table) as [s|] eqn:Es.
      * destruct (IH bq filled Hc) as [Hc' Hf]; split; [exact Hc'|].
        intros [<- | Hin]; [|exact (Hf Hin)].
        exfalso; destruct (Hc _ H0) as (t & Ht & Hs & _); congruence.
      * set (bq1 := match gen bq (gt_SourceName table) with
                    | Some source =>
                        match gt_Source source with
                        | Some s => modify_gen bq name (fun t => set_Source t (Some s))
                        | None => bq
                        end
                    | None => bq
                    end).
        assert (Hc1 : cycle_inv cyc bq1).
        { unfold bq1.
          destruct (gen bq (gt_SourceName table)) as [source|] eqn:Es2; [|exact Hc].
          destruct (gt_Source source) as [s|] eqn:Es3; [|exact Hc].
          intros n Hn; destruct (Hc n Hn) as (t & Ht & Hs & Hin).
          rewrite gen_modify; destruct (String.eqb_spec n name) as [-> | _]; [|exists t; tauto].
          exfalso; rewrite Eg in Ht; injection Ht as <-.
          destruct (Hc _ Hin) as (t2 & Ht2 & Hs2 & _); congruence. }
        destruct (IH bq1 true Hc1) as [Hc' _]; split; [exact Hc'|].
        intros _; apply prepare_fill_true.
    + destruct (IH bq filled Hc) as [Hc' Hf]; split; [exact Hc'|].
      intros [<- | Hin]; [|exact (Hf Hin)].
      exfalso; destruct (Hc _ H0) as (t & Ht & _); congruence.
Qed.

Lemma cycle_loop (n0 : string) (orders : nat -> list string) (fuel k : nat) (bq : BQ) :
  In n0 cyc -> (forall k, In n0 (orders k)) -> cycle_inv cyc bq ->
  prepare_loop fuel orders k bq = None.
Proof.
  intros H0 Ho; revert k bq; induction fuel as [|fuel IH]; intros k bq Hc; simpl; [reflexivity|].
  destruct (cycle_fill n0 (orders k) bq false H0 Hc) as [Hc' Hf].
  destruct (prepare_fill (orders k) bq false) as [b filled]; simpl in Hc', Hf.
  rewrite (Hf (Ho k)); exact (IH (S k) b Hc').
Qed.

End PrepareCycle.

(** [prepareGeneralizedTableSources] on generalized tables that are built
    from one another in a cycle never reaching a base table: it never
    returns a result, it either fails in its first loop (on another table)
    or loops for ever, whatever the number of iterations allowed. *)
Theorem prepare_cycle_never_returns (cyc : list string) (n0 : string) (order1 : list string)
    (orders : nat -> list string) (bq : BQ) :
  (forall n, In n cyc -> assoc n (bq_Tables bq) = None) ->
  cycle_inv cyc bq ->
  In n0 cyc -> (forall k, In n0 (orders k)) ->
  forall fuel,
    prepareGeneralizedTableSources fuel order1 orders bq = None \/
    exists e, prepareGeneralizedTableSources fuel order1 orders bq = Some (inl e).
Proof.
  intros HT Hc H0 Ho fuel; unfold prepareGeneralizedTableSources.
  destruct (prepare_pass1 order1 bq) as [e|bq1] eqn:E1; [right; exists e; reflexivity|].
  left; pose proof (prepare_pass1_frame _ _ _ E1) as [Htab _].
  rewrite (cycle_loop cyc n0 orders fuel 0 bq1 H0 Ho); [reflexivity|].
  exact (cycle_pass1 cyc order1 bq bq1 HT Hc E1).
Qed.

Lemma prepare_cycle_never_returns_witness :
  prepareGeneralizedTableSources 100 ["roads_gen"; "a"; "b"] (fun _ => ["b"; "roads_gen"; "a"]) cycle_bq
    = None \/
  exists e, prepareGeneralizedTableSources 100 ["roads_gen"; "a"; "b"] (fun _ => ["b"; "roads_gen"; "a"])
              cycle_bq = Some (inl e).
Proof.
  apply (prepare_cycle_never_returns ["a"; "b"] "a" ["roads_gen"; "a"; "b"]
           (fun _ => ["b"; "roads_gen"; "a"]) cycle_bq).
  - intros n [<- | [<- | []]]; reflexivity.
  - intros n [<- | [<- | []]]; eexists; (split; [reflexivity | split; [reflexivity | simpl; tauto]]).
  - simpl; tauto.
  - intros k; simpl; tauto.
Defined.

(** ** [sortedGeneralizedTables] *)

Lemma existsb_eqb_notin (x : string) (l : list string) :
  ~ In x l -> existsb (String.eqb x) l = false.
Proof.
  intros H; apply Bool.not_true_iff_false; intros E.
  apply existsb_exists in E as (y & Hy & Exy); apply String.eqb_eq in Exy; subst y; exact (H Hy).
Qed.

Lemma sorted_pass_all_sourced (bq : BQ) (order acc : list string) :
  (forall name, In name order ->
     exists t, gen bq name = Some t /\ gt_Name t = name /\ gt_Source t <> None) ->
  NoDup (acc ++ order) ->
  sorted_pass bq order acc = Some (acc ++ order).
Proof.
  revert acc; induction order as [|name rest IH]; intros acc Hs Hnd; simpl.
  - rewrite app_nil_r; reflexivity.
  - destruct (Hs name (or_introl eq_refl)) as (t & Ht & Hn & Hsrc); rewrite Ht, Hn.
    rewrite existsb_eqb_notin
      by (intros Hin; apply (NoDup_remove_2 _ _ _ Hnd), in_or_app; left; exact Hin).
    destruct (gt_Source t) as [s|]; [|exfalso; apply Hsrc; reflexivity].
    replace (acc ++ name :: rest) with ((acc ++ [name]) ++ rest) by (rewrite <- app_assoc; reflexivity).
    apply IH; [intros n Hin; apply Hs; right; exact Hin|].
    rewrite <- app_assoc; exact Hnd.
Qed.

(** [sortedGeneralizedTables] on generalized tables that all have their
    [Source] (as [prepareGeneralizedTableSources] leaves them): the result
    is the iteration order of its first pass, whatever the tables are
    generalized from; a table can come before the generalized table it is
    built from. *)
Theorem sorted_ignores_dependencies (fuel : nat) (bq : BQ) (orders : nat -> list string) :
  (forall name, In name (orders 0) ->
     exists t, gen bq name = Some t /\ gt_Name t = name /\ gt_Source t <> None) ->
  NoDup (orders 0) ->
  length (orders 0) = length (bq_GeneralizedTables bq) ->
  2 <= fuel ->
  sortedGeneralizedTables fuel bq orders = Some (orders 0).
Proof.
  intros Hs Hnd Hlen Hf.
  destruct fuel as [|[|fuel]]; [lia | lia|].
  unfold sortedGeneralizedTables; simpl.
  destruct (length (bq_GeneralizedTables bq)) as [|m] eqn:El; simpl.
  - destruct (orders 0); [reflexivity | discriminate].
  - rewrite (sorted_pass_all_sourced bq (orders 0) [] Hs Hnd); simpl.
    rewrite Hlen, Nat.ltb_irrefl; reflexivity.
Qed.

Lemma sorted_ignores_dependencies_witness :
  sortedGeneralizedTables 2 abc_prepared (fun _ => ["C"; "B"]) = Some ["C"; "B"] /\
  option_map gt_SourceGeneralized (gen abc_prepared "C") = Some (Some "B").
Proof.
  split; [|reflexivity].
  apply (sorted_ignores_dependencies 2 abc_prepared (fun _ => ["C"; "B"])).
  - intros name [<- | [<- | []]]; eexists; (split; [reflexivity | split; [reflexivity | discriminate]]).
  - repeat constructor; simpl; intuition discriminate.
  - reflexivity.
  - lia.
Defined.

(** ** Rotation of the datasets *)

(** [tableExists] answers "exists" without error for every table: the
    metadata error of an absent table contains "Not found". *)
Lemma tableExists_true (c : Catalog) (ds t : string) : tableExists c ds t = (true, None).
Proof. unfold tableExists, table_metadata; destruct (catalog_has c ds t); reflexivity. Qed.

Section StoreProofs.

Context {C : Type}.

Lemma is_some_assoc_keys {A B} (k : string) (l1 : list (string * A)) (l2 : list (string * B)) :
  map fst l1 = map fst l2 -> is_some (assoc k l1) = is_some (assoc k l2).
Proof.
  revert l2; induction l1 as [|[k1 v1] l1 IH]; intros [|[k2 v2] l2]; simpl; try discriminate; auto.
  intros H; injection H as -> H; destruct (String.eqb k k2); [reflexivity | exact (IH _ H)].
Qed.

Lemma assoc_put_table (ts : list (string * C)) (t t' : string) (x : C) :
  assoc t' (put_table ts t x) = if String.eqb t' t then Some x else assoc t' ts.
Proof.
  induction ts as [|[t0 y] ts IH]; simpl; [reflexivity|].
  destruct (String.eqb_spec t t0) as [-> | Hne]; simpl.
  - destruct (String.eqb t' t0); reflexivity.
  - rewrite IH; destruct (String.eqb_spec t' t0) as [-> | _]; [|reflexivity].
    destruct (String.eqb_spec t0 t); [congruence | reflexivity].
Qed.

Lemma store_get_put (s : @Store C) (ds t d t' : string) (x : C) :
  store_get (store_put s ds t x) d t' =
  if String.eqb d ds && String.eqb t' t && is_some (assoc ds s) then Some x else store_get s d t'.
Proof.
  induction s as [|[d0 ts] s IH]; unfold store_get in *; simpl.
  - rewrite andb_false_r; reflexivity.
  - destruct (String.eqb_spec ds d0) as [-> | Hne]; simpl.
    + rewrite andb_true_r; destruct (String.eqb_spec d d0) as [-> | _]; simpl.
      * apply assoc_put_table.
      * reflexivity.
    + destruct (String.eqb_spec d d0) as [-> | _]; [|exact IH].
      destruct (String.eqb_spec d0 ds); [congruence | reflexivity].
Qed.

Lemma keys_store_put (s : @Store C) (ds t : string) (x : C) :
  map fst (store_put s ds t x) = map fst s.
Proof.
  induction s as [|[d ts] s IH]; simpl; [reflexivity|].
  destruct (String.eqb ds d); simpl; [reflexivity | rewrite IH; reflexivity].
Qed.

Lemma keys_copy_job (s : @Store C) (a b t : string) :
  map fst (store_copy_job s a b t) = map fst s.
Proof.
  unfold store_copy_job; destruct (store_get s a t); [|reflexivity].
  destruct (assoc b s); [apply keys_store_put | reflexivity].
Qed.

Lemma store_get_copy (s : @Store C) (a b t d t' : string) :
  store_get (store_copy_job s a b t) d t' =
  match store_get s a t with
  | Some x => if String.eqb d b && String.eqb t' t && is_some (assoc b s) then Some x
              else store_get s d t'
  | None => store_get s d t'
  end.
Proof.
  unfold store_copy_job; destruct (store_get s a t) as [x|]; [|reflexivity].
  destruct (assoc b s) eqn:E.
  - rewrite store_get_put, E; reflexivity.
  - simpl; rewrite !andb_false_r; reflexivity.
Qed.

Lemma store_get_copy_other_ds (s : @Store C) (a b t d t' : string) :
  d <> b -> store_get (store_copy_job s a b t) d t' = store_get s d t'.
Proof.
  intros H; rewrite store_get_copy; destruct (store_get s a t); [|reflexivity].
  destruct (String.eqb_spec d b); [congruence | reflexivity].
Qed.

Lemma store_get_copy_other_table (s : @Store C) (a b t d t' : string) :
  t' <> t -> store_get (store_copy_job s a b t) d t' = store_get s d t'.
Proof.
  intros H; rewrite store_get_copy; destruct (store_get s a t); [|reflexivity].
  destruct (String.eqb_spec t' t); [congruence | rewrite andb_false_r; reflexivity].
Qed.

Lemma store_get_copy_congr (s1 s2 : @Store C) (a b t : string) :
  (forall d, store_get s1 d t = store_get s2 d t) -> map fst s1 = map fst s2 ->
  forall d, store_get (store_copy_job s1 a b t) d t = store_get (store_copy_job s2 a b t) d t.
Proof.
  intros Hg Hk d; rewrite !store_get_copy, Hg, Hg, (is_some_assoc_keys b s1 s2 Hk); reflexivity.
Qed.

Lemma rotate_fold_keys (source dest backup : string) (names : list string) (s : @Store C) :
  map fst (fold_left (fun s t => store_copy_job (store_copy_job s dest backup t) source dest t) names s)
  = map fst s.
Proof.
  revert s; induction names as [|t names IH]; intros s; simpl; [reflexivity|].
  rewrite IH, !keys_copy_job; reflexivity.
Qed.

Lemma rotate_fold_notin (source dest backup : string) (names : list string) (s : @Store C)
    (t d : string) :
  ~ In t names ->
  store_get (fold_left (fun s t => store_copy_job (store_copy_job s dest backup t) source dest t)
               names s) d t = store_get s d t.
Proof.
  revert s; induction names as [|x names IH]; intros s Hn; simpl; [reflexivity|].
  rewrite IH by (intros H; apply Hn; right; exact H).
  assert (Hx : t <> x) by (intros ->; apply Hn; left; reflexivity).
  rewrite !store_get_copy_other_table by exact Hx; reflexivity.
Qed.

Lemma rotate_fold_in (source dest backup : string) (names : list string) (s : @Store C)
    (t : string) :
  NoDup names -> In t names ->
  forall d,
    store_get (fold_left (fun s t => store_copy_job (store_copy_job s dest backup t) source dest t)
                 names s) d t
    = store_get (store_copy_job (store_copy_job s dest backup t) source dest t) d t.
Proof.
  revert s; induction names as [|x names IH]; intros s Hnd Hin d; [destruct Hin|].
  simpl; apply NoDup_cons_iff in Hnd as [Hx Hnd].
  destruct (String.eqb_spec x t) as [-> | Hne].
  - apply rotate_fold_notin; exact Hx.
  - destruct Hin as [E | Hin]; [congruence|].
    rewrite (IH _ Hnd Hin d).
    apply store_get_copy_congr; [| rewrite !keys_copy_job; reflexivity].
    intros d'; apply store_get_copy_congr; [| rewrite !keys_copy_job; reflexivity].
    intros d''; rewrite !store_get_copy_other_table by congruence; reflexivity.
Qed.

Lemma rotate_fold_other_ds (source dest backup : string) (names : list string) (s : @Store C)
    (d t : string) :
  d <> dest -> d <> backup ->
  store_get (fold_left (fun s t => store_copy_job (store_copy_job s dest backup t) source dest t)
               names s) d t = store_get s d t.
Proof.
  intros Hd Hb; revert s; induction names as [|x names IH]; intros s; simpl; [reflexivity|].
  rewrite IH, store_get_copy_other_ds, store_get_copy_other_ds by assumption; reflexivity.
Qed.

Lemma assoc_filter_table (ts : list (string * C)) (t u : string) :
  assoc u (filter (fun '(t0, _) => negb (String.eqb t t0)) ts)
  = if String.eqb u t then None else assoc u ts.
Proof.
  induction ts as [|[t0 y] ts IH]; simpl; [destruct (String.eqb u t); reflexivity|].
  destruct (String.eqb_spec t t0) as [E | Hne]; simpl.
  - subst t0; rewrite IH; destruct (String.eqb u t); reflexivity.
  - destruct (String.eqb_spec u t0) as [E | Hne'].
    + subst t0; destruct (String.eqb_spec u t); [congruence | reflexivity].
    + exact IH.
Qed.

Lemma store_get_delete (s : @Store C) (ds t d t' : string) :
  store_get (store_delete s ds t) d t' =
  if String.eqb d ds && String.eqb t' t then None else store_get s d t'.
Proof.
  induction s as [|[d0 ts] s IH]; unfold store_get in *; simpl.
  - destruct (String.eqb d ds && String.eqb t' t); reflexivity.
  - destruct (String.eqb_spec ds d0) as [-> | Hne]; simpl.
    + destruct (String.eqb_spec d d0) as [-> | _]; simpl; [|reflexivity].
      apply assoc_filter_table.
    + destruct (String.eqb_spec d d0) as [-> | _]; [|exact IH].
      destruct (String.eqb_spec d0 ds); [congruence | reflexivity].
Qed.

Lemma contains_not_found (x : string) :
  contains ("googleapi: Error 404: Not found: " +++ x) "Not found" = true.
Proof. reflexivity. Qed.

Section WithProject.

Variable project : string.

Lemma tableExists_s_none (F : Faults) (s : @Store C) (ds t : string) :
  f_table_metadata F ds t = None -> tableExists_s project F s ds t = (true, None).
Proof.
  intros H; unfold tableExists_s, table_metadata_s; rewrite H.
  destruct (store_get s ds t); reflexivity.
Qed.

Lemma tableExists_s_ok (F : Faults) (s : @Store C) (ds t : string) (b : bool) :
  tableExists_s project F s ds t = (b, None) -> b = true.
Proof.
  unfold tableExists_s; destruct (table_metadata_s project F s ds t) as [e|].
  - destruct (negb (contains e "Not found")); simpl; congruence.
  - congruence.
Qed.

Lemma datasetExists_cases (F : Faults) (s : @Store C) (ds : string) :
  datasetExists project F s ds = (true, None) \/ exists e, datasetExists project F s ds = (false, Some e).
Proof.
  unfold datasetExists; destruct (dataset_metadata project F s ds) as [e|]; [|left; reflexivity].
  destruct (negb (contains e "Not found")); [right; eexists; reflexivity | left; reflexivity].
Qed.

(** [createDatasetIfNotExists] never creates: [datasetExists] answers
    true or fails. *)
Lemma createDataset_store (F : Faults) (s : @Store C) (ds : string) :
  fst (createDatasetIfNotExists project F s ds) = s.
Proof.
  unfold createDatasetIfNotExists.
  destruct (datasetExists_cases F s ds) as [-> | [e ->]]; reflexivity.
Qed.

Lemma createDataset_none (F : Faults) (s : @Store C) (ds : string) :
  f_dataset_metadata F ds = None -> createDatasetIfNotExists project F s ds = (s, None).
Proof.
  intros H; unfold createDatasetIfNotExists, datasetExists, dataset_metadata; rewrite H.
  destruct (assoc ds s); reflexivity.
Qed.

Lemma copy_run_wait_other (F : Faults) (op : CopyOp) (s : @Store C) (a b t d t' : string) :
  d <> b -> store_get (fst (copy_run_wait F op s a b t)) d t' = store_get s d t'.
Proof.
  intros H; unfold copy_run_wait; destruct (f_copy_run F op a b t); simpl;
    [reflexivity | apply store_get_copy_other_ds; exact H].
Qed.

(** With a working warehouse the loop of [rotate] runs to the end: per
    table a snapshot of [dest] into [backup], then a copy of [source] into
    [dest]. *)
Lemma rotate_store_tables_faultless (F : Faults) (source dest backup : string)
    (names : list string) (s : @Store C) (eff : list RotEffect) :
  faultless F ->
  rotate_store_tables project F source dest backup names s eff =
    (eff ++ flat_map (fun t => [RCopyJob SnapshotOperation dest backup t;
                                RCopyJob CopyOperation source dest t]) names,
     fold_left (fun s t => store_copy_job (store_copy_job s dest backup t) source dest t) names s,
     None).
Proof.
  intros (Hd & Ht & Hr & Hw); revert s eff; induction names as [|t names IH]; intros s eff.
  - cbn [rotate_store_tables flat_map fold_left]; rewrite app_nil_r; reflexivity.
  - cbn [rotate_store_tables].
    rewrite !tableExists_s_none by apply Ht.
    unfold copy_run_wait; rewrite !Hr, !Hw.
    cbn [negb]; lazy beta iota zeta; rewrite IH, <- !app_assoc; reflexivity.
Qed.

(** A loop of [rotate] that returns nil ran every copy job. *)
Lemma rotate_store_tables_ok (F : Faults) (source dest backup : string)
    (names : list string) (s : @Store C) (eff eff' : list RotEffect) (s' : @Store C) :
  rotate_store_tables project F source dest backup names s eff = (eff', s', None) ->
  eff' = eff ++ flat_map (fun t => [RCopyJob SnapshotOperation dest backup t;
                                    RCopyJob CopyOperation source dest t]) names /\
  s' = fold_left (fun s t => store_copy_job (store_copy_job s dest backup t) source dest t) names s.
Proof.
  revert s eff; induction names as [|t names IH]; intros s eff H.
  - cbn [rotate_store_tables] in H; injection H as <- <-; rewrite app_nil_r; split; reflexivity.
  - cbn [rotate_store_tables] in H.
    revert H; destruct (tableExists_s project F s source t) as [b1 [e1|]] eqn:T1;
      [intros H; discriminate H | intros H].
    apply tableExists_s_ok in T1; subst b1.
    revert H; destruct (tableExists_s project F s dest t) as [b2 [e2|]] eqn:T2;
      [intros H; discriminate H | intros H].
    apply tableExists_s_ok in T2; subst b2.
    unfold copy_run_wait in H; cbn [negb] in H; lazy beta iota zeta in H.
    revert H; destruct (f_copy_run F SnapshotOperation dest backup t);
      [intros H; discriminate H | intros H]; lazy beta iota zeta in H.
    revert H; destruct (f_copy_wait F SnapshotOperation dest backup t);
      [intros H; discriminate H | intros H]; lazy beta iota zeta in H.
    revert H; destruct (f_copy_run F CopyOperation source dest t);
      [intros H; discriminate H | intros H]; lazy beta iota zeta in H.
    revert H; destruct (f_copy_wait F CopyOperation source dest t);
      [intros H; discriminate H | intros H]; lazy beta iota zeta in H.
    apply IH in H as [-> ->]; rewrite <- !app_assoc; split; reflexivity.
Qed.

Lemma rotate_store_ok (F : Faults) (source dest backup : string)
    (names : list string) (s : @Store C) (eff : list RotEffect) (s' : @Store C) :
  rotate_store project F source dest backup names s = (eff, s', None) ->
  eff = flat_map (fun t => [RCopyJob SnapshotOperation dest backup t;
                            RCopyJob CopyOperation source dest t]) names /\
  s' = fold_left (fun s t => store_copy_job (store_copy_job s dest backup t) source dest t) names s.
Proof.
  unfold rotate_store.
  pose proof (createDataset_store F s dest) as C1.
  destruct (createDatasetIfNotExists project F s dest) as [s1 [e1|]]; simpl in C1; subst s1;
    [intros H; discriminate H|].
  pose proof (createDataset_store F s backup) as C2.
  destruct (createDatasetIfNotExists project F s backup) as [s2 [e2|]]; simpl in C2; subst s2;
    [intros H; discriminate H|].
  intros H; apply rotate_store_tables_ok in H; exact H.
Qed.

Lemma rotate_store_tables_frame (F : Faults) (source dest backup : string)
    (names : list string) (s : @Store C) (eff : list RotEffect) (d t : string) :
  d <> dest -> d <> backup ->
  store_get (snd (fst (rotate_store_tables project F source dest backup names s eff))) d t
  = store_get s d t.
Proof.
  intros Hd Hb; revert s eff; induction names as [|x names IH]; intros s eff; [reflexivity|].
  cbn [rotate_store_tables].
  destruct (tableExists_s project F s source x) as [b1 [e1|]]; [reflexivity|].
  destruct (tableExists_s project F s dest x) as [b2 [e2|]]; [reflexivity|].
  destruct (negb b1); [apply IH|].
  destruct (if b2 then _ else _) as [[s1 eff1] e3] eqn:E3.
  assert (H1 : store_get s1 d t = store_get s d t).
  { revert E3; destruct b2.
    - pose proof (copy_run_wait_other F SnapshotOperation s dest backup x d t Hb) as E.
      destruct (copy_run_wait F SnapshotOperation s dest backup x) as [s0 e0].
      intros H; injection H as <- _ _; exact E.
    - intros H; injection H as <- _; reflexivity. }
  destruct e3 as [e3|]; [exact H1|].
  pose proof (copy_run_wait_other F CopyOperation s1 source dest x d t Hd) as E4.
  destruct (copy_run_wait F CopyOperation s1 source dest x) as [s2 [e4|]]; simpl in E4.
  - simpl; rewrite E4; exact H1.
  - rewrite IH, E4; exact H1.
Qed.

Lemma deleteTable_err (F : Faults) (s : @Store C) (ds t : string) :
  snd (deleteTable project F s ds t) =
  match f_delete F ds t with
  | Some e => if contains e "Not found" then None
              else Some (("deleting table " +++ FullyQualifiedName project ds t) +++ ": " +++ e)
  | None => None
  end.
Proof.
  unfold deleteTable; destruct (f_delete F ds t) as [e|].
  - destruct (contains e "Not found"); reflexivity.
  - destruct (store_get s ds t); reflexivity.
Qed.

Lemma deleteTable_ok (F : Faults) (s : @Store C) (ds t : string) :
  snd (deleteTable project F s ds t) = None <-> delete_fails F ds t = false.
Proof.
  rewrite deleteTable_err; unfold delete_fails.
  destruct (f_delete F ds t) as [e|]; [destruct (contains e "Not found")|]; simpl;
    split; congruence.
Qed.

Lemma deleteTable_store (F : Faults) (s : @Store C) (ds t : string) :
  f_delete F ds t = None ->
  forall d t', store_get (fst (deleteTable project F s ds t)) d t' =
               if String.eqb d ds && String.eqb t' t then None else store_get s d t'.
Proof.
  intros H d t'; unfold deleteTable; rewrite H.
  destruct (store_get s ds t) eqn:E.
  - apply store_get_delete.
  - change (store_get s d t' = if String.eqb d ds && String.eqb t' t then None else store_get s d t').
    destruct (String.eqb_spec d ds) as [-> | _]; [|reflexivity].
    destruct (String.eqb_spec t' t) as [-> | _]; [exact E | reflexivity].
Qed.

Lemma RemoveBackup_ok (F : Faults) (backupSchema : string) (names : list string) (s : @Store C) :
  snd (RemoveBackup project F backupSchema names s) = None <->
  Forall (fun t => delete_fails F backupSchema t = false) names.
Proof.
  revert s; induction names as [|x names IH]; intros s; cbn [RemoveBackup].
  - split; [constructor | reflexivity].
  - pose proof (deleteTable_ok F s backupSchema x) as Hx.
    destruct (deleteTable project F s backupSchema x) as [s' [e|]]; simpl in Hx |- *;
      rewrite Forall_cons_iff, <- Hx.
    + split; [discriminate | intros [H _]; discriminate H].
    + rewrite IH; tauto.
Qed.

Lemma RemoveBackup_first_error (F : Faults) (backupSchema : string) (pre rest : list string)
    (t e : string) (s : @Store C) :
  Forall (fun t => delete_fails F backupSchema t = false) pre ->
  f_delete F backupSchema t = Some e -> contains e "Not found" = false ->
  snd (RemoveBackup project F backupSchema (pre ++ t :: rest) s)
  = Some (("deleting table " +++ FullyQualifiedName project backupSchema t) +++ ": " +++ e).
Proof.
  intros Hpre He Hc; revert s; induction Hpre as [|x pre Hx Hpre IH]; intros s; cbn [app RemoveBackup].
  - pose proof (deleteTable_err F s backupSchema t) as Ht; rewrite He, Hc in Ht.
    destruct (deleteTable project F s backupSchema t) as [s' err]; simpl in Ht; subst err; reflexivity.
  - apply (deleteTable_ok F s) in Hx.
    destruct (deleteTable project F s backupSchema x) as [s' err]; simpl in Hx; subst err; apply IH.
Qed.

Lemma RemoveBackup_no_faults (F : Faults) (backupSchema : string) (names : list string) :
  (forall t, In t names -> f_delete F backupSchema t = None) ->
  forall s : @Store C,
    snd (RemoveBackup project F backupSchema names s) = None /\
    forall d t,
      store_get (fst (RemoveBackup project F backupSchema names s)) d t =
      if String.eqb d backupSchema && existsb (String.eqb t) names then None else store_get s d t.
Proof.
  induction names as [|x names IH]; intros Hn s; cbn [RemoveBackup].
  - split; [reflexivity | intros d t; rewrite andb_false_r; reflexivity].
  - assert (Hx : f_delete F backupSchema x = None) by (apply Hn; left; reflexivity).
    pose proof (deleteTable_store F s backupSchema x Hx) as Hs.
    assert (He : snd (deleteTable project F s backupSchema x) = None)
      by (apply deleteTable_ok; unfold delete_fails; rewrite Hx; reflexivity).
    destruct (deleteTable project F s backupSchema x) as [s' err]; simpl in Hs, He; subst err.
    destruct (IH (fun t H => Hn t (or_intror H)) s') as [IH1 IH2].
    split; [exact IH1|]; intros d t; rewrite IH2, Hs; simpl.
    destruct (String.eqb d backupSchema); simpl; [|reflexivity].
    destruct (String.eqb t x); destruct (existsb (String.eqb t) names); reflexivity.
Qed.

End WithProject.

End StoreProofs.

(** [rotate(source, dest, backup)] (hence [Deploy] and [RevertDeploy]),
    when no call to the warehouse fails, never skips a table and returns
    nil: it issues for every table name, in order, a snapshot job of
    [dest] into [backup] and then a copy job of [source] into [dest]. *)
Theorem rotate_store_jobs {C} (project : string) (F : Faults) (source dest backup : string)
    (names : list string) (s : @Store C) :
  faultless F ->
  fst (fst (rotate_store project F source dest backup names s)) =
    flat_map (fun t => [RCopyJob SnapshotOperation dest backup t;
                        RCopyJob CopyOperation source dest t]) names /\
  snd (rotate_store project F source dest backup names s) = None.
Proof.
  intros HF; unfold rotate_store.
  rewrite (createDataset_none project F s dest) by apply (proj1 HF).
  lazy beta iota zeta.
  rewrite (createDataset_none project F s backup) by apply (proj1 HF).
  lazy beta iota zeta.
  rewrite rotate_store_tables_faultless by exact HF; split; reflexivity.
Qed.

Lemma rotate_store_jobs_witness :
  faultless no_faults /\
  fst (fst (rotate_store "proj" no_faults "import" "production" "backup" ["roads"] deploy_store)) =
    [RCopyJob SnapshotOperation "production" "backup" "roads";
     RCopyJob CopyOperation "import" "production" "roads"] /\
  snd (rotate_store "proj" no_faults "import" "production" "backup" ["roads"] deploy_store) = None.
Proof.
  assert (HF : faultless no_faults) by (repeat split).
  split; [exact HF|].
  apply (rotate_store_jobs "proj" no_faults "import" "production" "backup" ["roads"] deploy_store HF).
Defined.

(** [rotate(source, dest, backup)] writes only into [dest] and [backup]:
    the tables of every other dataset, [source] included, keep their
    contents. *)
Theorem rotate_store_frame {C} (project : string) (F : Faults) (source dest backup : string)
    (names : list string) (s : @Store C) (d t : string) :
  d <> dest -> d <> backup ->
  store_get (snd (fst (rotate_store project F source dest backup names s))) d t = store_get s d t.
Proof.
  intros Hd Hb; unfold rotate_store.
  pose proof (createDataset_store project F s dest) as C1.
  destruct (createDatasetIfNotExists project F s dest) as [s1 [e1|]]; simpl in C1; subst s1;
    [reflexivity|].
  pose proof (createDataset_store project F s backup) as C2.
  destruct (createDatasetIfNotExists project F s backup) as [s2 [e2|]]; simpl in C2; subst s2;
    [reflexivity|].
  apply rotate_store_tables_frame; assumption.
Qed.

Lemma rotate_store_frame_witness :
  "import" <> "production" /\ "import" <> "backup" /\
  store_get (snd (fst (rotate_store "proj" no_faults "import" "production" "backup" ["roads"]
                         deploy_store)))
    "import" "roads"
  = store_get deploy_store "import" "roads".
Proof.
  split; [discriminate | split; [discriminate|]].
  apply rotate_store_frame; discriminate.
Defined.

(** [Deploy] followed by [RevertDeploy], both returning nil (distinct
    import, production and backup datasets, table names listed once, an
    existing backup dataset): every table present in both import and
    production before the deploy gets its production contents back, the
    import dataset holds the imported contents again and the backup holds
    the former production contents. *)
Theorem deploy_revert_restores {C} (project : string) (F F' : Faults)
    (importSchema productionSchema backupSchema : string)
    (names : list string) (s : @Store C) (t : string) (a p : C) :
  importSchema <> productionSchema -> productionSchema <> backupSchema ->
  importSchema <> backupSchema ->
  NoDup names -> In t names ->
  store_get s importSchema t = Some a -> store_get s productionSchema t = Some p ->
  is_some (assoc backupSchema s) = true ->
  snd (Deploy project F importSchema productionSchema backupSchema names s) = None ->
  snd (RevertDeploy project F' importSchema productionSchema backupSchema names
         (snd (fst (Deploy project F importSchema productionSchema backupSchema names s)))) = None ->
  store_get (snd (fst (RevertDeploy project F' importSchema productionSchema backupSchema names
                         (snd (fst (Deploy project F importSchema productionSchema backupSchema names s))))))
            productionSchema t = Some p /\
  store_get (snd (fst (RevertDeploy project F' importSchema productionSchema backupSchema names
                         (snd (fst (Deploy project F importSchema productionSchema backupSchema names s))))))
            importSchema t = Some a /\
  store_get (snd (fst (RevertDeploy project F' importSchema productionSchema backupSchema names
                         (snd (fst (Deploy project F importSchema productionSchema backupSchema names s))))))
            backupSchema t = Some p.
Proof.
  intros HIP HPB HIB Hnd Hin Ha Hp Hb HD HR.
  destruct (Deploy project F importSchema productionSchema backupSchema names s)
    as [[eff1 s1] e1] eqn:ED; simpl in HD, HR |- *; subst e1.
  unfold Deploy in ED; apply rotate_store_ok in ED as [_ ->].
  destruct (RevertDeploy project F' importSchema productionSchema backupSchema names _)
    as [[eff2 s2] e2] eqn:ER; simpl in HR |- *; subst e2.
  unfold RevertDeploy in ER; apply rotate_store_ok in ER as [_ ->].
  set (I := importSchema) in *; set (P := productionSchema) in *; set (B := backupSchema) in *.
  set (s1 := fold_left (fun s t => store_copy_job (store_copy_job s P B t) I P t) names s).
  assert (Hk1 : map fst s1 = map fst s) by apply rotate_fold_keys.
  assert (Hg1 : forall d, store_get s1 d t
                          = store_get (store_copy_job (store_copy_job s P B t) I P t) d t)
    by (apply rotate_fold_in; assumption).
  assert (Hfin : forall d,
            store_get (fold_left (fun s t => store_copy_job (store_copy_job s P I t) B P t) names s1) d t
            = store_get (store_copy_job (store_copy_job
                           (store_copy_job (store_copy_job s P B t) I P t) P I t) B P t) d t).
  { intros d; rewrite (rotate_fold_in B P I names s1 t Hnd Hin d).
    apply store_get_copy_congr; [| rewrite !keys_copy_job, Hk1; reflexivity].
    intros d'; apply store_get_copy_congr; [exact Hg1 | rewrite !keys_copy_job, Hk1; reflexivity]. }
  rewrite !Hfin.
  assert (HaI : is_some (assoc I s) = true)
    by (unfold store_get in Ha; destruct (assoc I s); [reflexivity | discriminate]).
  assert (HaP : is_some (assoc P s) = true)
    by (unfold store_get in Hp; destruct (assoc P s); [reflexivity | discriminate]).
  assert (Hks : forall (x : @Store C) a b, is_some (assoc I (store_copy_job x a b t)) = is_some (assoc I x) /\
                  is_some (assoc P (store_copy_job x a b t)) = is_some (assoc P x) /\
                  is_some (assoc B (store_copy_job x a b t)) = is_some (assoc B x)).
  { intros x a0 b0; rewrite !(is_some_assoc_keys _ (store_copy_job x a0 b0 t) x (keys_copy_job x a0 b0 t)).
    repeat split. }
  assert (EIP : String.eqb I P = false) by (apply String.eqb_neq; exact HIP).
  assert (EPI : String.eqb P I = false) by (apply String.eqb_neq; congruence).
  assert (EPB : String.eqb P B = false) by (apply String.eqb_neq; exact HPB).
  assert (EBP : String.eqb B P = false) by (apply String.eqb_neq; congruence).
  assert (EIB : String.eqb I B = false) by (apply String.eqb_neq; exact HIB).
  assert (EBI : String.eqb B I = false) by (apply String.eqb_neq; congruence).
  rewrite !store_get_copy.
  repeat (rewrite (proj1 (Hks _ _ _)) || rewrite (proj1 (proj2 (Hks _ _ _)))
          || rewrite (proj2 (proj2 (Hks _ _ _)))).
  rewrite Ha, Hp, HaI, HaP, Hb, EIP, EPI, EPB, EBP, EIB, EBI, !String.eqb_refl; simpl.
  repeat split.
Qed.

Lemma deploy_revert_restores_witness :
  snd (Deploy "proj" no_faults "import" "production" "backup" ["roads"] deploy_store) = None /\
  snd (RevertDeploy "proj" no_faults "import" "production" "backup" ["roads"]
         (snd (fst (Deploy "proj" no_faults "import" "production" "backup" ["roads"] deploy_store))))
    = None /\
  store_get (snd (fst (RevertDeploy "proj" no_faults "import" "production" "backup" ["roads"]
                         (snd (fst (Deploy "proj" no_faults "import" "production" "backup" ["roads"]
                                      deploy_store))))))
            "production" "roads" = Some "roads imported yesterday" /\
  store_get (snd (fst (RevertDeploy "proj" no_faults "import" "production" "backup" ["roads"]
                         (snd (fst (Deploy "proj" no_faults "import" "production" "backup" ["roads"]
                                      deploy_store))))))
            "import" "roads" = Some "roads imported today" /\
  store_get (snd (fst (RevertDeploy "proj" no_faults "import" "production" "backup" ["roads"]
                         (snd (fst (Deploy "proj" no_faults "import" "production" "backup" ["roads"]
                                      deploy_store))))))
            "backup" "roads" = Some "roads imported yesterday".
Proof.
  assert (HD : snd (Deploy "proj" no_faults "import" "production" "backup" ["roads"] deploy_store)
               = None) by (vm_compute; reflexivity).
  assert (HR : snd (RevertDeploy "proj" no_faults "import" "production" "backup" ["roads"]
                      (snd (fst (Deploy "proj" no_faults "import" "production" "backup" ["roads"]
                                   deploy_store)))) = None) by (vm_compute; reflexivity).
  split; [exact HD | split; [exact HR|]].
  apply (deploy_revert_restores "proj" no_faults no_faults "import" "production" "backup" ["roads"]
           deploy_store "roads" "roads imported today" "roads imported yesterday").
  - discriminate.
  - discriminate.
  - discriminate.
  - repeat constructor; simpl; tauto.
  - simpl; tauto.
  - reflexivity.
  - reflexivity.
  - reflexivity.
  - exact HD.
  - exact HR.
Defined.

(** [RemoveBackup] returns nil exactly when no [table.Delete] of a listed
    table fails with an error other than "Not found"; otherwise it stops at
    the first such table and returns its error wrapped as "deleting table
    project:backup.table".  When no delete fails at all, every listed table
    is gone from the backup dataset and every other table of every dataset
    is untouched. *)
Theorem RemoveBackup_spec {C} (project : string) (F : Faults) (backupSchema : string)
    (names : list string) (s : @Store C) :
  (snd (RemoveBackup project F backupSchema names s) = None <->
     Forall (fun t => delete_fails F backupSchema t = false) names) /\
  (forall pre t rest e,
     names = pre ++ t :: rest ->
     Forall (fun t => delete_fails F backupSchema t = false) pre ->
     f_delete F backupSchema t = Some e -> contains e "Not found" = false ->
     snd (RemoveBackup project F backupSchema names s)
     = Some (("deleting table " +++ FullyQualifiedName project backupSchema t) +++ ": " +++ e)) /\
  ((forall t, In t names -> f_delete F backupSchema t = None) ->
     snd (RemoveBackup project F backupSchema names s) = None /\
     forall d t,
       store_get (fst (RemoveBackup project F backupSchema names s)) d t =
       if String.eqb d backupSchema && existsb (String.eqb t) names then None else store_get s d t).
Proof.
  split; [apply RemoveBackup_ok|]; split.
  - intros pre t rest e -> Hpre He Hc; apply RemoveBackup_first_error; assumption.
  - intros Hn; apply RemoveBackup_no_faults; exact Hn.
Qed.

Lemma RemoveBackup_spec_witness :
  snd (RemoveBackup "proj" delete_denied "backup" ["roads"] deploy_store)
  = Some "deleting table proj:backup.roads: googleapi: Error 403: Access Denied" /\
  store_get (fst (RemoveBackup "proj" no_faults "backup" ["roads"] deploy_store)) "backup" "roads"
  = None.
Proof.
  split.
  - apply (proj1 (proj2 (RemoveBackup_spec "proj" delete_denied "backup" ["roads"] deploy_store))
             [] "roads" [] "googleapi: Error 403: Access Denied");
      [reflexivity | constructor | reflexivity | reflexivity].
  - apply (proj2 (proj2 (proj2 (RemoveBackup_spec "proj" no_faults "backup" ["roads"] deploy_store))
                    (fun _ _ => eq_refl)) "backup" "roads").
Defined.

(** ** [parseGCSURI] *)

Lemma alnum_char_facts (c : ascii) :
  is_alnum c = true ->
  is_ascii_char c = true /\ is_ctl c = false /\ char_in c "#?%" = false /\
  char_in c "@:[" = false /\ shouldEscapeHost c = false /\ Ascii.eqb "/"%char c = false.
Proof.
  intros H; destruct c as [[] [] [] [] [] [] [] []]; vm_compute in H; try discriminate H;
    vm_compute; repeat split.
Qed.

Lemma list_ascii_of_string_append (s t : string) :
  list_ascii_of_string (s +++ t) = list_ascii_of_string s ++ list_ascii_of_string t.
Proof. induction s as [|c s IH]; simpl; [reflexivity | rewrite IH; reflexivity]. Qed.

Lemma existsb_false_alnum (f : ascii -> bool) (l : list ascii) :
  (forall c, is_alnum c = true -> f c = false) -> forallb is_alnum l = true -> existsb f l = false.
Proof.
  intros Hf; induction l as [|c l IH]; simpl; [reflexivity|].
  intros H; apply andb_prop in H as [Hc Hl]; rewrite (Hf c Hc), (IH Hl); reflexivity.
Qed.

Lemma is_ascii_alnum (b : string) :
  forallb is_alnum (list_ascii_of_string b) = true -> is_ascii b = true.
Proof.
  induction b as [|c b IH]; simpl; [reflexivity|].
  intros H; apply andb_prop in H as [Hc Hb].
  rewrite (proj1 (alnum_char_facts c Hc)), (IH Hb); reflexivity.
Qed.

Lemma is_ascii_append (s t : string) : is_ascii (s +++ t) = is_ascii s && is_ascii t.
Proof. induction s as [|c s IH]; simpl; [reflexivity | rewrite IH, andb_assoc; reflexivity]. Qed.

Lemma index_byte_alnum (b t : string) :
  forallb is_alnum (list_ascii_of_string b) = true ->
  index_byte "/"%char (b +++ t) = option_map (fun i => String.length b + i) (index_byte "/"%char t).
Proof.
  induction b as [|c b IH]; [simpl; destruct (index_byte "/"%char t); reflexivity|].
  cbn [index_byte String.append list_ascii_of_string forallb String.length].
  intros H; apply andb_prop in H as [Hc Hb].
  rewrite (proj2 (proj2 (proj2 (proj2 (proj2 (alnum_char_facts c Hc)))))), (IH Hb).
  destruct (index_byte "/"%char t); reflexivity.
Qed.

Lemma substring_prefix (b t : string) : substring 0 (String.length b) (b +++ t) = b.
Proof. induction b as [|c b IH]; simpl; [destruct t; reflexivity | rewrite IH; reflexivity]. Qed.

Lemma substring_suffix (b t : string) (n : nat) :
  substring (String.length b) n (b +++ t) = substring 0 n t.
Proof. induction b as [|c b IH]; simpl; [reflexivity | exact IH]. Qed.

Lemma append_nil_r_string (s : string) : s +++ "" = s.
Proof. induction s as [|c s IH]; simpl; [reflexivity | rewrite IH; reflexivity]. Qed.

Lemma substring_whole (x : string) : substring 0 (String.length x) x = x.
Proof. induction x as [|c x IH]; simpl; [reflexivity | rewrite IH; reflexivity]. Qed.

Lemma substring_drop2 (x : string) :
  substring 2 (String.length ("//" +++ x) - 2) ("//" +++ x) = x.
Proof. simpl; rewrite Nat.sub_0_r; apply substring_whole. Qed.

Lemma url_Parse_bucket (b t : string) :
  forallb is_alnum (list_ascii_of_string b) = true ->
  (t = "" \/ t = "/") ->
  url_Parse ("gs://" +++ b +++ t) =
    UOk {| u_Scheme := "gs"; u_Host := b; u_Path := t; u_RawPath := "" |}.
Proof.
  intros Hb Ht.
  assert (Hf : forall f : ascii -> bool, (forall c, is_alnum c = true -> f c = false) ->
                 existsb f (list_ascii_of_string b) = false)
    by (intros f Hc; exact (existsb_false_alnum f _ Hc Hb)).
  assert (Hctl : existsb (fun c => is_ctl c || char_in c "#?%") (list_ascii_of_string b) = false)
    by (apply Hf; intros c Hc; destruct (alnum_char_facts c Hc) as (_ & H1 & H2 & _);
        rewrite H1, H2; reflexivity).
  assert (Hat : existsb (fun c => char_in c "@:[") (list_ascii_of_string b) = false)
    by (apply Hf; intros c Hc; apply (alnum_char_facts c Hc)).
  assert (Hsh : existsb (fun c => is_ascii_char c && shouldEscapeHost c)
                  (list_ascii_of_string b) = false)
    by (apply Hf; intros c Hc; destruct (alnum_char_facts c Hc) as (_ & _ & _ & _ & H5 & _);
        rewrite H5, andb_false_r; reflexivity).
  unfold url_Parse.
  rewrite !list_ascii_of_string_append, !existsb_app, Hctl.
  change (getScheme ("gs://" +++ b +++ t)) with (Some ("gs", "//" +++ (b +++ t))).
  cbv beta iota zeta.
  rewrite substring_drop2.
  replace (HasPrefix ("//" +++ (b +++ t)) "//") with true
    by (simpl; destruct (b +++ t); reflexivity).
  destruct Ht as [-> | ->].
  - rewrite append_nil_r_string.
    assert (Hi : index_byte "/"%char b = None).
    { rewrite <- (append_nil_r_string b), index_byte_alnum by exact Hb; reflexivity. }
    rewrite Hi; cbv beta iota zeta.
    rewrite Hat, Hsh; reflexivity.
  - assert (Hi : index_byte "/"%char (b +++ "/") = Some (String.length b)).
    { rewrite index_byte_alnum by exact Hb; simpl; rewrite Nat.add_0_r; reflexivity. }
    rewrite Hi; cbv beta iota zeta.
    rewrite substring_prefix.
    replace (String.length (b +++ "/") - String.length b) with 1
      by (rewrite string_length_append; simpl; lia).
    rewrite substring_suffix, Hat, Hsh; reflexivity.
Qed.

(** [parseGCSURI] on a URI naming only a bucket: ["gs://b"] gives the
    bucket [b] and the object prefix ["./"] ([path.Clean] of the empty path
    is ["."]), ["gs://b/"] gives the prefix ["/"]; in neither case is the
    prefix empty. *)
Theorem parseGCSURI_bucket_only (b : string) :
  forallb is_alnum (list_ascii_of_string b) = true ->
  parseGCSURI ("gs://" +++ b) = GOk b "./" /\
  parseGCSURI ("gs://" +++ b +++ "/") = GOk b "/".
Proof.
  intros Hb.
  assert (Ha : forall t, (t = "" \/ t = "/") -> is_ascii ("gs://" +++ b +++ t) = true).
  { intros t Ht; rewrite is_ascii_append; simpl; rewrite is_ascii_append, (is_ascii_alnum b Hb).
    destruct Ht as [-> | ->]; reflexivity. }
  split.
  - pose proof (Ha "" (or_introl eq_refl)) as Ha0.
    pose proof (url_Parse_bucket b "" Hb (or_introl eq_refl)) as Hu.
    rewrite append_nil_r_string in Ha0, Hu.
    unfold parseGCSURI; rewrite Ha0, Hu; reflexivity.
  - unfold parseGCSURI.
    rewrite (Ha "/" (or_intror eq_refl)), (url_Parse_bucket b "/" Hb (or_intror eq_refl)).
    reflexivity.
Qed.

Lemma parseGCSURI_bucket_only_witness :
  parseGCSURI ("gs://" +++ "osmexport") = GOk "osmexport" "./" /\
  parseGCSURI ("gs://" +++ "osmexport" +++ "/") = GOk "osmexport" "/".
Proof. apply parseGCSURI_bucket_only; reflexivity. Defined.
